(** * ngx-i18nsupport-lib: translation units of XLIFF 1.2 and XLIFF 2.0

  A shallow embedding of [impl/xliff-trans-unit.ts] (class [XliffTransUnit])
  and [impl/xliff2-trans-unit.ts] (class [Xliff2TransUnit]), together with
  the message parser the XMB test suite exercises.

  - Strings are [string]; a value that may be JavaScript [null] is an
    [option].
  - A thrown exception is the [Throw] case of [Result]; a method that
    mutates the DOM is a function from the fragment before the call to the
    fragment after it and the outcome, so that what a call has written
    before it throws stays visible.
  - An element reference held by the code ([source], [target], [segment])
    is the path of that element below the unit's own element. *)

From stdpp Require Import base option list strings gmap.
From Stdlib Require Import Ascii ZArith DecimalString DecimalNat.

Open Scope string_scope.
Open Scope list_scope.
Set Warnings "-register-all".

(** ** Outcomes of a call *)

Inductive Exception : Type :=
| Error (message : string)   (* [throw new Error(message)] *)
| TypeError                  (* a member of [null] is read *)
| NotFoundError.             (* [removeChild] on a node that is not a child *)

Inductive Result (A : Type) : Type :=
| Return (a : A)
| Throw (e : Exception).
Arguments Return {A} a.
Arguments Throw {A} e.

(** ** The abstract translation states

  Modelled from the spec: the constants [STATE_NEW], [STATE_TRANSLATED] and
  [STATE_FINAL] of [api/constants], which both classes import.  The spec
  calls them the abstract states NEW, TRANSLATED and FINAL; the doc comment
  of [mapStateToNativeState] spells them (new, translated, final).  Only
  their being three different strings matters below. *)

Definition STATE_NEW : string := "new".
Definition STATE_TRANSLATED : string := "translated".
Definition STATE_FINAL : string := "final".

(** ** State tokens of XLIFF 1.2 *)

Module XliffState.

(** [XliffTransUnit.mapStateToNativeState]: a [switch] with a throwing
    [default]. *)
Definition mapStateToNativeState (state : string) : Result string :=
  if String.eqb state STATE_NEW then Return "new"
  else if String.eqb state STATE_TRANSLATED then Return "translated"
  else if String.eqb state STATE_FINAL then Return "final"
  else Throw (Error ("unknown state " +:+ state)).

(** [XliffTransUnit.mapNativeStateToState].  The argument is what
    [getAttribute('state')] gave, [None] for [null]; a [switch] compares
    with [===], so [null] falls to [default]. *)
Definition mapNativeStateToState (nativeState : option string) : string :=
  match nativeState with
  | None => STATE_NEW
  | Some s =>
      if String.eqb s "new" then STATE_NEW
      else if String.eqb s "needs-translation" then STATE_NEW
      else if String.eqb s "translated" then STATE_TRANSLATED
      else if String.eqb s "needs-adaptation" then STATE_TRANSLATED
      else if String.eqb s "needs-l10n" then STATE_TRANSLATED
      else if String.eqb s "needs-review-adaptation" then STATE_TRANSLATED
      else if String.eqb s "needs-review-l10n" then STATE_TRANSLATED
      else if String.eqb s "needs-review-translation" then STATE_TRANSLATED
      else if String.eqb s "final" then STATE_FINAL
      else if String.eqb s "signed-off" then STATE_FINAL
      else STATE_NEW
  end.

End XliffState.

(** The tokens XLIFF 1.2 reads as TRANSLATED and as FINAL. *)
Definition tokensReadAsTranslated : list string :=
  ["translated"; "needs-adaptation"; "needs-l10n"; "needs-review-adaptation";
   "needs-review-l10n"; "needs-review-translation"].

Definition tokensReadAsFinal : list string := ["final"; "signed-off"].

(** ** State tokens of XLIFF 2.0 *)

Module Xliff2State.

(** [Xliff2TransUnit.mapStateToNativeState]. *)
Definition mapStateToNativeState (state : string) : Result string :=
  if String.eqb state STATE_NEW then Return "initial"
  else if String.eqb state STATE_TRANSLATED then Return "translated"
  else if String.eqb state STATE_FINAL then Return "final"
  else Throw (Error ("unknown state " +:+ state)).

(** [Xliff2TransUnit.mapNativeStateToState]. *)
Definition mapNativeStateToState (nativeState : option string) : string :=
  match nativeState with
  | None => STATE_NEW
  | Some s =>
      if String.eqb s "initial" then STATE_NEW
      else if String.eqb s "translated" then STATE_TRANSLATED
      else if String.eqb s "reviewed" then STATE_TRANSLATED
      else if String.eqb s "final" then STATE_FINAL
      else STATE_NEW
  end.

End Xliff2State.

(** ** The DOM fragment of a unit

    A unit object holds [_element], an element of the document.  The model
    keeps that element as a tree; a reference into it is the list of child
    indices leading from [_element] to the node. *)

Inductive Node : Type :=
| TextNode (data : string)
| Element (tagName : string) (attributes : list (string * string))
    (childNodes : list Node).

Abbreviation Path := (list nat).

Definition tagNameOf (n : Node) : option string :=
  match n with
  | Element t _ _ => Some t
  | TextNode _ => None
  end.

Definition childNodesOf (n : Node) : list Node :=
  match n with
  | Element _ _ cs => cs
  | TextNode _ => []
  end.

Fixpoint lookupAttribute (name : string) (attrs : list (string * string))
  : option string :=
  match attrs with
  | [] => None
  | (k, v) :: rest =>
      if String.eqb k name then Some v else lookupAttribute name rest
  end.

Fixpoint storeAttribute (name value : string)
  (attrs : list (string * string)) : list (string * string) :=
  match attrs with
  | [] => [(name, value)]
  | (k, v) :: rest =>
      if String.eqb k name then (k, value) :: rest
      else (k, v) :: storeAttribute name value rest
  end.

(** [node.getAttribute(name)], [None] for [null]. *)
Definition attributeOf (name : string) (n : Node) : option string :=
  match n with
  | Element _ attrs _ => lookupAttribute name attrs
  | TextNode _ => None
  end.

Definition withAttribute (name value : string) (n : Node) : Node :=
  match n with
  | Element t attrs cs => Element t (storeAttribute name value attrs) cs
  | TextNode _ => n
  end.

Definition withChildNodes (cs : list Node) (n : Node) : Node :=
  match n with
  | Element t attrs _ => Element t attrs cs
  | TextNode _ => n
  end.

(** The node a path leads to. *)
Fixpoint nodeAt (p : Path) (n : Node) : option Node :=
  match p with
  | [] => Some n
  | i :: p' =>
      match childNodesOf n !! i with
      | Some c => nodeAt p' c
      | None => None
      end
  end.

(** In-place change of the node a path leads to. *)
Fixpoint updateAt (p : Path) (f : Node -> Node) (n : Node) : Node :=
  match p with
  | [] => f n
  | i :: p' =>
      match n with
      | Element t attrs cs => Element t attrs (alter (updateAt p' f) i cs)
      | TextNode _ => n
      end
  end.

(** Elements in document order. *)
Section DocumentOrder.
Variable tagName : string.

Section Children.
Variable below : Node -> list Path.
Fixpoint childrenFrom (i : nat) (cs : list Node) : list Path :=
  match cs with
  | [] => []
  | c :: cs' => map (cons i) (below c) ++ childrenFrom (S i) cs'
  end.
End Children.

Definition selfMatch (n : Node) : list Path :=
  match n with
  | Element t _ _ => if String.eqb t tagName then [[]] else []
  | TextNode _ => []
  end.

(** The node itself, when it has the tag, then its descendants. *)
Fixpoint elementsFrom (n : Node) : list Path :=
  match n with
  | TextNode _ => []
  | Element t _ cs =>
      (if String.eqb t tagName then [[]] else [])
        ++ childrenFrom elementsFrom 0 cs
  end.

(** [element.getElementsByTagName(tagName)]: the descendants with that tag,
    in document order; the element itself is not among them. *)
Definition getElementsByTagName (n : Node) : list Path :=
  childrenFrom elementsFrom 0 (childNodesOf n).
End DocumentOrder.

(** ** Methods that read and write the fragment *)

Definition DOM (A : Type) : Type := Node -> Node * Result A.

Definition ret {A : Type} (a : A) : DOM A := fun e => (e, Return a).

Definition throw {A : Type} (x : Exception) : DOM A := fun e => (e, Throw x).

Definition bind {A B : Type} (m : DOM A) (k : A -> DOM B) : DOM B :=
  fun e =>
    match m e with
    | (e', Return a) => k a e'
    | (e', Throw x) => (e', Throw x)
    end.

Notation "x <- m ;; k" := (bind m (fun x => k))
  (at level 100, m at next level, right associativity).
Notation "m ;; k" := (bind m (fun _ => k))
  (at level 100, right associativity).

Definition gets {A : Type} (f : Node -> A) : DOM A := fun e => (e, Return (f e)).

Definition modify (f : Node -> Node) : DOM unit := fun e => (f e, Return tt).

Definition liftResult {A : Type} (r : Result A) : DOM A := fun e => (e, r).

(** [list.forEach(body)]. *)
Fixpoint forEach {A : Type} (l : list A) (body : A -> DOM unit) : DOM unit :=
  match l with
  | [] => ret tt
  | x :: rest => body x ;; forEach rest body
  end.

(** The fragment a call leaves behind and what it returned. *)
Definition fragmentAfter {A : Type} (m : DOM A) (e : Node) : Node := fst (m e).

(** ** DOM operations *)

Definition setAttribute (element : Path) (name value : string) : DOM unit :=
  modify (updateAt element (withAttribute name value)).

Definition getAttribute (element : Path) (name : string) (e : Node)
  : option string :=
  nodeAt element e ≫= attributeOf name.

Definition insertChild (k : nat) (c : Node) (n : Node) : Node :=
  withChildNodes (take k (childNodesOf n) ++ c :: drop k (childNodesOf n)) n.

(** [parent.appendChild(child)] for a node just created; gives the reference
    to the child in its new place. *)
Definition appendChild (parent : Path) (child : Node) : DOM Path :=
  fun e =>
    match nodeAt parent e with
    | Some (Element _ _ cs) =>
        (updateAt parent (insertChild (length cs) child) e,
         Return (parent ++ [length cs]))
    | _ => (e, Throw TypeError)
    end.

(** A reference split into the parent's reference and the child index. *)
Definition parentAndIndex (p : Path) : option (Path * nat) :=
  match reverse p with
  | [] => None
  | i :: q => Some (reverse q, i)
  end.

(** [node.parentNode.removeChild(node)]. *)
Definition removeNode (node : Path) : DOM unit :=
  match parentAndIndex node with
  | Some (q, i) =>
      modify (updateAt q (fun n => withChildNodes (delete i (childNodesOf n)) n))
  | None => throw TypeError
  end.

(** ** [DOMUtilities]

    Modelled from the spec: the helper class [DOMUtilities] of
    [impl/dom-utilities.ts], of which only the calls are in the two classes.
    The spec has the content accessors return "the raw markup payload" of an
    element and has an absent element give an empty result, not an error.
    Markup written into an element is kept as one text node that holds the
    markup as written, so reading the content back gives the string that was
    written. *)

Definition getFirstElementByTagName (tagName : string) (e : Node)
  : option Path :=
  head (getElementsByTagName tagName e).

Definition quote : string := String (Ascii.ascii_of_nat 34) EmptyString.

Definition attributesXML (attrs : list (string * string)) : string :=
  String.concat EmptyString
    (map (fun kv => " " +:+ fst kv +:+ "=" +:+ quote +:+ snd kv +:+ quote)
       attrs).

Fixpoint outerXML (n : Node) : string :=
  match n with
  | TextNode data => data
  | Element t attrs cs =>
      match cs with
      | [] => "<" +:+ t +:+ attributesXML attrs +:+ "/>"
      | _ =>
          "<" +:+ t +:+ attributesXML attrs +:+ ">"
            +:+ String.concat EmptyString (map outerXML cs) +:+ "</" +:+ t +:+ ">"
      end
  end.

Definition innerXML (n : Node) : string :=
  String.concat EmptyString (map outerXML (childNodesOf n)).

Definition getXMLContent (element : option Path) (e : Node) : string :=
  match element ≫= (fun p => nodeAt p e) with
  | Some n => innerXML n
  | None => EmptyString
  end.

Definition textData (n : Node) : string :=
  match n with
  | TextNode data => data
  | Element _ _ _ => EmptyString
  end.

Definition pcdataOf (n : Node) : string :=
  String.concat EmptyString (map textData (childNodesOf n)).

Definition getPCDATA (element : Path) (e : Node) : string :=
  match nodeAt element e with
  | Some n => pcdataOf n
  | None => EmptyString
  end.

Definition markup (content : string) : list Node :=
  match content with
  | EmptyString => []
  | String _ _ => [TextNode content]
  end.

Definition replaceContentWithXMLContent (element : Path) (content : string)
  : DOM unit :=
  modify (updateAt element (withChildNodes (markup content))).

Definition createFollowingSibling (name : string)
  (previousSibling : option Path) : DOM Path :=
  match previousSibling ≫= parentAndIndex with
  | Some (q, i) =>
      modify (updateAt q (insertChild (S i) (Element name [] []))) ;;
      ret (q ++ [S i])
  | None => throw TypeError
  end.

(** ** What the classes share *)

(** The part of [ITranslationMessagesFile] that a unit reads. *)
Record ITranslationMessagesFile : Type := {
  getNewTransUnitTargetPraefix : string;
  getNewTransUnitTargetSuffix : string
}.

(** [INote].  [from] is [None] where the JavaScript value is [null]. *)
Record INote : Type := {
  from : option string;
  text : string
}.

(** A falsy string: [null] or the empty string. *)
Definition truthy (s : option string) : option string :=
  match s with
  | Some EmptyString => None
  | other => other
  end.

(** How a note reads once it is stored. *)
Definition storedNote (note : INote) : INote :=
  {| from := truthy (from note); text := text note |}.

Definition isReservedOrigin (note : INote) : bool :=
  match from note with
  | Some s => String.eqb s "description" || String.eqb s "meaning"
  | None => false
  end.

(** Modelled from the spec: [AbstractTransUnit.checkNotes], the check both
    [setNotes] call first.  By the spec a note whose origin is one of the
    reserved keys [description] and [meaning] makes [setNotes] fail; the doc
    comment of [XliffTransUnit.setNotes] says the same. *)
Definition checkNotes (newNotes : list INote) : DOM unit :=
  if existsb isReservedOrigin newNotes
  then throw (Error "description or meaning are not allowed as from attribute")
  else ret tt.

(** Whether an element has the tag and carries [value] in the attribute. *)
Definition hasAttributeValue (name value : string) (e : Node) (p : Path)
  : bool :=
  match getAttribute p name e with
  | Some v => String.eqb v value
  | None => false
  end.

(** The additional notes: neither [description] nor [meaning]. *)
Definition isAdditional (name : string) (e : Node) (p : Path) : bool :=
  negb (hasAttributeValue name "description" e p)
  && negb (hasAttributeValue name "meaning" e p).

(** ** [XliffTransUnit]: a unit of XLIFF 1.2 *)

Module XliffTransUnit.

Definition sourceContent (e : Node) : string :=
  getXMLContent (getFirstElementByTagName "source" e) e.

Definition targetContent (e : Node) : string :=
  getXMLContent (getFirstElementByTagName "target" e) e.

Definition nativeTargetState (e : Node) : option string :=
  match getFirstElementByTagName "target" e with
  | Some targetElement => getAttribute targetElement "state" e
  | None => None
  end.

Definition setNativeTargetState (nativeState : string) : DOM unit :=
  targetElement <- gets (getFirstElementByTagName "target") ;;
  match targetElement with
  | Some t => setAttribute t "state" nativeState
  | None => ret tt
  end.

Definition mapStateToNativeState (state : string) : Result string :=
  XliffState.mapStateToNativeState state.

Definition mapNativeStateToState (nativeState : option string) : string :=
  XliffState.mapNativeStateToState nativeState.

(** Modelled from the spec: [AbstractTransUnit.targetState], the abstract
    state read back from the token stored in the fragment. *)
Definition targetState (e : Node) : string :=
  mapNativeStateToState (nativeTargetState e).

(** Modelled from the spec: [AbstractTransUnit.setTargetState], which stores
    the token of the abstract state through [setNativeTargetState]. *)
Definition setTargetState (state : string) : DOM unit :=
  nativeState <- liftResult (mapStateToNativeState state) ;;
  setNativeTargetState nativeState.

Definition findNoteElementWithFromAttribute (attrValue : string) (e : Node)
  : option Path :=
  head (filter (fun p => hasAttributeValue "from" attrValue e p = true)
          (getElementsByTagName "note" e)).

Definition findAllAdditionalNoteElements (e : Node) : list Path :=
  filter (fun p => isAdditional "from" e p = true)
    (getElementsByTagName "note" e).

Definition createNoteElementWithFromAttribute (fromAttrValue : option string)
  (content : string) : DOM Path :=
  let attrs :=
    match truthy fromAttrValue with
    | Some v => [("from", v)]
    | None => []
    end in
  appendChild []
    (Element "note" (storeAttribute "priority" "1" attrs) (markup content)).

(** [this._element.removeChild(noteElement)] for each collected element, in
    the order collected.  Only a child of [_element] can be removed that
    way.  [removed] counts the children already taken out, which moved the
    later ones up. *)
Fixpoint removeChildren (removed : nat) (noteElements : list Path)
  : DOM unit :=
  match noteElements with
  | [] => ret tt
  | [i] :: rest =>
      modify (fun n => withChildNodes (delete (i - removed) (childNodesOf n)) n) ;;
      removeChildren (S removed) rest
  | _ :: _ => throw NotFoundError
  end.

Definition removeAllAdditionalNoteElements : DOM unit :=
  noteElements <- gets findAllAdditionalNoteElements ;;
  removeChildren 0 noteElements.

Definition description (e : Node) : option string :=
  match findNoteElementWithFromAttribute "description" e with
  | Some noteElem => Some (getPCDATA noteElem e)
  | None => None
  end.

Definition meaning (e : Node) : option string :=
  match findNoteElementWithFromAttribute "meaning" e with
  | Some noteElem => Some (getPCDATA noteElem e)
  | None => None
  end.

Definition notes (e : Node) : list INote :=
  map (fun elem => {| from := getAttribute elem "from" e;
                      text := getPCDATA elem e |})
    (findAllAdditionalNoteElements e).

(** [newNotes] is [None] for [null] or [undefined]. *)
Definition setNotes (newNotes : option (list INote)) : DOM unit :=
  match newNotes with Some l => checkNotes l | None => ret tt end ;;
  removeAllAdditionalNoteElements ;;
  match newNotes with
  | Some l =>
      forEach l (fun note =>
        createNoteElementWithFromAttribute (from note) (text note) ;; ret tt)
  | None => ret tt
  end.

(** [setSourceContent].  A unit without a [source] gets one, appended to
    the unit's own element. *)
Definition setSourceContent (newContent : string) : DOM unit :=
  source0 <- gets (getFirstElementByTagName "source") ;;
  source <- match source0 with
            | Some s => ret s
            | None => appendChild [] (Element "source" [] [])
            end ;;
  replaceContentWithXMLContent source newContent.

(** [this._element.removeChild(noteElement)] on the first note with the
    given origin. *)
Definition removeNoteElementWithFromAttribute (attrValue : string)
  : DOM unit :=
  noteElement <- gets (findNoteElementWithFromAttribute attrValue) ;;
  match noteElement with
  | Some p => removeChildren 0 [p]
  | None => ret tt
  end.

(** [description] is [None] for [null] or [undefined]; the empty string is
    falsy as well. *)
Definition setDescription (description : option string) : DOM unit :=
  noteElem <- gets (findNoteElementWithFromAttribute "description") ;;
  match truthy description with
  | Some d =>
      match noteElem with
      | None =>
          createNoteElementWithFromAttribute (Some "description") d ;; ret tt
      | Some p => replaceContentWithXMLContent p d
      end
  | None =>
      match noteElem with
      | Some _ => removeNoteElementWithFromAttribute "description"
      | None => ret tt
      end
  end.

Definition setMeaning (meaning : option string) : DOM unit :=
  noteElem <- gets (findNoteElementWithFromAttribute "meaning") ;;
  match truthy meaning with
  | Some m =>
      match noteElem with
      | None => createNoteElementWithFromAttribute (Some "meaning") m ;; ret tt
      | Some p => replaceContentWithXMLContent p m
      end
  | None =>
      match noteElem with
      | Some _ => removeNoteElementWithFromAttribute "meaning"
      | None => ret tt
      end
  end.

Section Unit.
(** [AbstractTransUnit.isICUMessage], the detector of the message parser, and
    the file the unit belongs to. *)
Variable isICUMessage : string -> bool.
Variable translationMessagesFile : ITranslationMessagesFile.

Definition translateNative (translation : string) : DOM unit :=
  target0 <- gets (getFirstElementByTagName "target") ;;
  target <- match target0 with
            | Some t => ret t
            | None =>
                source <- gets (getFirstElementByTagName "source") ;;
                createFollowingSibling "target" source
            end ;;
  replaceContentWithXMLContent target translation ;;
  setTargetState STATE_TRANSLATED.

Definition useSourceAsTarget (isDefaultLang copyContent : bool) : DOM unit :=
  source <- gets (getFirstElementByTagName "source") ;;
  target0 <- gets (getFirstElementByTagName "target") ;;
  target <- match target0 with
            | Some t => ret t
            | None => createFollowingSibling "target" source
            end ;;
  (if isDefaultLang || copyContent then
     sourceString <- gets (getXMLContent source) ;;
     let newTargetString :=
       if negb (isICUMessage sourceString) then
         getNewTransUnitTargetPraefix translationMessagesFile
           +:+ sourceString
           +:+ getNewTransUnitTargetSuffix translationMessagesFile
       else sourceString in
     replaceContentWithXMLContent target newTargetString
   else replaceContentWithXMLContent target EmptyString) ;;
  if isDefaultLang then
    nativeState <- liftResult (mapStateToNativeState STATE_FINAL) ;;
    setAttribute target "state" nativeState
  else
    nativeState <- liftResult (mapStateToNativeState STATE_NEW) ;;
    setAttribute target "state" nativeState.

End Unit.
End XliffTransUnit.

(** ** [Xliff2TransUnit]: a unit of XLIFF 2.0 *)

(** A JavaScript number as far as line numbers need it: an integer, or
    [None] for [NaN]. *)
Abbreviation number := (option Z).

Record SourceReference : Type := {
  sourcefile : string;
  linenumber : number
}.

(** [n.toString(10)]. *)
Definition numberToString (n : number) : string :=
  match n with
  | Some z => NilEmpty.string_of_int (Z.to_int z)
  | None => "NaN"
  end.

(** [s.lastIndexOf(c)], [None] where JavaScript gives [-1]. *)
Fixpoint lastIndexOf (c : Ascii.ascii) (s : string) : option nat :=
  match s with
  | EmptyString => None
  | String a s' =>
      match lastIndexOf c s' with
      | Some i => Some (S i)
      | None => if Ascii.eqb a c then Some 0 else None
      end
  end.

(** ** Source references of XLIFF 1.2

    [XliffTransUnit.sourceReferences], [setSourceReferences] and
    [removeAllSourceReferences]: a reference is a [context-group] of purpose
    [location] with a [context] for the file and one for the line. *)

Section XliffSourceReferences.
(** [Number.parseInt(s, 10)] of the JavaScript runtime. *)
Variable parseInt : string -> number.

(** The loop over the [context] elements of one group.  [sourcefile] starts
    as [null] and [linenumber] as [0]; a later [context] of the same type
    overwrites an earlier one. *)
Definition readContexts (e : Node) (contextElements : list Path)
  : option string * number :=
  fold_left
    (fun found contextElem =>
       let sourcefile1 :=
         if hasAttributeValue "context-type" "sourcefile" e contextElem
         then Some (getPCDATA contextElem e) else fst found in
       let linenumber1 :=
         if hasAttributeValue "context-type" "linenumber" e contextElem
         then parseInt (getPCDATA contextElem e) else snd found in
       (sourcefile1, linenumber1))
    contextElements (None, Some 0%Z).

(** [elem.getElementsByTagName(tagName)] for an element below the unit. *)
Definition elementsBelow (tagName : string) (elem : Path) (e : Node)
  : list Path :=
  match nodeAt elem e with
  | Some n => map (app elem) (getElementsByTagName tagName n)
  | None => []
  end.

(** The file is [None] where the method leaves it [null]. *)
Definition XliffTransUnit_sourceReferences (e : Node)
  : list (option string * number) :=
  map (fun elem => readContexts e (elementsBelow "context" elem e))
    (filter (fun p => hasAttributeValue "purpose" "location" e p = true)
       (getElementsByTagName "context-group" e)).
End XliffSourceReferences.

(** [elem.parentNode.removeChild(elem)] for each collected element; as in
    [Xliff2TransUnit.removeEach] the last one goes first. *)
Definition XliffTransUnit_removeAllSourceReferences : DOM unit :=
  toBeRemoved <-
    gets (fun e =>
      filter (fun p => hasAttributeValue "purpose" "location" e p = true)
        (getElementsByTagName "context-group" e)) ;;
  forEach (reverse toBeRemoved) removeNode.

(** The [context-group] built for a reference. *)
Definition contextGroup (ref : SourceReference) : Node :=
  Element "context-group" [("purpose", "location")]
    [Element "context" [("context-type", "sourcefile")]
       [TextNode (sourcefile ref)];
     Element "context" [("context-type", "linenumber")]
       [TextNode (numberToString (linenumber ref))]].

Definition XliffTransUnit_setSourceReferences
  (sourceRefs : list SourceReference) : DOM unit :=
  XliffTransUnit_removeAllSourceReferences ;;
  forEach sourceRefs (fun ref => appendChild [] (contextGroup ref) ;; ret tt).

Module Xliff2TransUnit.

Definition sourceContent (e : Node) : string :=
  getXMLContent (getFirstElementByTagName "source" e) e.

Definition targetContent (e : Node) : string :=
  getXMLContent (getFirstElementByTagName "target" e) e.

Definition nativeTargetState (e : Node) : option string :=
  match getFirstElementByTagName "segment" e with
  | Some segmentElement => getAttribute segmentElement "state" e
  | None => None
  end.

Definition setNativeTargetState (nativeState : string) : DOM unit :=
  segmentElement <- gets (getFirstElementByTagName "segment") ;;
  match segmentElement with
  | Some s => setAttribute s "state" nativeState
  | None => ret tt
  end.

Definition mapStateToNativeState (state : string) : Result string :=
  Xliff2State.mapStateToNativeState state.

Definition mapNativeStateToState (nativeState : option string) : string :=
  Xliff2State.mapNativeStateToState nativeState.

(** Modelled from the spec: [AbstractTransUnit.targetState], the abstract
    state read back from the token stored in the fragment. *)
Definition targetState (e : Node) : string :=
  mapNativeStateToState (nativeTargetState e).

(** Modelled from the spec: [AbstractTransUnit.setTargetState], which stores
    the token of the abstract state through [setNativeTargetState]. *)
Definition setTargetState (state : string) : DOM unit :=
  nativeState <- liftResult (mapStateToNativeState state) ;;
  setNativeTargetState nativeState.

Section SourceReferences.
(** [Number.parseInt(s, 10)] of the JavaScript runtime. *)
Variable parseInt : string -> number.

Definition parseLineNumber (lineNumberString : string) : number :=
  parseInt lineNumberString.

Definition parseSourceAndPos (sourceAndPos : string) : SourceReference :=
  match lastIndexOf ":"%char sourceAndPos with
  | None => {| sourcefile := sourceAndPos; linenumber := Some 0%Z |}
  | Some index =>
      {| sourcefile := String.substring 0 index sourceAndPos;
         linenumber :=
           parseLineNumber
             (String.substring (index + 1)
                (String.length sourceAndPos - (index + 1)) sourceAndPos) |}
  end.

Definition sourceReferences (e : Node) : list SourceReference :=
  map (fun noteElem => parseSourceAndPos (getPCDATA noteElem e))
    (filter (fun p => hasAttributeValue "category" "location" e p = true)
       (getElementsByTagName "note" e)).
End SourceReferences.

(** [elem.parentNode.removeChild(elem)] for each collected element.  The DOM
    takes them out by identity; here the last one goes first, which leaves
    the references to the ones still to go in place. *)
Definition removeEach (toBeRemoved : list Path) : DOM unit :=
  forEach (reverse toBeRemoved) removeNode.

Definition removeAllSourceReferences : DOM unit :=
  toBeRemoved <-
    gets (fun e =>
      filter (fun p => hasAttributeValue "category" "location" e p = true)
        (getElementsByTagName "note" e)) ;;
  removeEach toBeRemoved.

Definition setSourceReferences (sourceRefs : list SourceReference)
  : DOM unit :=
  removeAllSourceReferences ;;
  notesElement0 <- gets (getFirstElementByTagName "notes") ;;
  childCount <-
    gets (fun e =>
      match notesElement0 ≫= (fun p => nodeAt p e) with
      | Some n => length (childNodesOf n)
      | None => 0
      end) ;;
  match sourceRefs, notesElement0, childCount with
  | [], Some notesElement, 0 => removeNode notesElement
  | _, _, _ =>
      notesElement <-
        match notesElement0 with
        | Some p => ret p
        | None =>
            modify (insertChild 0 (Element "notes" [] [])) ;;
            ret [0]
        end ;;
      forEach sourceRefs (fun ref =>
        appendChild notesElement
          (Element "note" [("category", "location")]
             [TextNode (sourcefile ref +:+ ":" +:+ numberToString (linenumber ref))]) ;;
        ret tt)
  end.

Definition findNoteElementWithCategoryAttribute (attrValue : string)
  (e : Node) : option Path :=
  head (filter (fun p => hasAttributeValue "category" attrValue e p = true)
          (getElementsByTagName "note" e)).

Definition findAllAdditionalNoteElements (e : Node) : list Path :=
  filter (fun p => isAdditional "category" e p = true)
    (getElementsByTagName "note" e).

Definition createNoteElementWithCategoryAttribute (attrValue : option string)
  (content : string) : DOM Path :=
  notesElement0 <- gets (getFirstElementByTagName "notes") ;;
  notesElement <- match notesElement0 with
                  | Some p => ret p
                  | None => appendChild [] (Element "notes" [] [])
                  end ;;
  let attrs :=
    match truthy attrValue with
    | Some v => [("category", v)]
    | None => []
    end in
  appendChild notesElement (Element "note" attrs (markup content)).

Definition removeNotesElementIfEmpty : DOM unit :=
  notesElement <- gets (getFirstElementByTagName "notes") ;;
  match notesElement with
  | Some p =>
      childNote <- gets (getFirstElementByTagName "note") ;;
      match childNote with
      | None => removeNode p
      | Some _ => ret tt
      end
  | None => ret tt
  end.

Definition removeAllAdditionalNoteElements : DOM unit :=
  noteElements <- gets findAllAdditionalNoteElements ;;
  removeEach noteElements ;;
  removeNotesElementIfEmpty.

Definition description (e : Node) : option string :=
  match findNoteElementWithCategoryAttribute "description" e with
  | Some noteElem => Some (getPCDATA noteElem e)
  | None => None
  end.

Definition meaning (e : Node) : option string :=
  match findNoteElementWithCategoryAttribute "meaning" e with
  | Some noteElem => Some (getPCDATA noteElem e)
  | None => None
  end.

Definition notes (e : Node) : list INote :=
  map (fun elem => {| from := getAttribute elem "category" e;
                      text := getPCDATA elem e |})
    (findAllAdditionalNoteElements e).

(** [newNotes] is [None] for [null] or [undefined]. *)
Definition setNotes (newNotes : option (list INote)) : DOM unit :=
  match newNotes with Some l => checkNotes l | None => ret tt end ;;
  removeAllAdditionalNoteElements ;;
  match newNotes with
  | Some l =>
      forEach l (fun note =>
        createNoteElementWithCategoryAttribute (from note) (text note) ;;
        ret tt)
  | None => ret tt
  end.

(** [source.parentNode.appendChild(createElement('target'))]. *)
Definition appendToParentOf (source : option Path) (child : Node)
  : DOM Path :=
  match source ≫= parentAndIndex with
  | Some (q, _) => appendChild q child
  | None => throw TypeError
  end.

(** [setSourceContent].  A unit without a [source] gets one, appended to
    the parent of its first [segment]. *)
Definition setSourceContent (newContent : string) : DOM unit :=
  source0 <- gets (getFirstElementByTagName "source") ;;
  source <- match source0 with
            | Some s => ret s
            | None =>
                segment <- gets (getFirstElementByTagName "segment") ;;
                appendToParentOf segment (Element "source" [] [])
            end ;;
  replaceContentWithXMLContent source newContent.

Definition removeNoteElementWithCategoryAttribute (attrValue : string)
  : DOM unit :=
  noteElement <- gets (findNoteElementWithCategoryAttribute attrValue) ;;
  match noteElement with
  | Some p => removeNode p
  | None => ret tt
  end ;;
  removeNotesElementIfEmpty.

Definition setDescription (description : option string) : DOM unit :=
  noteElem <- gets (findNoteElementWithCategoryAttribute "description") ;;
  match truthy description with
  | Some d =>
      match noteElem with
      | None =>
          createNoteElementWithCategoryAttribute (Some "description") d ;;
          ret tt
      | Some p => replaceContentWithXMLContent p d
      end
  | None =>
      match noteElem with
      | Some _ => removeNoteElementWithCategoryAttribute "description"
      | None => ret tt
      end
  end.

Definition setMeaning (meaning : option string) : DOM unit :=
  noteElem <- gets (findNoteElementWithCategoryAttribute "meaning") ;;
  match truthy meaning with
  | Some m =>
      match noteElem with
      | None =>
          createNoteElementWithCategoryAttribute (Some "meaning") m ;; ret tt
      | Some p => replaceContentWithXMLContent p m
      end
  | None =>
      match noteElem with
      | Some _ => removeNoteElementWithCategoryAttribute "meaning"
      | None => ret tt
      end
  end.

Section Unit.
Variable isICUMessage : string -> bool.
Variable translationMessagesFile : ITranslationMessagesFile.

Definition translateNative (translation : string) : DOM unit :=
  target0 <- gets (getFirstElementByTagName "target") ;;
  target <- match target0 with
            | Some t => ret t
            | None =>
                source <- gets (getFirstElementByTagName "source") ;;
                appendToParentOf source (Element "target" [] [])
            end ;;
  replaceContentWithXMLContent target translation ;;
  setTargetState STATE_TRANSLATED.

Definition useSourceAsTarget (isDefaultLang copyContent : bool) : DOM unit :=
  source <- gets (getFirstElementByTagName "source") ;;
  target0 <- gets (getFirstElementByTagName "target") ;;
  target <- match target0 with
            | Some t => ret t
            | None => appendToParentOf source (Element "target" [] [])
            end ;;
  (if isDefaultLang || copyContent then
     sourceString <- gets (getXMLContent source) ;;
     let newTargetString :=
       if negb (isICUMessage sourceString) then
         getNewTransUnitTargetPraefix translationMessagesFile
           +:+ sourceString
           +:+ getNewTransUnitTargetSuffix translationMessagesFile
       else sourceString in
     replaceContentWithXMLContent target newTargetString
   else replaceContentWithXMLContent target EmptyString) ;;
  segment <- gets (getFirstElementByTagName "segment") ;;
  match segment with
  | Some s =>
      if isDefaultLang then
        nativeState <- liftResult (mapStateToNativeState STATE_FINAL) ;;
        setAttribute s "state" nativeState
      else
        nativeState <- liftResult (mapStateToNativeState STATE_NEW) ;;
        setAttribute s "state" nativeState
  | None => ret tt
  end.

End Unit.
End Xliff2TransUnit.

(** ** Unit objects and the documents they point into

    [cloneNode(true)] makes a second fragment; which fragment a unit object
    writes to is what [cloneWithSourceAsTarget] is about.  The fragments live
    in a store indexed by handles, and a unit object holds the handle of its
    [_element]. *)



Section Clone.
Variable useSourceAsTarget :
  ITranslationMessagesFile -> bool -> bool -> DOM unit.

End Clone.



(** ** Normalized messages and the XMB message parser

    The parser classes ([AbstractMessageParser], [XmbMessageParser],
    [ParsedMessage]) are not among the sources; their test suite
    "message parse XMB test spec" is.  The definitions of this part follow
    the spec, and the expectations of that suite are checked against them
    further down. *)

(** *** Strings *)

Fixpoint stripPrefix (p s : string) : option string :=
  match p with
  | EmptyString => Some s
  | String a p' =>
      match s with
      | String b s' => if Ascii.eqb a b then stripPrefix p' s' else None
      | EmptyString => None
      end
  end.

(** [s.startsWith(p)]. *)
Definition startsWith (p s : string) : bool :=
  match stripPrefix p s with
  | Some _ => true
  | None => false
  end.

Fixpoint span (f : ascii -> bool) (s : string) : string * string :=
  match s with
  | EmptyString => (EmptyString, EmptyString)
  | String c s' =>
      if f c then (String c (fst (span f s')), snd (span f s'))
      else (EmptyString, s)
  end.

(** The string without its last character, and that character. *)
Fixpoint splitLast (s : string) : option (string * ascii) :=
  match s with
  | EmptyString => None
  | String c s' =>
      match splitLast s' with
      | Some (init, l) => Some (String c init, l)
      | None => Some (EmptyString, c)
      end
  end.

Definition between (lo hi : nat) (c : ascii) : bool :=
  Nat.leb lo (nat_of_ascii c) && Nat.leb (nat_of_ascii c) hi.

Definition isDigit (c : ascii) : bool := between 48 57 c.

Definition isNameChar (c : ascii) : bool :=
  between 97 122 c || between 65 90 c || between 48 57 c
  || Ascii.eqb c "-" || Ascii.eqb c "_".

Fixpoint toUpperCase (s : string) : string :=
  match s with
  | EmptyString => EmptyString
  | String c s' =>
      String
        (if between 97 122 c then ascii_of_nat (nat_of_ascii c - 32) else c)
        (toUpperCase s')
  end.

Definition decimal (n : nat) : string := NilEmpty.string_of_uint (Nat.to_uint n).

Definition parseDecimal (digits : string) : option nat :=
  match digits with
  | EmptyString => None
  | String _ _ => Nat.of_uint <$> NilEmpty.uint_of_string digits
  end.

Module XmbMessageParser.

(** Modelled from the spec: the parts of a Normalized Message (section 3 of
    the spec; class [ParsedMessage] and its part classes are missing). *)
Inductive Part : Type :=
| Text (text : string)
| Placeholder (index : nat)
| TagStart (name : string)
| TagEnd (name : string)
| TagEmpty (name : string)
| IcuRef (index : nat).



(** The tag stack of section 4.2: a close has to name the tag opened last,
    and no tag may stay open. *)
Fixpoint checkNesting (openTags : list string) (parts : list Part)
  : Result unit :=
  match parts with
  | [] =>
      match openTags with
      | [] => Return tt
      | t :: _ => Throw (Error ("unterminated tag " +:+ t))
      end
  | TagStart name :: rest => checkNesting (name :: openTags) rest
  | TagEnd name :: rest =>
      match openTags with
      | t :: others =>
          if String.eqb t name then checkNesting others rest
          else Throw (Error ("unexpected close tag " +:+ name))
      | [] => Throw (Error ("unexpected close tag " +:+ name))
      end
  | _ :: rest => checkNesting openTags rest
  end.

Section Display.
(** The known-empty set of the display grammar (it holds [br]). *)
Variable emptyTags : list string.

(** The marker a string starts with, and how many characters it takes. *)
Definition matchMarker (s : string) : option (Part * nat) :=
  match stripPrefix "{{" s with
  | Some r =>
      let (d, r') := span isDigit r in
      match parseDecimal d, stripPrefix "}}" r' with
      | Some n, Some _ => Some (Placeholder n, 4 + String.length d)
      | _, _ => None
      end
  | None =>
  match stripPrefix "<ICU-Message-Ref_" s with
  | Some r =>
      let (d, r') := span isDigit r in
      match parseDecimal d, stripPrefix "/>" r' with
      | Some n, Some _ => Some (IcuRef n, 19 + String.length d)
      | _, _ => None
      end
  | None =>
  match stripPrefix "</" s with
  | Some r =>
      let (name, r') := span isNameChar r in
      match name, stripPrefix ">" r' with
      | String _ _, Some _ => Some (TagEnd name, 3 + String.length name)
      | _, _ => None
      end
  | None =>
  match stripPrefix "<" s with
  | Some r =>
      let (name, r') := span isNameChar r in
      match name, stripPrefix ">" r' with
      | String _ _, Some _ =>
          Some (if existsb (String.eqb name) emptyTags
                then TagEmpty name else TagStart name,
                2 + String.length name)
      | _, _ => None
      end
  | None => None
  end end end end.

Definition flush (pending : string) : list Part :=
  match pending with
  | EmptyString => []
  | String _ _ => [Text pending]
  end.

(** Left to right: a marker where one starts, text otherwise.  [skip] is the
    number of characters still belonging to the marker just read. *)
Fixpoint tokenize (skip : nat) (pending : string) (s : string) : list Part :=
  match s with
  | EmptyString => flush pending
  | String c s' =>
      match skip with
      | S k => tokenize k pending s'
      | O =>
          match matchMarker s with
          | Some (part, len) =>
              flush pending ++ part :: tokenize (len - 1) EmptyString s'
          | None => tokenize 0 (pending +:+ String c EmptyString) s'
          end
      end
  end.

(** Modelled from the spec: [AbstractMessageParser.parseNormalizedString],
    the reading of a display string by the grammar of section 6. *)
Definition parseNormalizedString (normalizedString : string)
  : Result (list Part) :=
  let parts := tokenize 0 EmptyString normalizedString in
  match checkNesting [] parts with
  | Return _ => Return parts
  | Throw x => Throw x
  end.
End Display.




(** Modelled from the spec: [symbolicNameFor] of section 4.2, a fixed table
    with the fallback [TAG_X] for an unknown tag [x].  The entries are the
    ones the spec and the test suite name. *)
Definition tagMapping : list (string * string) :=
  [("b", "BOLD_TEXT"); ("i", "ITALIC_TEXT"); ("br", "LINE_BREAK");
   ("a", "LINK")].

Definition symbolicNameFor (tagName : string) : string :=
  match lookupAttribute tagName tagMapping with
  | Some name => name
  | None => "TAG_" +:+ toUpperCase tagName
  end.

(** The numbering rule: the bare name for number 0, the suffix [_n]
    after that. *)
Definition numbered (base : string) (n : nat) : string :=
  match n with
  | O => base
  | S _ => base +:+ "_" +:+ decimal n
  end.

Definition indexFromName (base name : string) : option nat :=
  if String.eqb name base then Some 0
  else stripPrefix (base +:+ "_") name ≫= parseDecimal.

(** A [ph] element with its name and the text of its [ex] child. *)
Definition ph (name payload : string) : Node :=
  Element "ph" [("name", name)] [Element "ex" [] [TextNode payload]].

(** Modelled from the spec: [emitMarker] and the serialize direction of
    section 4.2 for the XMB dialect ([ParsedMessage.asNativeString]).  A tag
    marker gets the number of earlier occurrences of its tag.  An
    interpolation or ICU marker gets its index: the test "should parse text
    with 2 placeholders" has [{{1}}] written as [INTERPOLATION_1] ahead of
    [{{0}}] as [INTERPOLATION]. *)
Fixpoint emit (counters : gmap string nat) (openTags : list string)
  (parts : list Part) : Result (list Node) :=
  match parts with
  | [] =>
      match openTags with
      | [] => Return []
      | t :: _ => Throw (Error ("unterminated tag " +:+ t))
      end
  | part :: rest =>
      let continue (node : Node) (counters' : gmap string nat)
        (openTags' : list string) : Result (list Node) :=
        match emit counters' openTags' rest with
        | Return nodes => Return (node :: nodes)
        | Throw x => Throw x
        end in
      match part with
      | Text t => continue (TextNode t) counters openTags
      | Placeholder n =>
          continue (ph (numbered "INTERPOLATION" n) (numbered "INTERPOLATION" n))
            counters openTags
      | IcuRef n => continue (ph (numbered "ICU" n) "ICU") counters openTags
      | TagStart name =>
          let k := default 0 (counters !! name) in
          continue
            (ph (numbered ("START_" +:+ symbolicNameFor name) k)
               ("&lt;" +:+ name +:+ ">"))
            (<[name := S k]> counters) (name :: openTags)
      | TagEnd name =>
          match openTags with
          | t :: others =>
              if String.eqb t name then
                continue
                  (ph ("CLOSE_" +:+ symbolicNameFor name)
                     ("&lt;/" +:+ name +:+ ">"))
                  counters others
              else Throw (Error ("unexpected close tag " +:+ name))
          | [] => Throw (Error ("unexpected close tag " +:+ name))
          end
      | TagEmpty name =>
          let k := default 0 (counters !! name) in
          continue
            (ph (numbered (symbolicNameFor name) k) ("&lt;" +:+ name +:+ ">"))
            (<[name := S k]> counters) openTags
      end
  end.

Definition nativeNodes (parts : list Part) : Result (list Node) :=
  emit ∅ [] parts.

Definition asNativeString (parts : list Part) : Result string :=
  match nativeNodes parts with
  | Return nodes => Return (String.concat EmptyString (map outerXML nodes))
  | Throw x => Throw x
  end.

(** Modelled from the spec: [recognizePlaceholderElement] of section 4.2 for
    the XMB dialect. *)
Inductive MarkerKind : Type := Start | End | Empty.

Inductive Marker : Type :=
| Interpolation (index : nat)
| IcuMessageRef (index : nat)
| TagMarker (kind : MarkerKind) (logicalName : string)
| NotAMarker.

(** The tag name in a payload [&lt;name>] or [&lt;/name>]. *)
Definition tagNameFromPayload (opening payload : string) : option string :=
  match stripPrefix opening payload ≫= splitLast with
  | Some (name, l) => if Ascii.eqb l ">" then Some name else None
  | None => None
  end.

Definition recognizePlaceholderElement (node : Node) : Marker :=
  match node with
  | TextNode _ => NotAMarker
  | Element tagName attrs _ =>
      match (if String.eqb tagName "ph" then lookupAttribute "name" attrs
             else None) with
      | None => NotAMarker
      | Some name =>
          let payload :=
            match getFirstElementByTagName "ex" node with
            | Some ex => getPCDATA ex node
            | None => EmptyString
            end in
          if startsWith "START_" name then
            match tagNameFromPayload "&lt;" payload with
            | Some tag => TagMarker Start tag
            | None => NotAMarker
            end
          else if startsWith "CLOSE_" name then
            match tagNameFromPayload "&lt;/" payload with
            | Some tag => TagMarker End tag
            | None => NotAMarker
            end
          else
            match indexFromName "INTERPOLATION" name with
            | Some n => Interpolation n
            | None =>
                match indexFromName "ICU" name with
                | Some n => IcuMessageRef n
                | None =>
                    match tagNameFromPayload "&lt;" payload with
                    | Some tag => TagMarker Empty tag
                    | None => NotAMarker
                    end
                end
            end
      end
  end.

(** Modelled from the spec: the parse direction of section 4.2.  The
    children are walked in document order with the stack of open tags; the
    result is the parts read and the tags still open. *)
Fixpoint walk (openTags : list string) (children : list Node)
  : Result (list Part * list string) :=
  match children with
  | [] => Return ([], openTags)
  | child :: rest =>
      let continue (part : Part) (openTags' : list string)
        : Result (list Part * list string) :=
        match walk openTags' rest with
        | Return (parts, stillOpen) => Return (part :: parts, stillOpen)
        | Throw x => Throw x
        end in
      match child with
      | TextNode data => continue (Text data) openTags
      | Element _ _ _ =>
          match recognizePlaceholderElement child with
          | Interpolation n => continue (Placeholder n) openTags
          | IcuMessageRef n => continue (IcuRef n) openTags
          | TagMarker Start name => continue (TagStart name) (name :: openTags)
          | TagMarker End name =>
              match openTags with
              | t :: others =>
                  if String.eqb t name then continue (TagEnd name) others
                  else Throw (Error ("unexpected close tag " +:+ name))
              | [] => Throw (Error ("unexpected close tag " +:+ name))
              end
          | TagMarker Empty name => continue (TagEmpty name) openTags
          | NotAMarker => walk openTags rest
          end
      end
  end.

(** Modelled from the spec:
    [AbstractMessageParser.createNormalizedMessageFromXML] without a source
    message.  A tag left open after the last child is an error as well. *)
Definition createNormalizedMessageFromXML (element : Node)
  : Result (list Part) :=
  match walk [] (childNodesOf element) with
  | Return (parts, []) => Return parts
  | Return (_, t :: _) => Throw (Error ("unterminated tag " +:+ t))
  | Throw x => Throw x
  end.

End XmbMessageParser.

(** ** Units as the two formats lay them out

    The conditions under which the statements below are made; each is a
    check that can be run on a fragment. *)

(** The unit has a [source] element. *)
Definition hasSource (e : Node) : bool :=
  match getFirstElementByTagName "source" e with
  | Some _ => true
  | None => false
  end.

(** XLIFF 2.0 keeps the state on the [segment] element: the unit has one,
    and it is not inside the target. *)
Definition segmentOutsideTarget (e : Node) : bool :=
  match getFirstElementByTagName "segment" e,
        getFirstElementByTagName "target" e with
  | Some qs, Some pt => negb (bool_decide (pt `prefix_of` qs))
  | Some _, None => true
  | None, _ => false
  end.

Definition noElementBelow (t : string) (c : Node) : bool :=
  bool_decide (getElementsByTagName t c = []).

Definition noElementAt (t : string) (c : Node) : bool :=
  bool_decide (elementsFrom t c = []).

(** XLIFF 1.2: the [note] elements of a unit are children of the unit. *)
Definition notesAreChildren (e : Node) : bool :=
  match e with
  | Element _ _ cs => forallb (noElementBelow "note") cs
  | TextNode _ => false
  end.

(** XLIFF 2.0: the [note] elements of a unit are children of its one
    [notes] element, which is a child of the unit. *)
Definition plainNode (c : Node) : bool :=
  noElementAt "note" c && noElementAt "notes" c.

Definition plainNoteChild (c : Node) : bool :=
  noElementBelow "note" c && noElementAt "notes" c.

Fixpoint notesInContainer (cs : list Node) : bool :=
  match cs with
  | [] => true
  | c :: rest =>
      match c with
      | Element tg _ ns =>
          if String.eqb tg "notes"
          then forallb plainNoteChild ns && forallb plainNode rest
          else plainNode c && notesInContainer rest
      | TextNode _ => notesInContainer rest
      end
  end.

Definition notesAreInNotesElement (e : Node) : bool :=
  match e with
  | Element _ _ cs => notesInContainer cs
  | TextNode _ => false
  end.

Definition hasTag (t : string) (c : Node) : bool :=
  match c with
  | Element tg _ _ => String.eqb tg t
  | TextNode _ => false
  end.

(** XLIFF 1.2: the [context-group] elements of a unit are children of the
    unit. *)
Definition groupsAreChildren (e : Node) : bool :=
  match e with
  | Element _ _ cs => forallb (noElementBelow "context-group") cs
  | TextNode _ => false
  end.

(** A [context-group] that is a source reference. *)
Definition isLocationGroup (c : Node) : bool :=
  hasTag "context-group" c
  && match attributeOf "purpose" c with
     | Some v => String.eqb v "location"
     | None => false
     end.

(** Source and target of a unit are apart: the unit has a source, and where
    it has a target neither of the two is inside the other. *)
Definition sourceApartFromTarget (e : Node) : bool :=
  match getFirstElementByTagName "source" e,
        getFirstElementByTagName "target" e with
  | Some ps, Some pt =>
      negb (bool_decide (ps `prefix_of` pt))
      && negb (bool_decide (pt `prefix_of` ps))
  | Some _, None => true
  | None, _ => false
  end.

(** XLIFF 2.0: no segment is inside the source. *)
Definition noSegmentInSource (e : Node) : bool :=
  match getFirstElementByTagName "source" e ≫= (fun ps => nodeAt ps e) with
  | Some n => noElementAt "segment" n
  | None => true
  end.

(** The target string [useSourceAsTarget] writes for a source string. *)
Definition synthesized (isICUMessage : string -> bool)
  (file : ITranslationMessagesFile) (isDefaultLang copyContent : bool)
  (sourceString : string) : string :=
  if isDefaultLang || copyContent then
    if isICUMessage sourceString then sourceString
    else getNewTransUnitTargetPraefix file +:+ sourceString
           +:+ getNewTransUnitTargetSuffix file
  else EmptyString.

(** A unit of XLIFF 2.0 after the target at [pt] got [content] and the first
    segment, if there is one, got the state [token]. *)
Definition Xliff2_written (e : Node) (pt : Path) (content token : string)
  : Node :=
  let e1 := updateAt pt (withChildNodes (markup content)) e in
  match getFirstElementByTagName "segment" e1 with
  | Some s => updateAt s (withAttribute "state" token) e1
  | None => e1
  end.

(** ** Sample units *)

Definition sampleFile : ITranslationMessagesFile :=
  {| getNewTransUnitTargetPraefix := "[[ ";
     getNewTransUnitTargetSuffix := " ]]" |}.

(** A detector that knows plural messages by their opening. *)
Definition startsPlural (message : string) : bool :=
  String.prefix "{VAR_PLURAL, plural," message.

Definition pluralMessage : string :=
  "{VAR_PLURAL, plural, =0 {none} =1 {one} other {many}}".

Definition helloUnit : Node :=
  Element "trans-unit" [("id", "greeting"); ("datatype", "html")]
    [Element "source" [] [TextNode "Hello"];
     Element "note" [("priority", "1"); ("from", "description")]
       [TextNode "a greeting"];
     Element "note" [("priority", "1"); ("from", "reviewer")]
       [TextNode "keep it short"]].

Definition pluralUnit : Node :=
  Element "trans-unit" [("id", "count"); ("datatype", "html")]
    [Element "source" [] [TextNode pluralMessage]].

Definition helloUnit2 : Node :=
  Element "unit" [("id", "greeting")]
    [Element "notes" []
       [Element "note" [("category", "description")] [TextNode "a greeting"];
        Element "note" [("category", "reviewer")] [TextNode "keep it short"];
        Element "note" [("category", "location")] [TextNode "app.html:7"]];
     Element "segment" [("state", "initial")]
       [Element "source" [] [TextNode "Hello"]]].

Definition pluralUnit2 : Node :=
  Element "unit" [("id", "count")]
    [Element "segment" []
       [Element "source" [] [TextNode pluralMessage]]].

(** A unit of XLIFF 2.0 whose source is not wrapped in a segment. *)
Definition bareUnit2 : Node :=
  Element "unit" [("id", "greeting")]
    [Element "source" [] [TextNode "Hello"]].

(** A unit of XLIFF 1.2 with a source reference. *)
Definition locatedUnit : Node :=
  Element "trans-unit" [("id", "greeting")]
    [Element "source" [] [TextNode "Hello"];
     Element "context-group" [("purpose", "location")]
       [Element "context" [("context-type", "sourcefile")]
          [TextNode "old.html"];
        Element "context" [("context-type", "linenumber")] [TextNode "3"]];
     Element "note" [("priority", "1"); ("from", "description")]
       [TextNode "a greeting"]].




(** ** Notes, seen on the elements that hold them *)

Definition isNoteElement (c : Node) : bool :=
  match c with
  | Element t _ _ => String.eqb t "note"
  | TextNode _ => false
  end.

Definition hasValue (name value : string) (c : Node) : bool :=
  match attributeOf name c with
  | Some v => String.eqb v value
  | None => false
  end.

Definition additionalNode (name : string) (c : Node) : bool :=
  negb (hasValue name "description" c) && negb (hasValue name "meaning" c).

(** The note an element stands for; [name] is the attribute with the origin,
    [from] in XLIFF 1.2 and [category] in XLIFF 2.0. *)
Definition noteOf (name : string) (c : Node) : INote :=
  {| from := attributeOf name c; text := pcdataOf c |}.

(** The note element the two [createNoteElement...] methods build. *)
Definition noteElement (attrs : list (string * string)) (content : string)
  : Node :=
  Element "note" attrs (markup content).

Definition originAttribute (name : string) (origin : option string)
  : list (string * string) :=
  match truthy origin with
  | Some v => [(name, v)]
  | None => []
  end.

(** A note element whose origin is [key]. *)
Definition isReservedNote (name key : string) (c : Node) : bool :=
  isNoteElement c && hasValue name key c.

(** What [XliffTransUnit.description] and [XliffTransUnit.meaning] have in
    common, and what [setDescription] and [setMeaning] have: the methods
    are these for the origins [description] and [meaning]. *)
Definition Xliff_reserved (key : string) (e : Node) : option string :=
  match XliffTransUnit.findNoteElementWithFromAttribute key e with
  | Some noteElem => Some (getPCDATA noteElem e)
  | None => None
  end.

Definition Xliff_setReserved (key : string) (value : option string)
  : DOM unit :=
  noteElem <- gets (XliffTransUnit.findNoteElementWithFromAttribute key) ;;
  match truthy value with
  | Some d =>
      match noteElem with
      | None =>
          XliffTransUnit.createNoteElementWithFromAttribute (Some key) d ;;
          ret tt
      | Some p => replaceContentWithXMLContent p d
      end
  | None =>
      match noteElem with
      | Some _ => XliffTransUnit.removeNoteElementWithFromAttribute key
      | None => ret tt
      end
  end.

(** The texts of all notes of origin [key], in document order. *)
Definition Xliff_reservedTexts (key : string) (e : Node) : list string :=
  map (fun p => getPCDATA p e)
    (filter (fun p => hasAttributeValue "from" key e p = true)
       (getElementsByTagName "note" e)).

Definition Xliff2_reservedTexts (key : string) (e : Node) : list string :=
  map (fun p => getPCDATA p e)
    (filter (fun p => hasAttributeValue "category" key e p = true)
       (getElementsByTagName "note" e)).

(** The same for XLIFF 2.0. *)
Definition Xliff2_reserved (key : string) (e : Node) : option string :=
  match Xliff2TransUnit.findNoteElementWithCategoryAttribute key e with
  | Some noteElem => Some (getPCDATA noteElem e)
  | None => None
  end.

Definition Xliff2_setReserved (key : string) (value : option string)
  : DOM unit :=
  noteElem <- gets (Xliff2TransUnit.findNoteElementWithCategoryAttribute key) ;;
  match truthy value with
  | Some d =>
      match noteElem with
      | None =>
          Xliff2TransUnit.createNoteElementWithCategoryAttribute (Some key) d ;;
          ret tt
      | Some p => replaceContentWithXMLContent p d
      end
  | None =>
      match noteElem with
      | Some _ => Xliff2TransUnit.removeNoteElementWithCategoryAttribute key
      | None => ret tt
      end
  end.

(** The arguments [setNotes] takes without throwing: no list, or a list
    without a reserved origin. *)
Definition acceptedNotes (newNotes : option (list INote)) : bool :=
  match newNotes with
  | Some l => negb (existsb isReservedOrigin l)
  | None => true
  end.

(** The note [setSourceReferences] stores for a reference. *)
Definition locationNote (ref : SourceReference) : INote :=
  {| from := Some "location";
     text := sourcefile ref +:+ ":" +:+ numberToString (linenumber ref) |}.

Definition isLocationNote (note : INote) : bool :=
  match from note with
  | Some s => String.eqb s "location"
  | None => false
  end.

(** An additional note element of XLIFF 1.2, and the element
    [createNoteElementWithFromAttribute] appends for a note. *)
Definition isAdditionalNote12 (c : Node) : bool :=
  isNoteElement c && additionalNode "from" c.

Definition noteElement12 (note : INote) : Node :=
  noteElement (storeAttribute "priority" "1"
                 (originAttribute "from" (from note))) (text note).

(** The same for XLIFF 2.0, and the note elements that are source
    references. *)
Definition isAdditionalNote20 (c : Node) : bool :=
  isNoteElement c && additionalNode "category" c.

Definition noteElement20 (note : INote) : Node :=
  noteElement (originAttribute "category" (from note)) (text note).

Definition isLocationElement (c : Node) : bool :=
  isNoteElement c && hasValue "category" "location" c.

Definition locationElement (ref : SourceReference) : Node :=
  Element "note" [("category", "location")]
    [TextNode (sourcefile ref +:+ ":" +:+ numberToString (linenumber ref))].

(** A unit of XLIFF 2.0 with its [notes] element among the children. *)
Definition unitWithNotes (tg : string) (a : list (string * string))
  (pre : list Node) (na : list (string * string)) (ns post : list Node)
  : Node :=
  Element tg a (pre ++ Element "notes" na ns :: post).


Definition translatorNote : INote :=
  {| from := Some "translator"; text := "checked" |}.

Definition helloReference : SourceReference :=
  {| sourcefile := "app.html"; linenumber := Some 7%Z |}.

(** [Number.parseInt(s, 10)] as the JavaScript runtime has it, for the
    samples: white space at the start is skipped, a sign is read, then the
    longest run of decimal digits; the result is [NaN] when no digit is
    there. *)
Definition isWhiteSpace (c : ascii) : bool :=
  between 9 13 c || Ascii.eqb c " ".

Fixpoint skipWhiteSpace (s : string) : string :=
  match s with
  | EmptyString => EmptyString
  | String c s' => if isWhiteSpace c then skipWhiteSpace s' else s
  end.

Definition parseInt10 (s : string) : number :=
  let unsigned (negative : bool) (digits : string) : number :=
    match parseDecimal (fst (span isDigit digits)) with
    | Some n => Some (if negative then (- Z.of_nat n)%Z else Z.of_nat n)
    | None => None
    end in
  match skipWhiteSpace s with
  | String c rest =>
      if Ascii.eqb c "-" then unsigned true rest
      else if Ascii.eqb c "+" then unsigned false rest
      else unsigned false (String c rest)
  | EmptyString => None
  end.

(** References for the samples; the file of the second has a colon. *)
Definition driveReference : SourceReference :=
  {| sourcefile := "C:/src/app.html"; linenumber := Some 12%Z |}.

(** The fragments of the test "should throw an error due to not well formed
    elements": bold and strange are opened, bold is closed first. *)
Definition misnestedOpening : list Node :=
  [TextNode "Diese Nachricht ist falsch geschachtelt: ";
   XmbMessageParser.ph "START_BOLD_TEXT" "&lt;b>";
   XmbMessageParser.ph "START_TAG_STRANGE" "&lt;strange>";
   TextNode "FALSCH"].

Definition closeBold : Node := XmbMessageParser.ph "CLOSE_BOLD_TEXT" "&lt;/b>".

(** The XML of a [ph] element as the tests spell it. *)
Definition phXML (name payload : string) : string :=
  "<ph name=" +:+ quote +:+ name +:+ quote +:+ "><ex>" +:+ payload
    +:+ "</ex></ph>".

(** * Facts about the model *)

(** Induction over a fragment, with the hypothesis for every child. *)
Lemma Node_rect' (P : Node -> Prop) :
  (forall data, P (TextNode data)) ->
  (forall t attrs cs, Forall P cs -> P (Element t attrs cs)) ->
  forall n, P n.
Proof.
  intros HT HE. fix IH 1. intros [data | t attrs cs].
  - apply HT.
  - apply HE. induction cs as [| c cs IHcs]; constructor; [apply IH | apply IHcs].
Qed.

Lemma nodeAt_app (p q : Path) (n : Node) :
  nodeAt (p ++ q) n = nodeAt p n ≫= nodeAt q.
Proof.
  revert n. induction p as [| i p IH]; intros n; simpl; [done |].
  destruct (childNodesOf n !! i); simpl; [apply IH | done].
Qed.

Lemma nodeAt_updateAt_same (p : Path) (f : Node -> Node) (n m : Node) :
  nodeAt p n = Some m -> nodeAt p (updateAt p f n) = Some (f m).
Proof.
  revert n. induction p as [| i p IH]; intros n; simpl.
  - congruence.
  - destruct n as [d | t a cs]; simpl; [by destruct i |].
    destruct (cs !! i) as [c |] eqn:Hc; [| done].
    intros H. rewrite list_lookup_alter_eq, Hc. simpl. by apply IH.
Qed.

Lemma updateAt_const (p : Path) (f : Node -> Node) (n m : Node) :
  nodeAt p n = Some m -> updateAt p f n = updateAt p (fun _ => f m) n.
Proof.
  revert n. induction p as [| i p IH]; intros n; simpl.
  - congruence.
  - destruct n as [d | t a cs]; simpl; [done |].
    destruct (cs !! i) as [c |] eqn:Hc; [| done].
    intros H. f_equal. apply list_eq. intros j.
    rewrite !list_lookup_alter. destruct (decide (i = j)); [| done].
    rewrite Hc. simpl. f_equal. by apply IH.
Qed.

Lemma updateAt_id (p : Path) (n m : Node) :
  nodeAt p n = Some m -> updateAt p (fun _ => m) n = n.
Proof.
  revert n. induction p as [| i p IH]; intros n; simpl.
  - congruence.
  - destruct n as [d | t a cs]; simpl; [done |].
    destruct (cs !! i) as [c |] eqn:Hc; [| done].
    intros H. f_equal. apply list_eq. intros j.
    rewrite !list_lookup_alter. destruct (decide (i = j)) as [<- |]; [| done].
    rewrite Hc. simpl. f_equal. by apply IH.
Qed.

(** A change that keeps the children of the node it is applied to is not
    seen at a place that is neither that node nor above it. *)
Lemma nodeAt_updateAt_attr (p q : Path) (f : Node -> Node) (n : Node) :
  (forall x, childNodesOf (f x) = childNodesOf x) ->
  ~ p `prefix_of` q ->
  nodeAt p (updateAt q f n) = nodeAt p n.
Proof.
  intros Hf. revert q n. induction p as [| i p IH]; intros q n Hpre.
  - destruct Hpre. apply prefix_nil.
  - destruct q as [| j q]; simpl.
    + by rewrite Hf.
    + destruct n as [d | t a cs]; simpl; [done |].
      rewrite list_lookup_alter. destruct (decide (j = i)) as [-> |]; [| done].
      destruct (cs !! i) as [c |]; simpl; [| done].
      apply IH. intros Hp. apply Hpre. by apply prefix_cons.
Qed.

(** *** Elements in document order *)

Section SearchFacts.
Variable t : string.
Variable B : Node -> list Path.

Lemma childrenFrom_app (i : nat) (l1 l2 : list Node) :
  childrenFrom B i (l1 ++ l2)
  = childrenFrom B i l1 ++ childrenFrom B (i + length l1) l2.
Proof.
  revert i. induction l1 as [| c l1 IH]; intros i; simpl.
  - by rewrite Nat.add_0_r.
  - rewrite IH, <- app_assoc. do 3 f_equal. lia.
Qed.

Lemma childrenFrom_empty (i : nat) (cs : list Node) :
  Forall (fun c => B c = []) cs -> childrenFrom B i cs = [].
Proof.
  intros H. revert i. induction H as [| c cs Hc _ IH]; intros i; simpl; [done |].
  by rewrite Hc, IH.
Qed.

Lemma childrenFrom_nil_inv (i : nat) (cs : list Node) :
  childrenFrom B i cs = [] -> Forall (fun c => B c = []) cs.
Proof.
  revert i. induction cs as [| c cs IH]; intros i; simpl; [constructor |].
  intros H. apply app_eq_nil in H as [H1 H2]. constructor; [| by eapply IH].
  by destruct (B c).
Qed.

Lemma elem_of_childrenFrom (i : nat) (cs : list Node) (p : Path) :
  p ∈ childrenFrom B i cs ->
  exists k c p', p = (i + k) :: p' /\ cs !! k = Some c /\ p' ∈ B c.
Proof.
  revert i. induction cs as [| c cs IH]; intros i; simpl.
  - by intros ?%elem_of_nil.
  - intros [H | H]%elem_of_app.
    + apply list_elem_of_fmap in H as (p' & -> & Hp').
      exists 0, c, p'. by rewrite Nat.add_0_r.
    + apply IH in H as (k & c' & p' & -> & Hk & Hp').
      exists (S k), c', p'. split_and!; [f_equal; lia | done | done].
Qed.

Lemma childrenFrom_alter (g : Node -> Node) (k i : nat) (cs : list Node)
  (c : Node) :
  cs !! i = Some c ->
  childrenFrom B k (alter g i cs)
  = childrenFrom B k (take i cs) ++ map (cons (k + i)) (B (g c))
      ++ childrenFrom B (k + S i) (drop (S i) cs).
Proof.
  intros Hc.
  assert (alter g i cs = take i cs ++ g c :: drop (S i) cs) as ->.
  { rewrite <- (take_drop_middle cs i c Hc) at 1.
    assert (i = length (take i cs) + 0) as Hi.
    { rewrite length_take. apply lookup_lt_Some in Hc. lia. }
    rewrite Hi at 1. by rewrite alter_app_r. }
  rewrite childrenFrom_app. simpl.
  assert (length (take i cs) = i) as ->.
  { rewrite length_take. apply lookup_lt_Some in Hc. lia. }
  do 3 f_equal. lia.
Qed.

Lemma childrenFrom_split (k i : nat) (cs : list Node) (c : Node) :
  cs !! i = Some c ->
  childrenFrom B k cs
  = childrenFrom B k (take i cs) ++ map (cons (k + i)) (B c)
      ++ childrenFrom B (k + S i) (drop (S i) cs).
Proof.
  intros Hc. rewrite <- (take_drop_middle cs i c Hc) at 1.
  rewrite childrenFrom_app. simpl.
  assert (length (take i cs) = i) as ->.
  { rewrite length_take. apply lookup_lt_Some in Hc. lia. }
  do 3 f_equal. lia.
Qed.

Lemma childrenFrom_take_index (k i : nat) (cs : list Node) (p : Path) :
  p ∈ childrenFrom B k (take i cs) -> exists j p', p = j :: p' /\ j < k + i.
Proof.
  intros (j & c & p' & -> & Hj & _)%elem_of_childrenFrom.
  apply lookup_lt_Some in Hj. rewrite length_take in Hj.
  exists (k + j), p'. split; [done | lia].
Qed.

Lemma childrenFrom_drop_index (k : nat) (cs : list Node) (p : Path) :
  p ∈ childrenFrom B k cs -> exists j p', p = j :: p' /\ k <= j.
Proof.
  intros (j & c & p' & -> & _ & _)%elem_of_childrenFrom.
  exists (k + j), p'. split; [done | lia].
Qed.
End SearchFacts.

Lemma elementsFrom_unfold (t : string) (n : Node) :
  elementsFrom t n = selfMatch t n ++ getElementsByTagName t n.
Proof. by destruct n. Qed.

(** What replacing the node at [p] does to the list of elements: only the
    stretch that lies at or below [p] changes. *)
Lemma elementsFrom_updateAt (t : string) (p : Path) (n m : Node) :
  nodeAt p n = Some m ->
  exists l1 l2,
    (forall q, q ∈ l1 ++ l2 -> ~ p `prefix_of` q) /\
    forall m', elementsFrom t (updateAt p (fun _ => m') n)
               = l1 ++ map (app p) (elementsFrom t m') ++ l2.
Proof.
  revert n. induction p as [| i p IH]; intros n Hn.
  - exists [], []. split; [by intros q ?%elem_of_nil |].
    intros m'. simpl. rewrite app_nil_r. by rewrite map_id.
  - destruct n as [d | tg a cs]; [by destruct i |]. simpl in Hn.
    destruct (cs !! i) as [c |] eqn:Hc; [| done].
    destruct (IH c Hn) as (l1 & l2 & Hout & Heq).
    exists ((if String.eqb tg t then [[]] else [])
              ++ childrenFrom (elementsFrom t) 0 (take i cs) ++ map (cons i) l1),
           (map (cons i) l2
              ++ childrenFrom (elementsFrom t) (S i) (drop (S i) cs)).
    split.
    + intros q Hq Hpre.
      rewrite !elem_of_app in Hq.
      destruct Hq as [[Hq | [Hq | Hq]] | [Hq | Hq]].
      * destruct (String.eqb tg t); [| by apply elem_of_nil in Hq].
        apply list_elem_of_singleton in Hq as ->.
        by apply prefix_nil_not in Hpre.
      * apply childrenFrom_take_index in Hq as (j & p' & -> & Hj).
        apply prefix_cons_inv_1 in Hpre. lia.
      * apply list_elem_of_fmap in Hq as (q' & -> & Hq').
        apply prefix_cons_inv_2 in Hpre. eapply Hout; [| done].
        apply elem_of_app. by left.
      * apply list_elem_of_fmap in Hq as (q' & -> & Hq').
        apply prefix_cons_inv_2 in Hpre. eapply Hout; [| done].
        apply elem_of_app. by right.
      * apply childrenFrom_drop_index in Hq as (j & p' & -> & Hj).
        apply prefix_cons_inv_1 in Hpre. lia.
    + intros m'. simpl.
      rewrite (childrenFrom_alter _ _ 0 i cs c Hc), Heq. simpl.
      rewrite !map_app, map_map, <- !app_assoc. done.
Qed.

Lemma getElements_updateAt (t : string) (p : Path) (n m : Node) :
  p <> [] -> nodeAt p n = Some m ->
  exists l1 l2,
    (forall q, q ∈ l1 ++ l2 -> ~ p `prefix_of` q) /\
    forall m', getElementsByTagName t (updateAt p (fun _ => m') n)
               = l1 ++ map (app p) (elementsFrom t m') ++ l2.
Proof.
  intros Hp Hn. destruct p as [| i p]; [done |].
  destruct n as [d | tg a cs]; [by destruct i |]. simpl in Hn.
  destruct (cs !! i) as [c |] eqn:Hc; [| done].
  destruct (elementsFrom_updateAt t p c m Hn) as (l1 & l2 & Hout & Heq).
  exists (childrenFrom (elementsFrom t) 0 (take i cs) ++ map (cons i) l1),
         (map (cons i) l2
            ++ childrenFrom (elementsFrom t) (S i) (drop (S i) cs)).
  split.
  - intros q Hq Hpre.
    rewrite !elem_of_app in Hq.
    destruct Hq as [[Hq | Hq] | [Hq | Hq]].
    + apply childrenFrom_take_index in Hq as (j & p' & -> & Hj).
      apply prefix_cons_inv_1 in Hpre. lia.
    + apply list_elem_of_fmap in Hq as (q' & -> & Hq').
      apply prefix_cons_inv_2 in Hpre. eapply Hout; [| done].
      apply elem_of_app. by left.
    + apply list_elem_of_fmap in Hq as (q' & -> & Hq').
      apply prefix_cons_inv_2 in Hpre. eapply Hout; [| done].
      apply elem_of_app. by right.
    + apply childrenFrom_drop_index in Hq as (j & p' & -> & Hj).
      apply prefix_cons_inv_1 in Hpre. lia.
  - intros m'. unfold getElementsByTagName. simpl.
    rewrite (childrenFrom_alter _ _ 0 i cs c Hc), Heq. simpl.
    rewrite !map_app, map_map, <- !app_assoc. done.
Qed.

Lemma elementsFrom_nodeAt (t : string) (n : Node) (p : Path) :
  p ∈ elementsFrom t n -> exists a cs, nodeAt p n = Some (Element t a cs).
Proof.
  revert p. induction n as [d | tg a cs IH] using Node_rect'; intros p; simpl.
  - by intros ?%elem_of_nil.
  - intros [H | H]%elem_of_app.
    + destruct (String.eqb_spec tg t) as [-> |]; [| by apply elem_of_nil in H].
      apply list_elem_of_singleton in H as ->. by eexists _, _.
    + apply elem_of_childrenFrom in H as (k & c & p' & -> & Hk & Hp').
      simpl. rewrite Hk. rewrite Forall_forall in IH.
      apply (IH c); [| done]. by eapply list_elem_of_lookup_2.
Qed.

Lemma getElements_nodeAt (t : string) (n : Node) (p : Path) :
  p ∈ getElementsByTagName t n ->
  p <> [] /\ exists a cs, nodeAt p n = Some (Element t a cs).
Proof.
  intros (k & c & p' & -> & Hk & Hp')%elem_of_childrenFrom. split; [done |].
  simpl. rewrite Hk. by apply elementsFrom_nodeAt.
Qed.

Lemma getFirst_nodeAt (t : string) (n : Node) (p : Path) :
  getFirstElementByTagName t n = Some p ->
  p <> [] /\ exists a cs, nodeAt p n = Some (Element t a cs).
Proof.
  intros H. apply getElements_nodeAt. unfold getFirstElementByTagName in H.
  destruct (getElementsByTagName t n); [done |]. injection H as ->. by left.
Qed.

Lemma parentAndIndex_snoc (q : Path) (i : nat) :
  parentAndIndex (q ++ [i]) = Some (q, i).
Proof. unfold parentAndIndex. by rewrite reverse_snoc, reverse_involutive. Qed.

Lemma path_snoc (p : Path) : p <> [] -> exists q i, p = q ++ [i].
Proof.
  intros Hp. induction p as [| j p IH] using rev_ind; [done |]. by exists p, j.
Qed.

Lemma nodeAt_snoc (q : Path) (i : nat) (n c : Node) :
  nodeAt (q ++ [i]) n = Some c ->
  exists tg a cs, nodeAt q n = Some (Element tg a cs) /\ cs !! i = Some c.
Proof.
  rewrite nodeAt_app. destruct (nodeAt q n) as [[d | tg a cs] |]; simpl;
    [by destruct i | | done].
  destruct (cs !! i) eqn:Hi; [| done]. intros [= ->]. by eexists _, _, _.
Qed.

Lemma updateAt_invalid (p : Path) (f : Node -> Node) (n : Node) :
  nodeAt p n = None -> updateAt p f n = n.
Proof.
  revert n. induction p as [| i p IH]; intros n; simpl; [done |].
  destruct n as [d | tg a cs]; simpl; [done |].
  destruct (cs !! i) as [c |] eqn:Hc.
  - intros H. f_equal. apply list_eq. intros j. rewrite list_lookup_alter.
    destruct (decide (i = j)) as [<- |]; [| done]. rewrite Hc. simpl.
    by rewrite IH.
  - intros _. f_equal. apply list_eq. intros j. rewrite list_lookup_alter.
    destruct (decide (i = j)) as [<- |]; [| done]. by rewrite Hc.
Qed.

(** The first element with a tag stays the first one when it is replaced by
    an element of the same tag. *)
Lemma getFirst_updateAt_same (t : string) (p : Path) (n m' : Node) :
  getFirstElementByTagName t n = Some p ->
  tagNameOf m' = Some t ->
  getFirstElementByTagName t (updateAt p (fun _ => m') n) = Some p.
Proof.
  intros Hfirst Htag.
  destruct (getFirst_nodeAt t n p Hfirst) as (Hp & a & cs & Hm).
  destruct (getElements_updateAt t p n _ Hp Hm) as (l1 & l2 & Hout & Heq).
  unfold getFirstElementByTagName in *.
  pose proof (Heq (Element t a cs)) as H0. rewrite (updateAt_id _ _ _ Hm) in H0.
  rewrite H0 in Hfirst. rewrite Heq.
  destruct l1 as [| q l1].
  - destruct m' as [d | tg a' cs']; [done |]. injection Htag as ->.
    simpl. rewrite String.eqb_refl. simpl. by rewrite app_nil_r.
  - simpl in Hfirst. injection Hfirst as ->.
    destruct (Hout p); [by left | done].
Qed.

(** The first element with a tag is not touched by a replacement elsewhere
    that brings in no element with that tag. *)
Lemma getFirst_updateAt_outside (t : string) (p q : Path) (n m m' : Node) :
  getFirstElementByTagName t n = Some q ->
  nodeAt p n = Some m -> p <> [] ->
  ~ p `prefix_of` q ->
  elementsFrom t m' = [] ->
  getFirstElementByTagName t (updateAt p (fun _ => m') n) = Some q.
Proof.
  intros Hfirst Hm Hp Hpq Hnew.
  destruct (getElements_updateAt t p n _ Hp Hm) as (l1 & l2 & Hout & Heq).
  unfold getFirstElementByTagName in *.
  pose proof (Heq m) as H0. rewrite (updateAt_id _ _ _ Hm) in H0.
  rewrite H0 in Hfirst. rewrite Heq, Hnew. simpl.
  destruct l1 as [| q1 l1]; [| done]. simpl in *.
  destruct (elementsFrom t m) as [| x xs]; [done |]. simpl in Hfirst.
  injection Hfirst as <-. destruct Hpq. by apply prefix_app_r.
Qed.

Lemma getElements_preserved (t : string) (q : Path) (f : Node -> Node)
  (n : Node) :
  (forall x, elementsFrom t (f x) = elementsFrom t x) ->
  (forall x, getElementsByTagName t (f x) = getElementsByTagName t x) ->
  getElementsByTagName t (updateAt q f n) = getElementsByTagName t n.
Proof.
  intros Hf Hg. destruct (nodeAt q n) as [m |] eqn:Hm.
  - destruct q as [| i q]; [apply Hg |].
    destruct (getElements_updateAt t (i :: q) n m) as (l1 & l2 & _ & Heq);
      [done | done |].
    rewrite (updateAt_const _ _ _ _ Hm), Heq, Hf, <- Heq.
    by rewrite (updateAt_id _ _ _ Hm).
  - by rewrite updateAt_invalid.
Qed.

Lemma getElements_setAttribute (t : string) (q : Path) (k v : string)
  (n : Node) :
  getElementsByTagName t (updateAt q (withAttribute k v) n)
  = getElementsByTagName t n.
Proof. apply getElements_preserved; by intros [d | tg a cs]. Qed.

Lemma childrenFrom_insert_fresh (B : Node -> list Path) (k : nat)
  (cs : list Node) (new : Node) :
  childrenFrom B 0 cs = [] -> k <= length cs -> B new = [[]] ->
  childrenFrom B 0 (take k cs ++ new :: drop k cs) = [[k]].
Proof.
  intros Hcs Hk Hnew. apply childrenFrom_nil_inv in Hcs.
  rewrite childrenFrom_app. simpl. rewrite Hnew.
  rewrite !childrenFrom_empty.
  - simpl. rewrite length_take. do 2 f_equal. lia.
  - by apply Forall_drop.
  - by apply Forall_take.
Qed.

(** A new element with a tag the fragment does not have yet is the one
    element with that tag afterwards. *)
Lemma getElements_insert_fresh (t : string) (q : Path) (k : nat)
  (n new : Node) (tg : string) (a : list (string * string)) (cs : list Node) :
  getElementsByTagName t n = [] ->
  nodeAt q n = Some (Element tg a cs) -> k <= length cs ->
  elementsFrom t new = [[]] ->
  getElementsByTagName t (updateAt q (insertChild k new) n) = [q ++ [k]].
Proof.
  intros Hnone Hq Hk Hnew. destruct q as [| i q].
  - simpl in Hq. injection Hq as ->. unfold getElementsByTagName in *. simpl in *.
    by apply childrenFrom_insert_fresh.
  - destruct (getElements_updateAt t (i :: q) n _ ltac:(done) Hq)
      as (l1 & l2 & _ & Heq).
    pose proof (Heq (Element tg a cs)) as H0.
    rewrite (updateAt_id _ _ _ Hq), Hnone in H0.
    symmetry in H0. apply app_eq_nil in H0 as [-> H0].
    apply app_eq_nil in H0 as [H0 ->]. apply fmap_nil_inv in H0.
    rewrite (updateAt_const _ _ _ _ Hq), Heq. simpl.
    simpl in H0. destruct (String.eqb tg t); [done |]. simpl in *.
    rewrite childrenFrom_insert_fresh; [by rewrite app_nil_r | done..].
Qed.

(** Appending an element without the tag, and without children, leaves the
    elements with the tag where they are. *)
Lemma getElements_append_other (t : string) (q : Path) (n new : Node)
  (tg : string) (a : list (string * string)) (cs : list Node) :
  nodeAt q n = Some (Element tg a cs) ->
  elementsFrom t new = [] ->
  getElementsByTagName t (updateAt q (insertChild (length cs) new) n)
  = getElementsByTagName t n.
Proof.
  intros Hq Hnew.
  assert (forall B, B new = [] ->
    childrenFrom B 0 (take (length cs) cs ++ new :: drop (length cs) cs)
    = childrenFrom B 0 cs) as Hch.
  { intros B HB. rewrite firstn_all, drop_all, childrenFrom_app. simpl.
    by rewrite HB, app_nil_r. }
  destruct q as [| i q].
  - simpl in Hq. injection Hq as ->. unfold getElementsByTagName. simpl.
    by apply Hch.
  - destruct (getElements_updateAt t (i :: q) n _ ltac:(done) Hq)
      as (l1 & l2 & _ & Heq).
    rewrite (updateAt_const _ _ _ _ Hq), Heq.
    pose proof (Heq (Element tg a cs)) as H0.
    rewrite (updateAt_id _ _ _ Hq) in H0. rewrite H0. simpl.
    by rewrite Hch.
Qed.

Lemma nodeAt_below_update (q x : Path) (f : Node -> Node) (n m : Node) :
  nodeAt q n = Some m ->
  nodeAt (q ++ x) (updateAt q f n) = nodeAt x (f m).
Proof.
  intros Hq. by rewrite nodeAt_app, (nodeAt_updateAt_same _ _ _ _ Hq).
Qed.

Lemma nodeAt_insert_new (q : Path) (k : nat) (n new : Node) (tg : string)
  (a : list (string * string)) (cs : list Node) :
  nodeAt q n = Some (Element tg a cs) -> k <= length cs ->
  nodeAt (q ++ [k]) (updateAt q (insertChild k new) n) = Some new.
Proof.
  intros Hq Hk. rewrite (nodeAt_below_update _ _ _ _ _ Hq). simpl.
  rewrite lookup_app_r; rewrite length_take; [| lia].
  by replace (k - k `min` length cs) with 0 by lia.
Qed.

Lemma nodeAt_insert_before (q r : Path) (i k : nat) (n new : Node)
  (tg : string) (a : list (string * string)) (cs : list Node) :
  nodeAt q n = Some (Element tg a cs) -> i < k -> i < length cs ->
  nodeAt (q ++ i :: r) (updateAt q (insertChild k new) n)
  = nodeAt (q ++ i :: r) n.
Proof.
  intros Hq Hik Hi. rewrite (nodeAt_below_update _ _ _ _ _ Hq).
  rewrite nodeAt_app, Hq. simpl.
  rewrite lookup_app_l; [| rewrite length_take; lia].
  by rewrite lookup_take_lt.
Qed.

(** *** Content and attributes *)

Lemma lookup_storeAttribute (name value : string)
  (attrs : list (string * string)) :
  lookupAttribute name (storeAttribute name value attrs) = Some value.
Proof.
  induction attrs as [| [k v] attrs IH]; simpl.
  - by rewrite String.eqb_refl.
  - destruct (String.eqb k name) eqn:Hk; simpl; by rewrite Hk.
Qed.

Lemma innerXML_markup (t : string) (a : list (string * string))
  (content : string) :
  innerXML (Element t a (markup content)) = content.
Proof. by destruct content. Qed.

Lemma elementsFrom_markup (t tg : string) (a : list (string * string))
  (content : string) :
  tg <> t -> elementsFrom t (Element tg a (markup content)) = [].
Proof.
  intros Htg. simpl. destruct (String.eqb_spec tg t); [done |].
  by destruct content.
Qed.

Lemma nodeAt_markup_element (tg : string) (a : list (string * string))
  (content : string) (x : Path) (t : string) (a' : list (string * string))
  (cs : list Node) :
  nodeAt x (Element tg a (markup content)) = Some (Element t a' cs) -> x = [].
Proof.
  destruct x as [| i x]; [done |]. simpl.
  destruct content; [by destruct i |].
  destruct i as [| i]; simpl; [| by destruct i].
  by destruct x as [| j x]; [| destruct j].
Qed.

(** *** Writing the target of a unit of XLIFF 1.2 *)

Lemma Xliff_write_target (e : Node) (pt : Path) (content token : string) :
  getFirstElementByTagName "target" e = Some pt ->
  let e' := updateAt pt (withAttribute "state" token)
              (updateAt pt (withChildNodes (markup content)) e) in
  getFirstElementByTagName "target" e' = Some pt
  /\ XliffTransUnit.targetContent e' = content
  /\ XliffTransUnit.nativeTargetState e' = Some token.
Proof.
  intros Hpt e'.
  destruct (getFirst_nodeAt _ _ _ Hpt) as (_ & a & cs & Hm).
  set (e1 := updateAt pt (withChildNodes (markup content)) e) in *.
  assert (Hm1 : nodeAt pt e1 = Some (Element "target" a (markup content))).
  { unfold e1. by rewrite (nodeAt_updateAt_same _ _ _ _ Hm). }
  assert (H1 : getFirstElementByTagName "target" e1 = Some pt).
  { unfold e1. rewrite (updateAt_const _ _ _ _ Hm).
    by apply getFirst_updateAt_same. }
  assert (Hm' : nodeAt pt e'
                = Some (Element "target" (storeAttribute "state" token a)
                          (markup content))).
  { unfold e'. by rewrite (nodeAt_updateAt_same _ _ _ _ Hm1). }
  assert (H' : getFirstElementByTagName "target" e' = Some pt).
  { unfold e'. rewrite (updateAt_const _ _ _ _ Hm1).
    by apply getFirst_updateAt_same. }
  split_and!; [done | |].
  - unfold XliffTransUnit.targetContent, getXMLContent. rewrite H'. simpl.
    rewrite Hm'. apply innerXML_markup.
  - unfold XliffTransUnit.nativeTargetState, getAttribute. rewrite H'.
    rewrite Hm'. simpl. apply lookup_storeAttribute.
Qed.

(** Where the target of a unit of XLIFF 1.2 is, once one is there: the one
    found, or a new one right after the source. *)
Lemma Xliff_target_created (e : Node) (ps : Path) :
  getFirstElementByTagName "source" e = Some ps ->
  getFirstElementByTagName "target" e = None ->
  exists e0 pt,
    createFollowingSibling "target" (Some ps) e = (e0, Return pt)
    /\ getFirstElementByTagName "target" e0 = Some pt
    /\ getXMLContent (Some ps) e0 = getXMLContent (Some ps) e.
Proof.
  intros Hps Hnone.
  destruct (getFirst_nodeAt _ _ _ Hps) as (Hne & a & cs & Hsrc).
  destruct (path_snoc ps Hne) as (q & i & ->).
  destruct (nodeAt_snoc _ _ _ _ Hsrc) as (tg & a' & cs' & Hq & Hi).
  pose proof (lookup_lt_Some _ _ _ Hi) as Hlt.
  eexists _, _. unfold createFollowingSibling. simpl.
  rewrite parentAndIndex_snoc. split; [reflexivity |]. split.
  - unfold getFirstElementByTagName in *.
    rewrite (getElements_insert_fresh "target" q (S i) e _ tg a' cs');
      [done | | done | lia | done].
    by destruct (getElementsByTagName "target" e).
  - unfold getXMLContent. simpl.
    by rewrite (nodeAt_insert_before q [] i (S i) e _ tg a' cs' Hq) by lia.
Qed.

Ltac run :=
  cbv beta delta [bind gets ret modify throw liftResult
                  replaceContentWithXMLContent setAttribute].

Section XliffSynthesis.
Variable isICUMessage : string -> bool.
Variable file : ITranslationMessagesFile.

Lemma Xliff_useSourceAsTarget_run (isDefaultLang copyContent : bool)
  (e : Node) (ps : Path) :
  getFirstElementByTagName "source" e = Some ps ->
  exists e',
    XliffTransUnit.useSourceAsTarget isICUMessage file isDefaultLang
      copyContent e = (e', Return tt)
    /\ XliffTransUnit.targetContent e'
       = synthesized isICUMessage file isDefaultLang copyContent (XliffTransUnit.sourceContent e)
    /\ XliffTransUnit.nativeTargetState e'
       = Some (if isDefaultLang then "final" else "new").
Proof.
  intros Hps.
  assert (Hwrite : forall e0 pt,
    getFirstElementByTagName "target" e0 = Some pt ->
    getXMLContent (Some ps) e0 = XliffTransUnit.sourceContent e ->
    exists e',
      ((if isDefaultLang || copyContent then
          sourceString <- gets (getXMLContent (Some ps)) ;;
          replaceContentWithXMLContent pt
            (if negb (isICUMessage sourceString) then
               getNewTransUnitTargetPraefix file +:+ sourceString
                 +:+ getNewTransUnitTargetSuffix file
             else sourceString)
        else replaceContentWithXMLContent pt EmptyString) ;;
       if isDefaultLang then
         nativeState <- liftResult (XliffTransUnit.mapStateToNativeState STATE_FINAL) ;;
         setAttribute pt "state" nativeState
       else
         nativeState <- liftResult (XliffTransUnit.mapStateToNativeState STATE_NEW) ;;
         setAttribute pt "state" nativeState) e0 = (e', Return tt)
      /\ XliffTransUnit.targetContent e'
         = synthesized isICUMessage file isDefaultLang copyContent (XliffTransUnit.sourceContent e)
      /\ XliffTransUnit.nativeTargetState e'
         = Some (if isDefaultLang then "final" else "new")).
  { intros e0 pt Hpt Hsrc.
    destruct (Xliff_write_target e0 pt
                (synthesized isICUMessage file isDefaultLang copyContent (XliffTransUnit.sourceContent e))
                (if isDefaultLang then "final" else "new") Hpt)
      as (_ & Hc & Hs).
    eexists. split; [| split; [exact Hc | exact Hs]].
    unfold synthesized. run. rewrite <- Hsrc.
    destruct isDefaultLang, copyContent; simpl;
      try destruct (isICUMessage (getXMLContent (Some ps) e0)); reflexivity. }
  unfold XliffTransUnit.useSourceAsTarget.
  cbv beta delta [bind gets]. rewrite Hps.
  destruct (getFirstElementByTagName "target" e) as [pt |] eqn:Hpt.
  - cbv beta iota delta [ret]. apply (Hwrite e pt Hpt).
    unfold XliffTransUnit.sourceContent. by rewrite Hps.
  - destruct (Xliff_target_created e ps Hps Hpt) as (e0 & pt & Hrun & Hpt0 & Hsrc).
    rewrite Hrun. cbv beta iota. apply (Hwrite e0 pt Hpt0).
    rewrite Hsrc. unfold XliffTransUnit.sourceContent. by rewrite Hps.
Qed.

End XliffSynthesis.

(** *** Writing the target of a unit of XLIFF 2.0 *)

Lemma Xliff2_replace_target (e : Node) (pt : Path) (content : string) :
  getFirstElementByTagName "target" e = Some pt ->
  let e1 := updateAt pt (withChildNodes (markup content)) e in
  getFirstElementByTagName "target" e1 = Some pt
  /\ Xliff2TransUnit.targetContent e1 = content
  /\ (forall qs, getFirstElementByTagName "segment" e = Some qs ->
        ~ pt `prefix_of` qs ->
        getFirstElementByTagName "segment" e1 = Some qs)
  /\ (getFirstElementByTagName "segment" e = None ->
        getFirstElementByTagName "segment" e1 = None).
Proof.
  intros Hpt e1.
  destruct (getFirst_nodeAt _ _ _ Hpt) as (Hne & a & cs & Hm).
  assert (Hm1 : nodeAt pt e1 = Some (Element "target" a (markup content))).
  { unfold e1. by rewrite (nodeAt_updateAt_same _ _ _ _ Hm). }
  assert (H1 : getFirstElementByTagName "target" e1 = Some pt).
  { unfold e1. rewrite (updateAt_const _ _ _ _ Hm).
    by apply getFirst_updateAt_same. }
  split_and!; [done | | |].
  - unfold Xliff2TransUnit.targetContent, getXMLContent. rewrite H1. simpl.
    rewrite Hm1. apply innerXML_markup.
  - intros qs Hqs Hout. unfold e1. rewrite (updateAt_const _ _ _ _ Hm).
    eapply getFirst_updateAt_outside; [done | done | done | done |].
    by apply elementsFrom_markup.
  - intros Hnone. unfold e1. rewrite (updateAt_const _ _ _ _ Hm).
    destruct (getElements_updateAt "segment" pt e _ Hne Hm) as (l1 & l2 & _ & Heq).
    unfold getFirstElementByTagName in *.
    pose proof (Heq (Element "target" a cs)) as H0.
    rewrite (updateAt_id _ _ _ Hm) in H0. rewrite H0 in Hnone.
    rewrite Heq. cbn [withChildNodes].
    rewrite (elementsFrom_markup "segment" "target" a content) by done.
    destruct l1; [| done]. simpl in *.
    destruct (map (app pt) _) in Hnone; [done | discriminate Hnone].
Qed.

Lemma Xliff2_written_content (e : Node) (pt : Path) (content token : string) :
  getFirstElementByTagName "target" e = Some pt ->
  Xliff2TransUnit.targetContent (Xliff2_written e pt content token) = content.
Proof.
  intros Hpt.
  destruct (Xliff2_replace_target e pt content Hpt) as (H1 & Hc & _ & _).
  destruct (getFirst_nodeAt _ _ _ Hpt) as (_ & a & cs & Hm).
  unfold Xliff2_written.
  set (e1 := updateAt pt (withChildNodes (markup content)) e) in *.
  assert (Hm1 : nodeAt pt e1 = Some (Element "target" a (markup content))).
  { unfold e1. by rewrite (nodeAt_updateAt_same _ _ _ _ Hm). }
  destruct (getFirstElementByTagName "segment" e1) as [s |] eqn:Hs; [| done].
  rewrite <- Hc. unfold Xliff2TransUnit.targetContent, getFirstElementByTagName.
  rewrite getElements_setAttribute. fold (getFirstElementByTagName "target" e1).
  rewrite H1. unfold getXMLContent. simpl.
  rewrite nodeAt_updateAt_attr; [done | by intros [d | tg a' cs'] |].
  intros [x ->]. destruct (getFirst_nodeAt _ _ _ Hs) as (_ & a' & cs' & Hseg).
  rewrite nodeAt_app, Hm1 in Hseg. simpl in Hseg.
  pose proof (nodeAt_markup_element _ _ _ _ _ _ _ Hseg) as ->. done.
Qed.

Lemma Xliff2_written_state (e : Node) (pt qs : Path)
  (content token : string) :
  getFirstElementByTagName "target" e = Some pt ->
  getFirstElementByTagName "segment" e = Some qs ->
  ~ pt `prefix_of` qs ->
  Xliff2TransUnit.nativeTargetState (Xliff2_written e pt content token)
  = Some token.
Proof.
  intros Hpt Hqs Hout.
  destruct (Xliff2_replace_target e pt content Hpt) as (H1 & Hc & Hseg & _).
  specialize (Hseg qs Hqs Hout). unfold Xliff2_written. rewrite Hseg.
  set (e1 := updateAt pt (withChildNodes (markup content)) e) in *.
  unfold Xliff2TransUnit.nativeTargetState, getFirstElementByTagName.
  rewrite getElements_setAttribute. fold (getFirstElementByTagName "segment" e1).
  rewrite Hseg. unfold getAttribute.
  destruct (getFirst_nodeAt _ _ _ Hseg) as (_ & a & cs & Hm).
  rewrite (nodeAt_updateAt_same _ _ _ _ Hm). simpl.
  apply lookup_storeAttribute.
Qed.


Lemma Xliff2_target_created (e : Node) (ps : Path) :
  getFirstElementByTagName "source" e = Some ps ->
  getFirstElementByTagName "target" e = None ->
  exists e0 pt,
    Xliff2TransUnit.appendToParentOf (Some ps) (Element "target" [] []) e
    = (e0, Return pt)
    /\ getFirstElementByTagName "target" e0 = Some pt
    /\ getXMLContent (Some ps) e0 = getXMLContent (Some ps) e
    /\ getFirstElementByTagName "segment" e0
       = getFirstElementByTagName "segment" e
    /\ forall qs, is_Some (nodeAt qs e) -> ~ pt `prefix_of` qs.
Proof.
  intros Hps Hnone.
  destruct (getFirst_nodeAt _ _ _ Hps) as (Hne & a & cs & Hsrc).
  destruct (path_snoc ps Hne) as (q & i & ->).
  destruct (nodeAt_snoc _ _ _ _ Hsrc) as (tg & a' & cs' & Hq & Hi).
  pose proof (lookup_lt_Some _ _ _ Hi) as Hlt.
  eexists _, _. unfold Xliff2TransUnit.appendToParentOf, appendChild. simpl.
  rewrite parentAndIndex_snoc, Hq. split; [reflexivity |]. split_and!.
  - unfold getFirstElementByTagName in *.
    rewrite (getElements_insert_fresh "target" q _ e _ tg a' cs');
      [done | | done | lia | done].
    by destruct (getElementsByTagName "target" e).
  - unfold getXMLContent. simpl.
    by rewrite (nodeAt_insert_before q [] i _ e _ tg a' cs' Hq) by lia.
  - unfold getFirstElementByTagName.
    by rewrite (getElements_append_other "segment" q e _ tg a' cs' Hq).
  - intros qs [m Hm] [x ->]. rewrite nodeAt_app, nodeAt_app, Hq in Hm.
    simpl in Hm. by rewrite lookup_ge_None_2 in Hm.
Qed.

Section Xliff2Synthesis.
Variable isICUMessage : string -> bool.
Variable file : ITranslationMessagesFile.

Lemma Xliff2_useSourceAsTarget_written (isDefaultLang copyContent : bool)
  (e : Node) (ps : Path) :
  getFirstElementByTagName "source" e = Some ps ->
  exists e0 pt,
    getFirstElementByTagName "target" e0 = Some pt
    /\ getFirstElementByTagName "segment" e0
       = getFirstElementByTagName "segment" e
    /\ (getFirstElementByTagName "target" e = Some pt
        \/ forall qs, is_Some (nodeAt qs e) -> ~ pt `prefix_of` qs)
    /\ Xliff2TransUnit.useSourceAsTarget isICUMessage file isDefaultLang
         copyContent e
       = (Xliff2_written e0 pt
            (synthesized isICUMessage file isDefaultLang copyContent
               (Xliff2TransUnit.sourceContent e))
            (if isDefaultLang then "final" else "initial"), Return tt).
Proof.
  intros Hps.
  assert (Hwrite : forall e0 pt,
    getXMLContent (Some ps) e0 = Xliff2TransUnit.sourceContent e ->
    ((if isDefaultLang || copyContent then
          sourceString <- gets (getXMLContent (Some ps)) ;;
          replaceContentWithXMLContent pt
            (if negb (isICUMessage sourceString) then
               getNewTransUnitTargetPraefix file +:+ sourceString
                 +:+ getNewTransUnitTargetSuffix file
             else sourceString)
        else replaceContentWithXMLContent pt EmptyString) ;;
       segment <- gets (getFirstElementByTagName "segment") ;;
       match segment with
       | Some s =>
         if isDefaultLang then
           nativeState <- liftResult (Xliff2TransUnit.mapStateToNativeState STATE_FINAL) ;;
           setAttribute s "state" nativeState
         else
           nativeState <- liftResult (Xliff2TransUnit.mapStateToNativeState STATE_NEW) ;;
           setAttribute s "state" nativeState
       | None => ret tt
       end) e0
    = (Xliff2_written e0 pt
         (synthesized isICUMessage file isDefaultLang copyContent
            (Xliff2TransUnit.sourceContent e))
         (if isDefaultLang then "final" else "initial"), Return tt)).
  { intros e0 pt Hsrc. unfold Xliff2_written, synthesized. run. rewrite <- Hsrc.
    destruct isDefaultLang, copyContent; simpl;
      try destruct (isICUMessage (getXMLContent (Some ps) e0)); simpl;
      match goal with
      | |- context [getFirstElementByTagName "segment" ?x] =>
          destruct (getFirstElementByTagName "segment" x)
      end; reflexivity. }
  unfold Xliff2TransUnit.useSourceAsTarget.
  cbv beta delta [bind gets]. rewrite Hps.
  destruct (getFirstElementByTagName "target" e) as [pt |] eqn:Hpt.
  - exists e, pt. split_and!; [done | done | by left |].
    cbv beta iota delta [ret]. apply Hwrite.
    unfold Xliff2TransUnit.sourceContent. by rewrite Hps.
  - destruct (Xliff2_target_created e ps Hps Hpt)
      as (e0 & pt & Hrun & Hpt0 & Hsrc & Hseg & Hout).
    exists e0, pt. split_and!; [done | done | by right |].
    rewrite Hrun. cbv beta iota. apply Hwrite.
    rewrite Hsrc. unfold Xliff2TransUnit.sourceContent. by rewrite Hps.
Qed.

End Xliff2Synthesis.

(** ** The state tokens *)

(** C4 as stated does not hold for XLIFF 1.2: [signed-off] is none of
    [new], [translated], [final], and it is read as FINAL, not as NEW. *)
Lemma mapNativeStateToState_signed_off :
  ~ (forall token : string,
       token <> "new" -> token <> "translated" -> token <> "final" ->
       XliffTransUnit.mapNativeStateToState (Some token) = STATE_NEW).
Proof. intros H. by specialize (H "signed-off" ltac:(done) ltac:(done) ltac:(done)). Qed.

(** C4, amended: reading a state token never fails.  XLIFF 1.2 reads [new]
    and [needs-translation] as NEW, [translated], [needs-adaptation],
    [needs-l10n], [needs-review-adaptation], [needs-review-l10n] and
    [needs-review-translation] as TRANSLATED, [final] and [signed-off] as
    FINAL, and every other or absent token as NEW.  XLIFF 2.0 reads
    [initial] as NEW, [translated] and [reviewed] as TRANSLATED, [final] as
    FINAL, and every other or absent token as NEW. *)
Theorem mapNativeStateToState_tables :
  (forall token,
     (token ∈ tokensReadAsTranslated ->
        XliffTransUnit.mapNativeStateToState (Some token) = STATE_TRANSLATED)
     /\ (token ∈ tokensReadAsFinal ->
        XliffTransUnit.mapNativeStateToState (Some token) = STATE_FINAL)
     /\ (token ∉ tokensReadAsTranslated -> token ∉ tokensReadAsFinal ->
        XliffTransUnit.mapNativeStateToState (Some token) = STATE_NEW))
  /\ XliffTransUnit.mapNativeStateToState None = STATE_NEW
  /\ (forall token,
     (token = "translated" \/ token = "reviewed" ->
        Xliff2TransUnit.mapNativeStateToState (Some token) = STATE_TRANSLATED)
     /\ (token = "final" ->
        Xliff2TransUnit.mapNativeStateToState (Some token) = STATE_FINAL)
     /\ (token <> "translated" -> token <> "reviewed" -> token <> "final" ->
        Xliff2TransUnit.mapNativeStateToState (Some token) = STATE_NEW))
  /\ Xliff2TransUnit.mapNativeStateToState None = STATE_NEW.
Proof.
  split_and!; [| done | | done].
  - intros token.
    unfold XliffTransUnit.mapNativeStateToState, XliffState.mapNativeStateToState.
    split_and!.
    + intros H. unfold tokensReadAsTranslated in H.
      repeat (apply elem_of_cons in H as [-> | H]; [reflexivity |]).
      by apply elem_of_nil in H.
    + intros H. unfold tokensReadAsFinal in H.
      repeat (apply elem_of_cons in H as [-> | H]; [reflexivity |]).
      by apply elem_of_nil in H.
    + intros Hn1 Hn2.
      repeat match goal with
      | |- context [String.eqb token ?s] =>
          destruct (String.eqb_spec token s) as [-> |];
            [first [reflexivity
                   | exfalso; apply Hn1; unfold tokensReadAsTranslated; set_solver
                   | exfalso; apply Hn2; unfold tokensReadAsFinal; set_solver] |]
      end. done.
  - intros token.
    unfold Xliff2TransUnit.mapNativeStateToState, Xliff2State.mapNativeStateToState.
    split_and!.
    + by intros [-> | ->].
    + by intros ->.
    + intros ? ? ?.
      repeat match goal with
      | |- context [String.eqb token ?s] =>
          destruct (String.eqb_spec token s); [done |]
      end. done.
Qed.

Lemma mapNativeStateToState_tables_witness :
  XliffTransUnit.mapNativeStateToState (Some "needs-l10n") = STATE_TRANSLATED
  /\ XliffTransUnit.mapNativeStateToState (Some "signed-off") = STATE_FINAL
  /\ XliffTransUnit.mapNativeStateToState (Some "no such token") = STATE_NEW
  /\ Xliff2TransUnit.mapNativeStateToState (Some "reviewed") = STATE_TRANSLATED
  /\ Xliff2TransUnit.mapNativeStateToState (Some "final") = STATE_FINAL
  /\ Xliff2TransUnit.mapNativeStateToState (Some "new") = STATE_NEW.
Proof.
  destruct mapNativeStateToState_tables as (H1 & _ & H2 & _).
  split_and!.
  - apply (H1 "needs-l10n"). unfold tokensReadAsTranslated. repeat constructor.
  - apply (H1 "signed-off"). unfold tokensReadAsFinal. repeat constructor.
  - apply (H1 "no such token");
      unfold tokensReadAsTranslated, tokensReadAsFinal;
      rewrite !not_elem_of_cons; split_and!; try done; apply not_elem_of_nil.
  - apply (H2 "reviewed"). by right.
  - by apply (H2 "final").
  - by apply (H2 "new").
Defined.

(** C5: writing a state.  NEW, TRANSLATED and FINAL become [new],
    [translated], [final] in XLIFF 1.2 and [initial], [translated], [final]
    in XLIFF 2.0; no two states share a token; any other value makes the
    mapping throw "unknown state ...". *)
Theorem mapStateToNativeState_strict :
  (XliffTransUnit.mapStateToNativeState STATE_NEW = Return "new"
   /\ XliffTransUnit.mapStateToNativeState STATE_TRANSLATED = Return "translated"
   /\ XliffTransUnit.mapStateToNativeState STATE_FINAL = Return "final")
  /\ (Xliff2TransUnit.mapStateToNativeState STATE_NEW = Return "initial"
   /\ Xliff2TransUnit.mapStateToNativeState STATE_TRANSLATED = Return "translated"
   /\ Xliff2TransUnit.mapStateToNativeState STATE_FINAL = Return "final")
  /\ (forall s1 s2 token,
        XliffTransUnit.mapStateToNativeState s1 = Return token ->
        XliffTransUnit.mapStateToNativeState s2 = Return token -> s1 = s2)
  /\ (forall s1 s2 token,
        Xliff2TransUnit.mapStateToNativeState s1 = Return token ->
        Xliff2TransUnit.mapStateToNativeState s2 = Return token -> s1 = s2)
  /\ (forall state,
        state <> STATE_NEW -> state <> STATE_TRANSLATED -> state <> STATE_FINAL ->
        XliffTransUnit.mapStateToNativeState state
          = Throw (Error ("unknown state " +:+ state))
        /\ Xliff2TransUnit.mapStateToNativeState state
          = Throw (Error ("unknown state " +:+ state))).
Proof.
  unfold XliffTransUnit.mapStateToNativeState, XliffState.mapStateToNativeState,
    Xliff2TransUnit.mapStateToNativeState, Xliff2State.mapStateToNativeState.
  split_and!; try reflexivity.
  - intros s1 s2 token.
    destruct (String.eqb_spec s1 STATE_NEW) as [-> |];
      [| destruct (String.eqb_spec s1 STATE_TRANSLATED) as [-> |];
         [| destruct (String.eqb_spec s1 STATE_FINAL) as [-> |]; [| done]]];
    intros [= <-];
    (destruct (String.eqb_spec s2 STATE_NEW) as [-> |];
      [| destruct (String.eqb_spec s2 STATE_TRANSLATED) as [-> |];
         [| destruct (String.eqb_spec s2 STATE_FINAL) as [-> |]; [| done]]]);
    done.
  - intros s1 s2 token.
    destruct (String.eqb_spec s1 STATE_NEW) as [-> |];
      [| destruct (String.eqb_spec s1 STATE_TRANSLATED) as [-> |];
         [| destruct (String.eqb_spec s1 STATE_FINAL) as [-> |]; [| done]]];
    intros [= <-];
    (destruct (String.eqb_spec s2 STATE_NEW) as [-> |];
      [| destruct (String.eqb_spec s2 STATE_TRANSLATED) as [-> |];
         [| destruct (String.eqb_spec s2 STATE_FINAL) as [-> |]; [| done]]]);
    done.
  - intros state H1 H2 H3.
    destruct (String.eqb_spec state STATE_NEW); [done |].
    destruct (String.eqb_spec state STATE_TRANSLATED); [done |].
    destruct (String.eqb_spec state STATE_FINAL); [done |]. done.
Qed.

Lemma mapStateToNativeState_strict_witness :
  XliffTransUnit.mapStateToNativeState "reviewed"
    = Throw (Error "unknown state reviewed")
  /\ Xliff2TransUnit.mapStateToNativeState "reviewed"
    = Throw (Error "unknown state reviewed")
  /\ STATE_NEW = STATE_NEW.
Proof.
  destruct mapStateToNativeState_strict as (_ & _ & Hinj & _ & Hthrow).
  destruct (Hthrow "reviewed") as [H1 H2]; [done | done | done |].
  split_and!; [exact H1 | exact H2 |].
  exact (Hinj STATE_NEW STATE_NEW "new" eq_refl eq_refl).
Defined.

(** ** Synthesis of a target from the source *)

Lemma hasSource_first (e : Node) :
  hasSource e = true -> exists ps, getFirstElementByTagName "source" e = Some ps.
Proof.
  unfold hasSource. destruct (getFirstElementByTagName "source" e); [eauto | done].
Qed.

Lemma Xliff_useSourceAsTarget_total (isICUMessage : string -> bool)
  (file : ITranslationMessagesFile) (isDefaultLang copyContent : bool)
  (e : Node) :
  hasSource e = true ->
  exists e',
    XliffTransUnit.useSourceAsTarget isICUMessage file isDefaultLang
      copyContent e = (e', Return tt)
    /\ XliffTransUnit.targetContent e'
       = synthesized isICUMessage file isDefaultLang copyContent
           (XliffTransUnit.sourceContent e)
    /\ XliffTransUnit.targetState e'
       = (if isDefaultLang then STATE_FINAL else STATE_NEW).
Proof.
  intros [ps Hps]%hasSource_first.
  destruct (Xliff_useSourceAsTarget_run isICUMessage file isDefaultLang
              copyContent e ps Hps) as (e' & Hrun & Hc & Hs).
  exists e'. split_and!; [done | done |].
  unfold XliffTransUnit.targetState. rewrite Hs. by destruct isDefaultLang.
Qed.

Lemma segmentOutsideTarget_first (e : Node) :
  segmentOutsideTarget e = true ->
  exists qs, getFirstElementByTagName "segment" e = Some qs
    /\ forall pt, getFirstElementByTagName "target" e = Some pt ->
         ~ pt `prefix_of` qs.
Proof.
  unfold segmentOutsideTarget.
  destruct (getFirstElementByTagName "segment" e) as [qs |]; [| done].
  intros H. exists qs. split; [done |]. intros pt Hpt. rewrite Hpt in H.
  apply negb_true_iff, bool_decide_eq_false in H. done.
Qed.

Lemma Xliff2_useSourceAsTarget_total (isICUMessage : string -> bool)
  (file : ITranslationMessagesFile) (isDefaultLang copyContent : bool)
  (e : Node) :
  hasSource e = true ->
  exists e',
    Xliff2TransUnit.useSourceAsTarget isICUMessage file isDefaultLang
      copyContent e = (e', Return tt)
    /\ Xliff2TransUnit.targetContent e'
       = synthesized isICUMessage file isDefaultLang copyContent
           (Xliff2TransUnit.sourceContent e)
    /\ (segmentOutsideTarget e = true ->
        Xliff2TransUnit.targetState e'
        = (if isDefaultLang then STATE_FINAL else STATE_NEW)).
Proof.
  intros [ps Hps]%hasSource_first.
  destruct (Xliff2_useSourceAsTarget_written isICUMessage file isDefaultLang
              copyContent e ps Hps) as (e0 & pt & Hpt & Hseg & Hor & Hrun).
  eexists. split_and!; [exact Hrun | by apply Xliff2_written_content |].
  intros (qs & Hqs & Hout)%segmentOutsideTarget_first.
  unfold Xliff2TransUnit.targetState.
  rewrite (Xliff2_written_state e0 pt qs); [by destruct isDefaultLang | done | congruence |].
  destruct Hor as [Hor | Hor]; [by apply Hout |].
  apply Hor. destruct (getFirst_nodeAt _ _ _ Hqs) as (_ & a & cs & ->). done.
Qed.



(** C2 as stated does not hold: with [isDefaultLang] and [copyContent] both
    false the target of a unit with an ICU source is made empty, in either
    format. *)
Lemma useSourceAsTarget_icu_without_copy :
  startsPlural (XliffTransUnit.sourceContent pluralUnit) = true
  /\ XliffTransUnit.targetContent
       (fragmentAfter
          (XliffTransUnit.useSourceAsTarget startsPlural sampleFile false false)
          pluralUnit)
     <> XliffTransUnit.sourceContent pluralUnit
  /\ startsPlural (Xliff2TransUnit.sourceContent pluralUnit2) = true
  /\ Xliff2TransUnit.targetContent
       (fragmentAfter
          (Xliff2TransUnit.useSourceAsTarget startsPlural sampleFile false false)
          pluralUnit2)
     <> Xliff2TransUnit.sourceContent pluralUnit2.
Proof. split_and!; [reflexivity | by vm_compute | reflexivity | by vm_compute]. Qed.

(** C2, amended: a unit whose source is an ICU message.  When
    [isDefaultLang] or [copyContent] holds, [useSourceAsTarget] makes the
    target the source as it is, without prefix or suffix; when neither
    holds, it makes the target empty. *)
Theorem useSourceAsTarget_icu_source (isICUMessage : string -> bool)
  (file : ITranslationMessagesFile) (isDefaultLang copyContent : bool) :
  (forall e,
     hasSource e = true ->
     isICUMessage (XliffTransUnit.sourceContent e) = true ->
     exists e',
       XliffTransUnit.useSourceAsTarget isICUMessage file isDefaultLang
         copyContent e = (e', Return tt)
       /\ XliffTransUnit.targetContent e'
          = (if isDefaultLang || copyContent
             then XliffTransUnit.sourceContent e else EmptyString))
  /\
  (forall e,
     hasSource e = true ->
     isICUMessage (Xliff2TransUnit.sourceContent e) = true ->
     exists e',
       Xliff2TransUnit.useSourceAsTarget isICUMessage file isDefaultLang
         copyContent e = (e', Return tt)
       /\ Xliff2TransUnit.targetContent e'
          = (if isDefaultLang || copyContent
             then Xliff2TransUnit.sourceContent e else EmptyString)).
Proof.
  split.
  - intros e Hsrc Hicu.
    destruct (Xliff_useSourceAsTarget_total isICUMessage file isDefaultLang
                copyContent e Hsrc) as (e' & Hrun & Hc & _).
    exists e'. split; [done |].
    rewrite Hc. unfold synthesized. by rewrite Hicu.
  - intros e Hsrc Hicu.
    destruct (Xliff2_useSourceAsTarget_total isICUMessage file isDefaultLang
                copyContent e Hsrc) as (e' & Hrun & Hc & _).
    exists e'. split; [done |].
    rewrite Hc. unfold synthesized. by rewrite Hicu.
Qed.

Lemma useSourceAsTarget_icu_source_witness :
  (exists e',
     XliffTransUnit.useSourceAsTarget startsPlural sampleFile false true
       pluralUnit = (e', Return tt)
     /\ XliffTransUnit.targetContent e' = pluralMessage)
  /\ (exists e',
     Xliff2TransUnit.useSourceAsTarget startsPlural sampleFile true false
       pluralUnit2 = (e', Return tt)
     /\ Xliff2TransUnit.targetContent e' = pluralMessage).
Proof.
  split.
  - exact (proj1 (useSourceAsTarget_icu_source startsPlural sampleFile
                    false true) pluralUnit eq_refl eq_refl).
  - exact (proj2 (useSourceAsTarget_icu_source startsPlural sampleFile
                    true false) pluralUnit2 eq_refl eq_refl).
Defined.

(** ** Translating a unit *)




(** ** Cloning a unit *)

Section CloneFacts.
Variable use : ITranslationMessagesFile -> bool -> bool -> DOM unit.

End CloneFacts.



(** ** Notes *)

(** *** Note elements that sit side by side *)

Lemma elementsFrom_flat (c : Node) :
  noElementBelow "note" c = true ->
  elementsFrom "note" c = if isNoteElement c then [[]] else [].
Proof.
  unfold noElementBelow. intros H%bool_decide_eq_true.
  rewrite elementsFrom_unfold, H, app_nil_r. by destruct c.
Qed.

Lemma childrenFrom_flat_cons (i : nat) (c : Node) (cs : list Node) :
  noElementBelow "note" c = true ->
  childrenFrom (elementsFrom "note") i (c :: cs)
  = (if isNoteElement c then [[i]] else [])
      ++ childrenFrom (elementsFrom "note") (S i) cs.
Proof.
  intros H. simpl. rewrite (elementsFrom_flat c H). by destruct (isNoteElement c).
Qed.

(** What is read off the note elements among [cs], through their paths or
    on the elements themselves. *)
Lemma flat_select {X : Type} (F : Path -> bool) (G : Path -> X)
  (f : Node -> bool) (g : Node -> X) (i : nat) (cs : list Node) :
  forallb (noElementBelow "note") cs = true ->
  (forall j c, cs !! j = Some c -> F [i + j] = f c /\ G [i + j] = g c) ->
  map G (filter (fun p => F p = true)
           (childrenFrom (elementsFrom "note") i cs))
  = map g (filter (fun c => isNoteElement c && f c = true) cs).
Proof.
  revert i. induction cs as [| c cs IH]; intros i Hflat Hrel; [done |].
  simpl in Hflat. apply andb_true_iff in Hflat as [Hc Hcs].
  rewrite (childrenFrom_flat_cons i c cs Hc), filter_app, map_app, filter_cons.
  destruct (Hrel 0 c eq_refl) as [HF HG]. rewrite Nat.add_0_r in HF, HG.
  rewrite (IH (S i) Hcs).
  2:{ intros j c' Hj. specialize (Hrel (S j) c' Hj).
      by replace (i + S j) with (S i + j) in Hrel by lia. }
  destruct (isNoteElement c); simpl.
  - rewrite filter_cons, filter_nil, HF.
    destruct (decide (f c = true)); simpl; [by rewrite HG | done].
  - done.
Qed.

Lemma forEach_app {A : Type} (l1 l2 : list A) (body : A -> DOM unit) (e : Node) :
  forEach (l1 ++ l2) body e = (forEach l1 body ;; forEach l2 body) e.
Proof.
  revert e. induction l1 as [| x l1 IH]; intros e; simpl; [done |].
  unfold bind in *. destruct (body x e) as [e' [[] | err]]; [| done].
  apply IH.
Qed.

Lemma isAdditional_node (name : string) (e : Node) (p : Path) (c : Node) :
  nodeAt p e = Some c -> isAdditional name e p = additionalNode name c.
Proof.
  intros H. unfold isAdditional, hasAttributeValue, getAttribute,
    additionalNode, hasValue. by rewrite H.
Qed.

Lemma hasAttributeValue_node (name value : string) (e : Node) (p : Path)
  (c : Node) :
  nodeAt p e = Some c -> hasAttributeValue name value e p = hasValue name value c.
Proof.
  intros H. unfold hasAttributeValue, getAttribute, hasValue. by rewrite H.
Qed.

Lemma note_at_node (name : string) (e : Node) (p : Path) (c : Node) :
  nodeAt p e = Some c ->
  {| from := getAttribute p name e; text := getPCDATA p e |} = noteOf name c.
Proof.
  intros H. unfold getAttribute, getPCDATA, noteOf. by rewrite H.
Qed.

(** *** XLIFF 1.2 *)

Lemma Xliff_notes_flat (tg : string) (a : list (string * string))
  (cs : list Node) :
  forallb (noElementBelow "note") cs = true ->
  XliffTransUnit.notes (Element tg a cs)
  = map (noteOf "from") (filter (fun c => isAdditionalNote12 c = true) cs).
Proof.
  intros Hflat. unfold XliffTransUnit.notes,
    XliffTransUnit.findAllAdditionalNoteElements, getElementsByTagName.
  simpl childNodesOf.
  apply (flat_select (isAdditional "from" (Element tg a cs))); [done |].
  intros j c Hj. simpl.
  split; [apply isAdditional_node | apply note_at_node]; simpl; by rewrite Hj.
Qed.

Lemma Xliff_removeChildren_flat (F : Path -> bool) (tg : string)
  (a : list (string * string)) (cs K : list Node) (i r : nat) :
  forallb (noElementBelow "note") cs = true ->
  (forall j c, cs !! j = Some c -> F [i + j] = additionalNode "from" c) ->
  i = length K + r ->
  XliffTransUnit.removeChildren r
    (filter (fun p => F p = true) (childrenFrom (elementsFrom "note") i cs))
    (Element tg a (K ++ cs))
  = (Element tg a (K ++ filter (fun c => isAdditionalNote12 c = false) cs),
     Return tt).
Proof.
  revert K i r. induction cs as [| c cs IH]; intros K i r Hflat Hrel Hi; [done |].
  simpl in Hflat. apply andb_true_iff in Hflat as [Hc Hcs].
  rewrite (childrenFrom_flat_cons i c cs Hc), filter_app.
  pose proof (Hrel 0 c eq_refl) as HF. rewrite Nat.add_0_r in HF.
  assert (Hrel' : forall j c', cs !! j = Some c' ->
                    F [S i + j] = additionalNode "from" c').
  { intros j c' Hj. specialize (Hrel (S j) c' Hj).
    by replace (i + S j) with (S i + j) in Hrel by lia. }
  destruct (isAdditionalNote12 c) eqn:HP.
  - rewrite (filter_cons_False _ c) by (by rewrite HP).
    unfold isAdditionalNote12 in HP. apply andb_true_iff in HP as [Hn Ha].
    rewrite Hn. rewrite filter_cons_True by congruence. rewrite filter_nil.
    simpl. unfold bind, modify. simpl.
    replace (i - r) with (length K) by lia. rewrite delete_middle.
    apply (IH K (S i) (S r)); [done | done | lia].
  - rewrite (filter_cons_True _ c) by done.
    assert (filter (fun p => F p = true) (if isNoteElement c then [[i]] else [])
            = []) as ->.
    { unfold isAdditionalNote12 in HP. destruct (isNoteElement c); [| done].
      simpl in HP. rewrite filter_cons_False, filter_nil; [done |]. congruence. }
    simpl. rewrite (cons_middle c K cs), (cons_middle c K (filter _ cs)).
    rewrite !app_assoc.
    apply (IH (K ++ [c]) (S i) r); [done | done |]. rewrite length_app. simpl. lia.
Qed.

Lemma Xliff_remove_flat (tg : string) (a : list (string * string))
  (cs : list Node) :
  forallb (noElementBelow "note") cs = true ->
  XliffTransUnit.removeAllAdditionalNoteElements (Element tg a cs)
  = (Element tg a (filter (fun c => isAdditionalNote12 c = false) cs),
     Return tt).
Proof.
  intros Hflat. unfold XliffTransUnit.removeAllAdditionalNoteElements,
    XliffTransUnit.findAllAdditionalNoteElements, bind, gets,
    getElementsByTagName. simpl childNodesOf.
  apply (Xliff_removeChildren_flat (isAdditional "from" (Element tg a cs))
           tg a cs [] 0 0); [done | | done].
  intros j c Hj. apply isAdditional_node. simpl. by rewrite Hj.
Qed.

Lemma Xliff_create_all (tg : string) (a : list (string * string))
  (cs : list Node) (l : list INote) :
  forEach l (fun note =>
    XliffTransUnit.createNoteElementWithFromAttribute (from note) (text note) ;;
    ret tt) (Element tg a cs)
  = (Element tg a (cs ++ map noteElement12 l), Return tt).
Proof.
  revert cs. induction l as [| n l IH]; intros cs; simpl.
  - by rewrite app_nil_r.
  - unfold bind at 1. unfold XliffTransUnit.createNoteElementWithFromAttribute,
      bind, appendChild, ret. simpl.
    rewrite firstn_all, drop_all. rewrite IH. by rewrite <- app_assoc.
Qed.



Lemma noElementBelow_noteElement (attrs : list (string * string))
  (content : string) :
  noElementBelow "note" (noteElement attrs content) = true.
Proof. unfold noElementBelow. apply bool_decide_eq_true. by destruct content. Qed.

Lemma filter_none {A : Type} (P : A -> Prop) `{!forall x, Decision (P x)}
  (l : list A) :
  Forall (fun x => ~ P x) l -> filter P l = [].
Proof.
  induction 1 as [| x l Hx _ IH]; [done |]. by rewrite filter_cons_False.
Qed.

Lemma filter_all {A : Type} (P : A -> Prop) `{!forall x, Decision (P x)}
  (l : list A) :
  Forall P l -> filter P l = l.
Proof.
  induction 1 as [| x l Hx _ IH]; [done |]. rewrite filter_cons_True by done.
  by rewrite IH.
Qed.

Lemma existsb_false_Forall {A : Type} (f : A -> bool) (l : list A) :
  existsb f l = false -> Forall (fun x => f x = false) l.
Proof.
  induction l as [| x l IH]; simpl; [constructor |].
  intros [Hx Hl]%orb_false_iff. constructor; [done | by apply IH].
Qed.

Lemma forallb_Forall {A : Type} (f : A -> bool) (l : list A) :
  forallb f l = true <-> Forall (fun x => f x = true) l.
Proof.
  induction l as [| x l IH]; simpl; [by split; [constructor |] |].
  rewrite andb_true_iff, IH. split.
  - intros []. by constructor.
  - intros H. by inversion H.
Qed.


(** *** XLIFF 2.0: the notes element *)

Lemma filter_fmap {A B : Type} (f : A -> B) (P : B -> Prop)
  `{!forall y, Decision (P y)} (l : list A) :
  filter P (f <$> l) = f <$> filter (fun x => P (f x)) l.
Proof.
  induction l as [| x l IH]; [done |]. rewrite fmap_cons.
  rewrite !filter_cons, IH. by destruct (decide (P (f x))).
Qed.

Lemma plainNode_spec (c : Node) :
  plainNode c = true ->
  elementsFrom "note" c = [] /\ elementsFrom "notes" c = [].
Proof.
  unfold plainNode, noElementAt. intros [H1 H2]%andb_true_iff.
  by apply bool_decide_eq_true in H1, H2.
Qed.

Lemma plainNoteChild_spec (c : Node) :
  plainNoteChild c = true ->
  noElementBelow "note" c = true /\ elementsFrom "notes" c = [].
Proof.
  unfold plainNoteChild, noElementAt. intros [H1 H2]%andb_true_iff.
  by apply bool_decide_eq_true in H2.
Qed.

Lemma notesInContainer_shape (cs : list Node) :
  notesInContainer cs = true ->
  forallb plainNode cs = true
  \/ exists pre na ns post,
       cs = pre ++ Element "notes" na ns :: post
       /\ forallb plainNode pre = true
       /\ forallb plainNoteChild ns = true
       /\ forallb plainNode post = true.
Proof.
  induction cs as [| c cs IH]; simpl; [by left |].
  destruct c as [d | tg a ns].
  - intros [H | (pre & na & ns & post & -> & H1 & H2 & H3)]%IH.
    + left. by rewrite H.
    + right. exists (TextNode d :: pre), na, ns, post. simpl. by rewrite H1.
  - destruct (String.eqb_spec tg "notes") as [-> | Hne].
    + intros [H1 H2]%andb_true_iff. right. by exists [], a, ns, cs.
    + intros [Hc [H | (pre & na & ns' & post & -> & H1 & H2 & H3)]%IH]%andb_true_iff.
      * left. by rewrite Hc, H.
      * right. exists (Element tg a ns :: pre), na, ns', post. simpl.
        by rewrite Hc, H1.
Qed.

Section Shape.
Variable tg : string.
Variable a : list (string * string).
Variable pre : list Node.
Variable na : list (string * string).
Variable post : list Node.
Hypothesis Hpre : forallb plainNode pre = true.
Hypothesis Hpost : forallb plainNode post = true.

Lemma plain_children_none (t : string) (i : nat) (cs : list Node) :
  t = "note" \/ t = "notes" ->
  forallb plainNode cs = true -> childrenFrom (elementsFrom t) i cs = [].
Proof.
  intros Ht H. apply childrenFrom_empty. apply forallb_Forall in H.
  eapply Forall_impl; [exact H |]. intros c [H1 H2]%plainNode_spec.
  by destruct Ht as [-> | ->].
Qed.

Lemma shape_note_elements (ns : list Node) :
  getElementsByTagName "note" (unitWithNotes tg a pre na ns post)
  = map (cons (length pre)) (childrenFrom (elementsFrom "note") 0 ns).
Proof.
  unfold getElementsByTagName, unitWithNotes. simpl childNodesOf.
  rewrite childrenFrom_app. simpl.
  rewrite (plain_children_none "note" _ pre), (plain_children_none "note" _ post)
    by auto.
  by rewrite app_nil_r.
Qed.

Lemma shape_first_notes (ns : list Node) :
  getFirstElementByTagName "notes" (unitWithNotes tg a pre na ns post)
  = Some [length pre].
Proof.
  unfold getFirstElementByTagName, getElementsByTagName, unitWithNotes.
  simpl childNodesOf. rewrite childrenFrom_app. simpl.
  by rewrite (plain_children_none "notes" _ pre) by auto.
Qed.

Lemma shape_nodeAt_notes (ns : list Node) :
  nodeAt [length pre] (unitWithNotes tg a pre na ns post)
  = Some (Element "notes" na ns).
Proof. unfold unitWithNotes. simpl. by rewrite list_lookup_middle. Qed.

Lemma shape_nodeAt_note (ns : list Node) (j : nat) :
  nodeAt [length pre; j] (unitWithNotes tg a pre na ns post) = ns !! j.
Proof.
  unfold unitWithNotes. simpl. rewrite list_lookup_middle by done. simpl.
  by destruct (ns !! j).
Qed.

Lemma shape_update_notes (f : Node -> Node) (ns : list Node) :
  updateAt [length pre] f (unitWithNotes tg a pre na ns post)
  = Element tg a (pre ++ f (Element "notes" na ns) :: post).
Proof.
  unfold unitWithNotes. simpl. f_equal.
  replace (length pre) with (length pre + 0) at 1 by lia.
  by rewrite alter_app_r.
Qed.

Lemma shape_removeNode (ns : list Node) (j : nat) :
  removeNode [length pre; j] (unitWithNotes tg a pre na ns post)
  = (unitWithNotes tg a pre na (delete j ns) post, Return tt).
Proof.
  unfold removeNode.
  assert (parentAndIndex [length pre; j] = Some ([length pre], j)) as -> by done.
  unfold modify. by rewrite shape_update_notes.
Qed.

Lemma childrenFrom_flat_snoc (ns : list Node) (c : Node) :
  noElementBelow "note" c = true ->
  childrenFrom (elementsFrom "note") 0 (ns ++ [c])
  = childrenFrom (elementsFrom "note") 0 ns
      ++ (if isNoteElement c then [[length ns]] else []).
Proof.
  intros Hc. rewrite childrenFrom_app, (childrenFrom_flat_cons _ c [] Hc).
  simpl. by rewrite app_nil_r.
Qed.

(** Taking out the note elements among [ns0] that [F] selects. *)
Lemma shape_removeEach (F : Path -> bool) (f : Node -> bool)
  (ns0 tail : list Node) :
  forallb (noElementBelow "note") ns0 = true ->
  (forall j c, ns0 !! j = Some c -> F [length pre; j] = f c) ->
  Xliff2TransUnit.removeEach
    (filter (fun p => F p = true)
       (map (cons (length pre)) (childrenFrom (elementsFrom "note") 0 ns0)))
    (unitWithNotes tg a pre na (ns0 ++ tail) post)
  = (unitWithNotes tg a pre na
       (filter (fun c => isNoteElement c && f c = false) ns0 ++ tail) post,
     Return tt).
Proof.
  unfold Xliff2TransUnit.removeEach. revert tail.
  induction ns0 as [| c ns0 IH] using rev_ind; intros tail Hflat Hrel; [done |].
  apply forallb_Forall, Forall_app in Hflat as [Hns Hc].
  rewrite Forall_singleton in Hc. apply forallb_Forall in Hns.
  assert (Hrel0 : forall j c', ns0 !! j = Some c' -> F [length pre; j] = f c').
  { intros j c' Hj. apply Hrel. by apply lookup_app_l_Some. }
  assert (HF : F [length pre; length ns0] = f c).
  { apply Hrel. by rewrite list_lookup_middle. }
  rewrite (childrenFrom_flat_snoc ns0 c Hc), map_app, filter_app, reverse_app.
  rewrite forEach_app, filter_app, <- app_assoc. simpl.
  destruct (isNoteElement c && f c) eqn:HP.
  - apply andb_true_iff in HP as [Hn Hf]. rewrite Hn. simpl.
    rewrite filter_cons_True, filter_nil by congruence.
    rewrite (filter_cons_False _ c) by (rewrite Hn, Hf; done).
    rewrite filter_nil, reverse_singleton, app_nil_r. cbn [forEach].
    unfold bind. rewrite shape_removeNode. unfold ret. cbv beta iota.
    rewrite delete_middle. by apply IH.
  - rewrite (filter_cons_True _ c) by done. rewrite filter_nil.
    assert (filter (fun p => F p = true)
              (map (cons (length pre))
                 (if isNoteElement c then [[length ns0]] else [])) = []) as ->.
    { destruct (isNoteElement c); [| done]. simpl in *.
      rewrite filter_cons_False, filter_nil; [done |]. congruence. }
    rewrite <- (app_assoc _ [c] tail). change (reverse []) with (@nil Path).
    cbn [forEach]. unfold bind at 1. unfold ret at 1. by apply IH.
Qed.
End Shape.

Lemma plainNoteChild_flat (ns : list Node) :
  forallb plainNoteChild ns = true ->
  forallb (noElementBelow "note") ns = true.
Proof.
  rewrite !forallb_Forall. intros H. eapply Forall_impl; [exact H |].
  by intros c [Hc _]%plainNoteChild_spec.
Qed.

Section ShapeNotes.
Variable tg : string.
Variable a : list (string * string).
Variable pre : list Node.
Variable na : list (string * string).
Variable post : list Node.
Hypothesis Hpre : forallb plainNode pre = true.
Hypothesis Hpost : forallb plainNode post = true.

Lemma shape_notes (ns : list Node) :
  forallb plainNoteChild ns = true ->
  Xliff2TransUnit.notes (unitWithNotes tg a pre na ns post)
  = map (noteOf "category") (filter (fun c => isAdditionalNote20 c = true) ns).
Proof.
  intros Hns%plainNoteChild_flat.
  unfold Xliff2TransUnit.notes, Xliff2TransUnit.findAllAdditionalNoteElements.
  rewrite shape_note_elements by done.
  rewrite filter_fmap, map_map.
  apply (flat_select
           (fun p => isAdditional "category"
                       (unitWithNotes tg a pre na ns post) (length pre :: p)));
    [done |].
  intros j c Hj. simpl "+".
  split; [apply isAdditional_node | apply note_at_node];
    by rewrite shape_nodeAt_note.
Qed.

Lemma shape_sourceReferences (parseInt : string -> number) (ns : list Node) :
  forallb plainNoteChild ns = true ->
  Xliff2TransUnit.sourceReferences parseInt (unitWithNotes tg a pre na ns post)
  = map (fun c => Xliff2TransUnit.parseSourceAndPos parseInt (pcdataOf c))
      (filter (fun c => isLocationElement c = true) ns).
Proof.
  intros Hns%plainNoteChild_flat.
  unfold Xliff2TransUnit.sourceReferences.
  rewrite shape_note_elements by done.
  rewrite filter_fmap, map_map.
  apply (flat_select
           (fun p => hasAttributeValue "category" "location"
                       (unitWithNotes tg a pre na ns post) (length pre :: p)));
    [done |].
  intros j c Hj. simpl "+".
  split; [apply hasAttributeValue_node; by rewrite shape_nodeAt_note |].
  unfold getPCDATA. by rewrite shape_nodeAt_note, Hj.
Qed.
End ShapeNotes.

Lemma plain_unit_no_notes (tg : string) (a : list (string * string))
  (cs : list Node) :
  forallb plainNode cs = true ->
  getElementsByTagName "note" (Element tg a cs) = []
  /\ getFirstElementByTagName "notes" (Element tg a cs) = None.
Proof.
  intros H. unfold getFirstElementByTagName, getElementsByTagName.
  simpl childNodesOf. by rewrite !plain_children_none by auto.
Qed.

(** A source reference of XLIFF 2.0 is a note: what [sourceReferences]
    reports are the notes of origin [location] that [notes] returns. *)
Lemma sourceReferences_are_notes (parseInt : string -> number) (e : Node) :
  Xliff2TransUnit.sourceReferences parseInt e
  = map (fun note => Xliff2TransUnit.parseSourceAndPos parseInt (text note))
      (filter (fun note => isLocationNote note = true)
         (Xliff2TransUnit.notes e)).
Proof.
  unfold Xliff2TransUnit.sourceReferences, Xliff2TransUnit.notes,
    Xliff2TransUnit.findAllAdditionalNoteElements.
  rewrite filter_fmap, map_map, list_filter_filter. simpl.
  f_equal. apply list_filter_iff. intros p.
  unfold isLocationNote, isAdditional, hasAttributeValue. simpl.
  destruct (getAttribute p "category" e) as [v |]; [| by split; [| intros []]].
  destruct (String.eqb_spec v "location") as [-> |]; [by split | by split; [| intros []]].
Qed.

(** *** XLIFF 2.0: what the note methods do to the notes element *)

Lemma flat_no_note_paths (i : nat) (ns : list Node) :
  forallb (noElementBelow "note") ns = true ->
  existsb isNoteElement ns = false ->
  childrenFrom (elementsFrom "note") i ns = [].
Proof.
  revert i. induction ns as [| c ns IH]; intros i Hflat Hnone; [done |].
  simpl in Hflat, Hnone. apply andb_true_iff in Hflat as [Hc Hns].
  apply orb_false_iff in Hnone as [Hn Hnone].
  rewrite (childrenFrom_flat_cons i c ns Hc), Hn. simpl. by apply IH.
Qed.

Lemma flat_some_note_path (i : nat) (ns : list Node) :
  forallb (noElementBelow "note") ns = true ->
  existsb isNoteElement ns = true ->
  childrenFrom (elementsFrom "note") i ns <> [].
Proof.
  revert i. induction ns as [| c ns IH]; intros i Hflat Hsome; [done |].
  simpl in Hflat, Hsome. apply andb_true_iff in Hflat as [Hc Hns].
  rewrite (childrenFrom_flat_cons i c ns Hc).
  destruct (isNoteElement c); [done |]. simpl in *. by apply IH.
Qed.

Section ShapeWrites.
Variable tg : string.
Variable a : list (string * string).
Variable pre : list Node.
Variable na : list (string * string).
Variable post : list Node.
Hypothesis Hpre : forallb plainNode pre = true.
Hypothesis Hpost : forallb plainNode post = true.

Lemma shape_remove_notes_element (ns : list Node) :
  removeNode [length pre] (unitWithNotes tg a pre na ns post)
  = (Element tg a (pre ++ post), Return tt).
Proof.
  unfold removeNode.
  assert (parentAndIndex [length pre] = Some ([], length pre)) as -> by done.
  unfold modify, unitWithNotes. simpl. by rewrite delete_middle.
Qed.

Lemma shape_removeNotesElementIfEmpty (ns : list Node) :
  forallb (noElementBelow "note") ns = true ->
  Xliff2TransUnit.removeNotesElementIfEmpty (unitWithNotes tg a pre na ns post)
  = (if existsb isNoteElement ns
     then unitWithNotes tg a pre na ns post
     else Element tg a (pre ++ post), Return tt).
Proof.
  intros Hflat. unfold Xliff2TransUnit.removeNotesElementIfEmpty, bind, gets.
  rewrite shape_first_notes by done.
  unfold getFirstElementByTagName. rewrite shape_note_elements by done.
  destruct (existsb isNoteElement ns) eqn:Hany.
  - pose proof (flat_some_note_path 0 ns Hflat Hany) as Hne.
    by destruct (childrenFrom (elementsFrom "note") 0 ns).
  - rewrite (flat_no_note_paths 0 ns Hflat Hany). simpl.
    apply shape_remove_notes_element.
Qed.

Lemma shape_appendChild (child : Node) (ns : list Node) :
  appendChild [length pre] child (unitWithNotes tg a pre na ns post)
  = (unitWithNotes tg a pre na (ns ++ [child]) post,
     Return [length pre; length ns]).
Proof.
  unfold appendChild. rewrite shape_nodeAt_notes.
  rewrite shape_update_notes. unfold insertChild. simpl.
  by rewrite firstn_all, drop_all.
Qed.

Lemma shape_append_all {A : Type} (mk : A -> Node) (l : list A)
  (ns : list Node) :
  forEach l (fun x => appendChild [length pre] (mk x) ;; ret tt)
    (unitWithNotes tg a pre na ns post)
  = (unitWithNotes tg a pre na (ns ++ map mk l) post, Return tt).
Proof.
  revert ns. induction l as [| x l IH]; intros ns; simpl.
  - by rewrite app_nil_r.
  - unfold bind at 1. unfold bind at 1. rewrite shape_appendChild.
    unfold ret at 1. rewrite IH. by rewrite <- app_assoc.
Qed.

Lemma shape_create_all (l : list INote) (ns : list Node) :
  forEach l (fun note =>
    Xliff2TransUnit.createNoteElementWithCategoryAttribute (from note)
      (text note) ;; ret tt)
    (unitWithNotes tg a pre na ns post)
  = (unitWithNotes tg a pre na (ns ++ map noteElement20 l) post, Return tt).
Proof.
  revert ns. induction l as [| x l IH]; intros ns; simpl.
  - by rewrite app_nil_r.
  - unfold bind at 1. unfold bind at 1.
    unfold Xliff2TransUnit.createNoteElementWithCategoryAttribute.
    unfold bind at 1. unfold gets at 1. rewrite shape_first_notes by done.
    unfold bind at 1. unfold ret at 1.
    rewrite shape_appendChild.
    unfold ret at 1. rewrite IH. by rewrite <- app_assoc.
Qed.
End ShapeWrites.

Lemma noteOf_noteElement20 (note : INote) :
  noteOf "category" (noteElement20 note) = storedNote note.
Proof.
  unfold noteOf, noteElement20, storedNote, noteElement, originAttribute.
  destruct note as [[o |] t]; simpl.
  - destruct o; simpl; by destruct t.
  - by destruct t.
Qed.

Lemma isAdditionalNote20_noteElement20 (note : INote) :
  isReservedOrigin note = false -> isAdditionalNote20 (noteElement20 note) = true.
Proof.
  unfold isReservedOrigin, isAdditionalNote20, noteElement20, noteElement,
    originAttribute, additionalNode, hasValue.
  destruct note as [[o |] t]; simpl; [| done].
  destruct o as [| c o]; simpl; [done |].
  intros H. apply orb_false_iff in H as [-> ->]. done.
Qed.

Lemma plainNoteChild_noteElement (attrs : list (string * string))
  (content : string) :
  plainNoteChild (noteElement attrs content) = true.
Proof.
  unfold plainNoteChild, noElementBelow, noElementAt.
  apply andb_true_iff. split; apply bool_decide_eq_true; by destruct content.
Qed.

Lemma noteOf_locationElement (ref : SourceReference) :
  noteOf "category" (locationElement ref) = locationNote ref.
Proof. done. Qed.

Lemma plainNoteChild_locationElement (ref : SourceReference) :
  plainNoteChild (locationElement ref) = true.
Proof. done. Qed.

Lemma isAdditionalNote20_locationElement (ref : SourceReference) :
  isAdditionalNote20 (locationElement ref) = true.
Proof. done. Qed.

(** The notes of a unit whose notes element got the elements [mk x]
    appended. *)
Lemma shape_notes_appended {A : Type} (mk : A -> Node) (l : list A)
  (tg : string) (a : list (string * string)) (pre : list Node)
  (na : list (string * string)) (ns post : list Node) :
  forallb plainNode pre = true -> forallb plainNode post = true ->
  forallb plainNoteChild ns = true ->
  (forall x, x ∈ l ->
     plainNoteChild (mk x) = true /\ isAdditionalNote20 (mk x) = true) ->
  Xliff2TransUnit.notes (unitWithNotes tg a pre na (ns ++ map mk l) post)
  = map (noteOf "category") (filter (fun c => isAdditionalNote20 c = true) ns)
      ++ map (fun x => noteOf "category" (mk x)) l.
Proof.
  intros Hpre Hpost Hns Hmk. rewrite shape_notes; [| done | done |].
  - rewrite filter_app, map_app. f_equal.
    rewrite filter_all; [by rewrite map_map |].
    apply Forall_fmap, Forall_forall. intros x Hx. by apply Hmk.
  - apply forallb_Forall, Forall_app. split; [by apply forallb_Forall |].
    apply Forall_fmap, Forall_forall. intros x Hx. by apply Hmk.
Qed.

Lemma root_appendChild (tg : string) (a : list (string * string))
  (cs : list Node) (child : Node) :
  appendChild [] child (Element tg a cs)
  = (Element tg a (cs ++ [child]), Return [length cs]).
Proof.
  unfold appendChild, insertChild. simpl. by rewrite firstn_all, drop_all.
Qed.

Lemma plain_create_one (tg : string) (a : list (string * string))
  (cs : list Node) (note : INote) :
  forallb plainNode cs = true ->
  Xliff2TransUnit.createNoteElementWithCategoryAttribute (from note)
    (text note) (Element tg a cs)
  = (unitWithNotes tg a cs [] [noteElement20 note] [], Return [length cs; 0]).
Proof.
  intros Hcs. unfold Xliff2TransUnit.createNoteElementWithCategoryAttribute.
  unfold bind at 1. unfold gets at 1.
  rewrite (proj2 (plain_unit_no_notes tg a cs Hcs)).
  unfold bind at 1. rewrite root_appendChild.
  change (Element tg a (cs ++ [Element "notes" [] []]))
    with (unitWithNotes tg a cs [] [] []).
  by rewrite shape_appendChild.
Qed.

Lemma plain_create_all (tg : string) (a : list (string * string))
  (cs : list Node) (l : list INote) :
  forallb plainNode cs = true ->
  forEach l (fun note =>
    Xliff2TransUnit.createNoteElementWithCategoryAttribute (from note)
      (text note) ;; ret tt) (Element tg a cs)
  = (match l with
     | [] => Element tg a cs
     | _ :: _ => unitWithNotes tg a cs [] (map noteElement20 l) []
     end, Return tt).
Proof.
  intros Hcs. destruct l as [| x l]; [done |]. cbn [forEach].
  unfold bind at 1. unfold bind at 1. rewrite plain_create_one by done.
  unfold ret at 1. by rewrite shape_create_all.
Qed.

(** After the additional notes are gone, creating the notes [l] makes them
    the notes of the unit. *)
Lemma Xliff2_created_notes_plain (tg : string) (a : list (string * string))
  (cs : list Node) (l : list INote) :
  forallb plainNode cs = true ->
  existsb isReservedOrigin l = false ->
  exists e',
    forEach l (fun note =>
      Xliff2TransUnit.createNoteElementWithCategoryAttribute (from note)
        (text note) ;; ret tt) (Element tg a cs) = (e', Return tt)
    /\ Xliff2TransUnit.notes e' = map storedNote l.
Proof.
  intros Hcs Hok%existsb_false_Forall. eexists.
  split; [by apply plain_create_all |].
  destruct l as [| x l].
  - unfold Xliff2TransUnit.notes, Xliff2TransUnit.findAllAdditionalNoteElements.
    by rewrite (proj1 (plain_unit_no_notes tg a cs Hcs)).
  - rewrite <- (app_nil_l (map noteElement20 (x :: l))).
    rewrite shape_notes_appended; [| done | done | done |].
    + simpl. f_equal; [apply noteOf_noteElement20 |].
      apply map_ext. intros n. apply noteOf_noteElement20.
    + intros n Hn. split; [apply plainNoteChild_noteElement |].
      apply isAdditionalNote20_noteElement20.
      rewrite Forall_forall in Hok. by apply Hok.
Qed.

Lemma Xliff2_created_notes_shape (tg : string) (a : list (string * string))
  (pre : list Node) (na : list (string * string)) (ns post : list Node)
  (l : list INote) :
  forallb plainNode pre = true -> forallb plainNode post = true ->
  forallb plainNoteChild ns = true ->
  filter (fun c => isAdditionalNote20 c = true) ns = [] ->
  existsb isReservedOrigin l = false ->
  exists e',
    forEach l (fun note =>
      Xliff2TransUnit.createNoteElementWithCategoryAttribute (from note)
        (text note) ;; ret tt) (unitWithNotes tg a pre na ns post)
    = (e', Return tt)
    /\ Xliff2TransUnit.notes e' = map storedNote l.
Proof.
  intros Hpre Hpost Hns Hnone Hok%existsb_false_Forall. eexists.
  split; [by apply shape_create_all |].
  rewrite shape_notes_appended; [| done | done | done |].
  - rewrite Hnone. simpl. apply map_ext. intros n. apply noteOf_noteElement20.
  - intros n Hn. split; [apply plainNoteChild_noteElement |].
    apply isAdditionalNote20_noteElement20.
    rewrite Forall_forall in Hok. by apply Hok.
Qed.

Lemma filter_filter_false {A : Type} (f : A -> bool) (l : list A) :
  filter (fun x => f x = true) (filter (fun x => f x = false) l) = [].
Proof.
  apply filter_none, Forall_forall. intros x [Hx _]%list_elem_of_filter. congruence.
Qed.

Lemma forallb_filter {A : Type} (f : A -> bool) (P : A -> Prop)
  `{!forall x, Decision (P x)} (l : list A) :
  forallb f l = true -> forallb f (filter P l) = true.
Proof.
  rewrite !forallb_Forall. intros Hall. apply Forall_forall.
  intros x [_ Hx]%list_elem_of_filter. rewrite Forall_forall in Hall.
  by apply Hall.
Qed.

Lemma plain_removeAll (tg : string) (a : list (string * string))
  (cs : list Node) :
  forallb plainNode cs = true ->
  Xliff2TransUnit.removeAllAdditionalNoteElements (Element tg a cs)
  = (Element tg a cs, Return tt).
Proof.
  intros Hplain. unfold Xliff2TransUnit.removeAllAdditionalNoteElements,
    Xliff2TransUnit.findAllAdditionalNoteElements,
    Xliff2TransUnit.removeNotesElementIfEmpty, bind, gets.
  rewrite (proj1 (plain_unit_no_notes tg a cs Hplain)). simpl.
  by rewrite (proj2 (plain_unit_no_notes tg a cs Hplain)).
Qed.

Lemma shape_removeAll (tg : string) (a : list (string * string))
  (pre : list Node) (na : list (string * string)) (ns post : list Node) :
  forallb plainNode pre = true -> forallb plainNode post = true ->
  forallb plainNoteChild ns = true ->
  Xliff2TransUnit.removeAllAdditionalNoteElements
    (unitWithNotes tg a pre na ns post)
  = (if existsb isNoteElement
          (filter (fun c => isAdditionalNote20 c = false) ns)
     then unitWithNotes tg a pre na
            (filter (fun c => isAdditionalNote20 c = false) ns) post
     else Element tg a (pre ++ post), Return tt).
Proof.
  intros Hpre Hpost Hns.
  unfold Xliff2TransUnit.removeAllAdditionalNoteElements,
    Xliff2TransUnit.findAllAdditionalNoteElements.
  unfold bind at 1. unfold gets at 1. unfold bind at 1.
  rewrite shape_note_elements by done.
  pose proof (plainNoteChild_flat ns Hns) as Hflat.
  pose proof (shape_removeEach tg a pre na post
                (isAdditional "category" (unitWithNotes tg a pre na ns post))
                (additionalNode "category") ns [] Hflat) as Hrem.
  rewrite !app_nil_r in Hrem. rewrite Hrem.
  2:{ intros j c Hj. apply isAdditional_node. by rewrite shape_nodeAt_note. }
  fold isAdditionalNote20.
  apply shape_removeNotesElementIfEmpty; [done | done |].
  by apply plainNoteChild_flat, forallb_filter.
Qed.

Lemma Xliff2_setNotes_shape (e : Node) (l : list INote) :
  notesAreInNotesElement e = true ->
  existsb isReservedOrigin l = false ->
  exists e',
    Xliff2TransUnit.setNotes (Some l) e = (e', Return tt)
    /\ Xliff2TransUnit.notes e' = map storedNote l.
Proof.
  intros He Hok. destruct e as [d | tg a cs]; [done |]. simpl in He.
  unfold Xliff2TransUnit.setNotes, checkNotes. rewrite Hok.
  unfold bind at 1. unfold ret at 1. unfold bind at 1.
  destruct (notesInContainer_shape cs He)
    as [Hplain | (pre & na & ns & post & -> & Hpre & Hns & Hpost)].
  - rewrite plain_removeAll by done. by apply Xliff2_created_notes_plain.
  - fold (unitWithNotes tg a pre na ns post).
    rewrite shape_removeAll by done.
    destruct (existsb isNoteElement _).
    + apply Xliff2_created_notes_shape; try done.
      * by apply forallb_filter.
      * apply filter_filter_false.
    + apply Xliff2_created_notes_plain; [| done].
      apply forallb_Forall, Forall_app. by rewrite <- !forallb_Forall.
Qed.

(** *** XLIFF 2.0: source references among the notes *)


Lemma plain_removeAllSourceReferences (tg : string)
  (a : list (string * string)) (cs : list Node) :
  forallb plainNode cs = true ->
  Xliff2TransUnit.removeAllSourceReferences (Element tg a cs)
  = (Element tg a cs, Return tt).
Proof.
  intros Hplain. unfold Xliff2TransUnit.removeAllSourceReferences, bind, gets.
  by rewrite (proj1 (plain_unit_no_notes tg a cs Hplain)).
Qed.

Lemma shape_removeAllSourceReferences (tg : string)
  (a : list (string * string)) (pre : list Node)
  (na : list (string * string)) (ns post : list Node) :
  forallb plainNode pre = true -> forallb plainNode post = true ->
  forallb plainNoteChild ns = true ->
  Xliff2TransUnit.removeAllSourceReferences (unitWithNotes tg a pre na ns post)
  = (unitWithNotes tg a pre na
       (filter (fun c => isLocationElement c = false) ns) post, Return tt).
Proof.
  intros Hpre Hpost Hns. unfold Xliff2TransUnit.removeAllSourceReferences.
  unfold bind at 1. unfold gets at 1.
  rewrite shape_note_elements by done.
  pose proof (plainNoteChild_flat ns Hns) as Hflat.
  pose proof (shape_removeEach tg a pre na post
                (hasAttributeValue "category" "location"
                   (unitWithNotes tg a pre na ns post))
                (hasValue "category" "location") ns [] Hflat) as Hrem.
  rewrite !app_nil_r in Hrem. apply Hrem.
  intros j c Hj. apply hasAttributeValue_node. by rewrite shape_nodeAt_note.
Qed.


(** *** Setting the notes *)




(** *** Notes and source references of XLIFF 2.0 *)





(** ** The XMB message parser *)

Import XmbMessageParser.

(** *** Names and payloads read back *)









Lemma ph_payload (name payload : string) :
  match getFirstElementByTagName "ex" (ph name payload) with
  | Some ex => getPCDATA ex (ph name payload)
  | None => EmptyString
  end = payload.
Proof. done. Qed.








(** *** Reading a display string *)

Lemma append_cons (x : ascii) (a b : string) :
  String x a +:+ b = String x (a +:+ b).
Proof. reflexivity. Qed.



Lemma length_append (a b : string) :
  String.length (a +:+ b) = String.length a + String.length b.
Proof.
  induction a as [| x a IH]; [done |]. rewrite append_cons. simpl.
  by rewrite IH.
Qed.













(** *** Serializing and parsing back *)






(** *** Tags closed out of turn *)

Lemma walk_app (pre rest : list Node) (openTags : list string) :
  walk openTags (pre ++ rest)
  = match walk openTags pre with
    | Return (parts, stillOpen) =>
        match walk stillOpen rest with
        | Return (parts', stillOpen') => Return (parts ++ parts', stillOpen')
        | Throw x => Throw x
        end
    | Throw x => Throw x
    end.
Proof.
  revert openTags. induction pre as [| child pre IH]; intros openTags.
  - simpl. by destruct (walk openTags rest) as [[] |].
  - assert (Hstep : forall part openTags',
      match walk openTags' (pre ++ rest) with
      | Return (parts, stillOpen) => Return (part :: parts, stillOpen)
      | Throw x => Throw x
      end
      = match
          match walk openTags' pre with
          | Return (parts, stillOpen) => Return (part :: parts, stillOpen)
          | Throw x => Throw x
          end
        with
        | Return (parts, stillOpen) =>
            match walk stillOpen rest with
            | Return (parts', stillOpen') => Return (parts ++ parts', stillOpen')
            | Throw x => Throw x
            end
        | Throw x => Throw x
        end).
    { intros part openTags'. rewrite IH.
      destruct (walk openTags' pre) as [[parts stillOpen] |]; [| done].
      by destruct (walk stillOpen rest) as [[] |]. }
    simpl. destruct child as [data | t attrs cs]; [apply Hstep |].
    destruct (recognizePlaceholderElement (Element t attrs cs))
      as [n | n | [] name |]; try apply Hstep; [| apply IH].
    destruct openTags as [| o others]; [done |].
    destruct (String.eqb o name); [apply Hstep | done].
Qed.

(** C6: a close marker for a tag that is not the one opened last, or with
    no tag open, makes the parse throw "unexpected close tag" with the name
    of that tag; no message is returned. *)
Theorem unexpected_close_tag (tagName : string)
  (attrs : list (string * string)) (pre rest : list Node) (node : Node)
  (name : string) (parts : list Part) (openTags : list string) :
  walk [] pre = Return (parts, openTags) ->
  recognizePlaceholderElement node = TagMarker End name ->
  head openTags <> Some name ->
  createNormalizedMessageFromXML (Element tagName attrs (pre ++ node :: rest))
  = Throw (Error ("unexpected close tag " +:+ name)).
Proof.
  intros Hpre Hnode Hopen. unfold createNormalizedMessageFromXML. simpl.
  rewrite walk_app, Hpre.
  destruct node as [data | t a cs]; [done |]. cbn [walk]. rewrite Hnode.
  destruct openTags as [| o others]; [done |].
  destruct (String.eqb_spec o name) as [-> |]; [| done]. by destruct Hopen.
Qed.

Lemma unexpected_close_tag_witness :
  createNormalizedMessageFromXML
    (Element "msg" [] (misnestedOpening ++ closeBold :: []))
  = Throw (Error "unexpected close tag b")
  /\ createNormalizedMessageFromXML
       (Element "msg" [] ([TextNode "never opened"] ++ closeBold :: []))
     = Throw (Error "unexpected close tag b").
Proof.
  split.
  - exact (unexpected_close_tag "msg" [] misnestedOpening [] closeBold "b"
             _ _ eq_refl eq_refl ltac:(discriminate)).
  - exact (unexpected_close_tag "msg" [] [TextNode "never opened"] []
             closeBold "b" _ _ eq_refl eq_refl ltac:(discriminate)).
Defined.

(** *** The expectations of the test suite *)

Example parse_bold_tag :
  (parseNormalizedString ["br"] "a text <b>with</b> a bold text"
   = Return [Text "a text "; TagStart "b"; Text "with"; TagEnd "b";
             Text " a bold text"])
  /\ asNativeString [Text "a text "; TagStart "b"; Text "with"; TagEnd "b";
                     Text " a bold text"]
     = Return ("a text " +:+ phXML "START_BOLD_TEXT" "&lt;b>" +:+ "with"
               +:+ phXML "CLOSE_BOLD_TEXT" "&lt;/b>" +:+ " a bold text").
Proof. split; reflexivity. Qed.

Example parse_two_placeholders :
  (parseNormalizedString ["br"] "{{1}}: a placeholder: {{0}}"
   = Return [Placeholder 1; Text ": a placeholder: "; Placeholder 0])
  /\ asNativeString [Placeholder 1; Text ": a placeholder: "; Placeholder 0]
     = Return (phXML "INTERPOLATION_1" "INTERPOLATION_1"
               +:+ ": a placeholder: "
               +:+ phXML "INTERPOLATION" "INTERPOLATION").
Proof. split; reflexivity. Qed.

Example parse_unknown_tag :
  asNativeString [Text "a text with "; TagStart "strange";
                  Text "strange emphasis"; TagEnd "strange"]
  = Return ("a text with " +:+ phXML "START_TAG_STRANGE" "&lt;strange>"
            +:+ "strange emphasis"
            +:+ phXML "CLOSE_TAG_STRANGE" "&lt;/strange>").
Proof. reflexivity. Qed.

Example parse_empty_tag :
  (parseNormalizedString ["br"] "one line<br>second line"
   = Return [Text "one line"; TagEmpty "br"; Text "second line"])
  /\ asNativeString [Text "one line"; TagEmpty "br"; Text "second line"]
     = Return ("one line" +:+ phXML "LINE_BREAK" "&lt;br>" +:+ "second line").
Proof. split; reflexivity. Qed.

Example parse_two_icu_references :
  createNormalizedMessageFromXML
    (Element "msg" []
       [TextNode "first: "; ph "ICU" "ICU"; TextNode ", second ";
        ph "ICU_1" "ICU"])
  = Return [Text "first: "; IcuRef 0; Text ", second "; IcuRef 1].
Proof. reflexivity. Qed.

(** * Further properties of the two classes *)

(** ** States written and read back *)

(** X1: a state that [mapStateToNativeState] accepts is read back from its
    token by [mapNativeStateToState], in XLIFF 1.2 and in XLIFF 2.0. *)
Theorem state_token_read_back (state token : string) :
  (XliffTransUnit.mapStateToNativeState state = Return token ->
   XliffTransUnit.mapNativeStateToState (Some token) = state)
  /\ (Xliff2TransUnit.mapStateToNativeState state = Return token ->
      Xliff2TransUnit.mapNativeStateToState (Some token) = state).
Proof.
  unfold XliffTransUnit.mapStateToNativeState, XliffState.mapStateToNativeState,
    Xliff2TransUnit.mapStateToNativeState, Xliff2State.mapStateToNativeState.
  split; intros H;
    destruct (String.eqb_spec state STATE_NEW) as [-> |];
      [by injection H as <- | |by injection H as <- |];
    destruct (String.eqb_spec state STATE_TRANSLATED) as [-> |];
      try (by injection H as <-);
    destruct (String.eqb_spec state STATE_FINAL) as [-> |];
      try (by injection H as <-); discriminate H.
Qed.

Lemma state_token_read_back_witness :
  XliffTransUnit.mapNativeStateToState (Some "final") = STATE_FINAL
  /\ Xliff2TransUnit.mapNativeStateToState (Some "initial") = STATE_NEW.
Proof.
  split.
  - exact (proj1 (state_token_read_back STATE_FINAL "final") eq_refl).
  - exact (proj2 (state_token_read_back STATE_NEW "initial") eq_refl).
Defined.

Lemma getFirst_setAttribute (t : string) (q : Path) (k v : string) (e : Node) :
  getFirstElementByTagName t (updateAt q (withAttribute k v) e)
  = getFirstElementByTagName t e.
Proof.
  unfold getFirstElementByTagName. by rewrite getElements_setAttribute.
Qed.

Lemma childNodesOf_withAttribute (k v : string) (n : Node) :
  childNodesOf (withAttribute k v n) = childNodesOf n.
Proof. by destruct n. Qed.

Lemma nodeAt_setAttribute_same (q : Path) (k v : string) (e : Node) :
  nodeAt q (updateAt q (withAttribute k v) e) = withAttribute k v <$> nodeAt q e.
Proof.
  destruct (nodeAt q e) as [m |] eqn:Hm.
  - by rewrite (nodeAt_updateAt_same q _ e m Hm).
  - by rewrite updateAt_invalid, Hm.
Qed.

Lemma getXMLContent_setAttribute (p q : Path) (k v : string) (e : Node) :
  p = q \/ ~ p `prefix_of` q ->
  getXMLContent (Some p) (updateAt q (withAttribute k v) e)
  = getXMLContent (Some p) e.
Proof.
  unfold getXMLContent. simpl. intros [-> | Hp].
  - rewrite nodeAt_setAttribute_same.
    destruct (nodeAt q e) as [m |]; [| done]. simpl.
    unfold innerXML. by rewrite childNodesOf_withAttribute.
  - rewrite nodeAt_updateAt_attr; [done | | done].
    apply childNodesOf_withAttribute.
Qed.

Lemma getAttribute_setAttribute (q : Path) (k v : string) (e : Node) (t : string)
  (a : list (string * string)) (cs : list Node) :
  nodeAt q e = Some (Element t a cs) ->
  getAttribute q k (updateAt q (withAttribute k v) e) = Some v.
Proof.
  intros Hq. unfold getAttribute. rewrite nodeAt_setAttribute_same, Hq.
  simpl. apply lookup_storeAttribute.
Qed.

(** X2: XLIFF 1.2 keeps the state in the [state] attribute of the first
    [target].  [setNativeTargetState] on a unit with a target stores the
    token there, where [nativeTargetState] reads it back, and leaves the
    content of the target as it was; the content of the source as well,
    unless the target sits inside the source.  On a unit without a target
    it stores nothing: the fragment stays as it was and [nativeTargetState]
    still gives [null]. *)
Theorem Xliff_setNativeTargetState_stores (token : string) (e : Node) :
  (forall pt,
     getFirstElementByTagName "target" e = Some pt ->
     exists e',
       XliffTransUnit.setNativeTargetState token e = (e', Return tt)
       /\ XliffTransUnit.nativeTargetState e' = Some token
       /\ XliffTransUnit.targetContent e' = XliffTransUnit.targetContent e
       /\ (forall ps,
             getFirstElementByTagName "source" e = Some ps ->
             ~ ps `prefix_of` pt ->
             XliffTransUnit.sourceContent e' = XliffTransUnit.sourceContent e))
  /\ (getFirstElementByTagName "target" e = None ->
      XliffTransUnit.setNativeTargetState token e = (e, Return tt)
      /\ XliffTransUnit.nativeTargetState e = None).
Proof.
  unfold XliffTransUnit.setNativeTargetState, XliffTransUnit.nativeTargetState,
    XliffTransUnit.targetContent, XliffTransUnit.sourceContent.
  split.
  - intros pt Hpt. eexists. run. rewrite Hpt. split; [reflexivity |].
    rewrite !getFirst_setAttribute, Hpt.
    destruct (getFirst_nodeAt _ _ _ Hpt) as (_ & a & cs & Hnode).
    split_and!.
    + by apply (getAttribute_setAttribute pt "state" token e "target" a cs).
    + apply getXMLContent_setAttribute. by left.
    + intros ps Hps Hout. rewrite Hps.
      apply getXMLContent_setAttribute. by right.
  - intros Hnone. run. by rewrite Hnone.
Qed.

Lemma Xliff_setNativeTargetState_stores_witness :
  XliffTransUnit.nativeTargetState
    (fragmentAfter (XliffTransUnit.setNativeTargetState "final")
       (fragmentAfter (XliffTransUnit.translateNative "Hallo") helloUnit))
  = Some "final"
  /\ XliffTransUnit.setNativeTargetState "final" helloUnit
     = (helloUnit, Return tt).
Proof.
  split.
  - destruct (proj1 (Xliff_setNativeTargetState_stores "final"
                 (fragmentAfter (XliffTransUnit.translateNative "Hallo")
                    helloUnit)) [1] eq_refl)
      as (e' & Hrun & Hstate & _).
    unfold fragmentAfter at 1. by rewrite Hrun.
  - exact (proj1 (proj2 (Xliff_setNativeTargetState_stores "final" helloUnit)
                    eq_refl)).
Defined.

(** X3: XLIFF 2.0 keeps the state in the [state] attribute of the first
    [segment].  [setNativeTargetState] on a unit with a segment stores the
    token there, where [nativeTargetState] reads it back; the contents of
    source and target stay as they were unless the segment sits inside
    them.  On a unit without a segment it stores nothing. *)
Theorem Xliff2_setNativeTargetState_stores (token : string) (e : Node) :
  (forall qs,
     getFirstElementByTagName "segment" e = Some qs ->
     exists e',
       Xliff2TransUnit.setNativeTargetState token e = (e', Return tt)
       /\ Xliff2TransUnit.nativeTargetState e' = Some token
       /\ (forall ps,
             getFirstElementByTagName "source" e = Some ps ->
             ~ ps `prefix_of` qs ->
             Xliff2TransUnit.sourceContent e' = Xliff2TransUnit.sourceContent e)
       /\ (forall pt,
             getFirstElementByTagName "target" e = Some pt ->
             ~ pt `prefix_of` qs ->
             Xliff2TransUnit.targetContent e' = Xliff2TransUnit.targetContent e))
  /\ (getFirstElementByTagName "segment" e = None ->
      Xliff2TransUnit.setNativeTargetState token e = (e, Return tt)
      /\ Xliff2TransUnit.nativeTargetState e = None).
Proof.
  unfold Xliff2TransUnit.setNativeTargetState,
    Xliff2TransUnit.nativeTargetState,
    Xliff2TransUnit.targetContent, Xliff2TransUnit.sourceContent.
  split.
  - intros qs Hqs. eexists. run. rewrite Hqs. split; [reflexivity |].
    rewrite !getFirst_setAttribute, Hqs.
    destruct (getFirst_nodeAt _ _ _ Hqs) as (_ & a & cs & Hnode).
    split_and!.
    + by apply (getAttribute_setAttribute qs "state" token e "segment" a cs).
    + intros ps Hps Hout. rewrite Hps.
      apply getXMLContent_setAttribute. by right.
    + intros pt Hpt Hout. rewrite Hpt.
      apply getXMLContent_setAttribute. by right.
  - intros Hnone. run. by rewrite Hnone.
Qed.

Lemma Xliff2_setNativeTargetState_stores_witness :
  (exists e',
     Xliff2TransUnit.setNativeTargetState "reviewed" helloUnit2
     = (e', Return tt)
     /\ Xliff2TransUnit.nativeTargetState e' = Some "reviewed"
     /\ Xliff2TransUnit.sourceContent e' = "Hello")
  /\ Xliff2TransUnit.setNativeTargetState "reviewed" bareUnit2
     = (bareUnit2, Return tt).
Proof.
  split.
  - destruct (proj1 (Xliff2_setNativeTargetState_stores "reviewed" helloUnit2)
                [1] eq_refl) as (e' & Hrun & Hstate & Hsrc & _).
    exists e'. split_and!; [done | done |].
    rewrite (Hsrc [1; 0] eq_refl); [done |].
    intros [k Hk]. discriminate Hk.
  - exact (proj1 (proj2 (Xliff2_setNativeTargetState_stores "reviewed"
                           bareUnit2) eq_refl)).
Defined.

(** ** Setting the source content *)

Lemma first_content_written (t : string) (e : Node) (p : Path)
  (content : string) :
  getFirstElementByTagName t e = Some p ->
  getFirstElementByTagName t (updateAt p (withChildNodes (markup content)) e)
  = Some p
  /\ getXMLContent (Some p) (updateAt p (withChildNodes (markup content)) e)
     = content.
Proof.
  intros Hp. destruct (getFirst_nodeAt _ _ _ Hp) as (_ & a & cs & Hm). split.
  - rewrite (updateAt_const _ _ _ _ Hm). by apply getFirst_updateAt_same.
  - unfold getXMLContent. simpl. rewrite (nodeAt_updateAt_same _ _ _ _ Hm).
    apply innerXML_markup.
Qed.

Lemma getFirst_None (t : string) (e : Node) :
  getFirstElementByTagName t e = None -> getElementsByTagName t e = [].
Proof.
  unfold getFirstElementByTagName. by destruct (getElementsByTagName t e).
Qed.

(** X4: [setSourceContent] of XLIFF 1.2 always returns, and [sourceContent]
    then gives the new content.  A unit without a source gets one as the
    last child of the unit's element, and nothing else changes. *)
Theorem Xliff_setSourceContent_sets (tg : string) (a : list (string * string))
  (cs : list Node) (newContent : string) :
  exists e',
    XliffTransUnit.setSourceContent newContent (Element tg a cs)
    = (e', Return tt)
    /\ XliffTransUnit.sourceContent e' = newContent
    /\ (getFirstElementByTagName "source" (Element tg a cs) = None ->
        e' = Element tg a (cs ++ [Element "source" [] (markup newContent)])).
Proof.
  unfold XliffTransUnit.setSourceContent, XliffTransUnit.sourceContent.
  destruct (getFirstElementByTagName "source" (Element tg a cs))
    as [ps |] eqn:Hps.
  - eexists. run. rewrite Hps. split; [reflexivity |].
    destruct (first_content_written "source" _ ps newContent Hps) as [H1 H2].
    split; [by rewrite H1 | done].
  - eexists. run. rewrite Hps, root_appendChild. split; [reflexivity |].
    assert (He' : updateAt [length cs] (withChildNodes (markup newContent))
                    (Element tg a (cs ++ [Element "source" [] []]))
                  = Element tg a
                      (cs ++ [Element "source" [] (markup newContent)])).
    { simpl. f_equal.
      replace (length cs) with (length cs + 0) by lia.
      by rewrite alter_app_r. }
    rewrite He'. split; [| done].
    assert (Hfirst : getFirstElementByTagName "source"
                       (Element tg a
                          (cs ++ [Element "source" [] (markup newContent)]))
                     = Some [length cs]).
    { pose proof (getElements_insert_fresh "source" [] (length cs)
                    (Element tg a cs)
                    (Element "source" [] (markup newContent)) tg a cs
                    (getFirst_None _ _ Hps) eq_refl (Nat.le_refl _)) as H.
      unfold getFirstElementByTagName.
      simpl in H. rewrite take_ge, drop_ge in H by lia.
      rewrite H; [done |].
      destruct newContent; reflexivity. }
    rewrite Hfirst. unfold getXMLContent. simpl.
    rewrite lookup_app_r, Nat.sub_diag by lia. simpl.
    apply innerXML_markup.
Qed.

Lemma updateAt_app (q r : Path) (f : Node -> Node) (n : Node) :
  updateAt (q ++ r) f n = updateAt q (updateAt r f) n.
Proof.
  revert n. induction q as [| j q IH]; intros n; [done |].
  simpl. destruct n as [| t a cs]; [done |]. f_equal.
  apply list_eq. intros k.
  destruct (decide (j = k)) as [-> |].
  - rewrite !list_lookup_alter. destruct (cs !! k); simpl; [by rewrite IH | done].
  - by rewrite !list_lookup_alter_ne.
Qed.

(** X5: [setSourceContent] of XLIFF 2.0.  With a source in the unit, or
    without one but with a segment, it returns and [sourceContent] gives the
    new content.  The source it makes for a unit that has none is appended
    to the parent of the first segment: it becomes the last child there,
    beside the segment and not in it.  With neither source nor segment the
    call throws a [TypeError] and writes nothing. *)
Theorem Xliff2_setSourceContent_sets (e : Node) (newContent : string) :
  (forall ps,
     getFirstElementByTagName "source" e = Some ps ->
     exists e',
       Xliff2TransUnit.setSourceContent newContent e = (e', Return tt)
       /\ Xliff2TransUnit.sourceContent e' = newContent)
  /\ (forall q i,
       getFirstElementByTagName "source" e = None ->
       getFirstElementByTagName "segment" e = Some (q ++ [i]) ->
       exists e' tg a cs,
         Xliff2TransUnit.setSourceContent newContent e = (e', Return tt)
         /\ Xliff2TransUnit.sourceContent e' = newContent
         /\ nodeAt q e = Some (Element tg a cs)
         /\ getFirstElementByTagName "source" e' = Some (q ++ [length cs])
         /\ nodeAt q e'
            = Some (Element tg a
                      (cs ++ [Element "source" [] (markup newContent)])))
  /\ (getFirstElementByTagName "source" e = None ->
      getFirstElementByTagName "segment" e = None ->
      Xliff2TransUnit.setSourceContent newContent e = (e, Throw TypeError)).
Proof.
  unfold Xliff2TransUnit.setSourceContent, Xliff2TransUnit.sourceContent.
  split_and!.
  - intros ps Hps. eexists. run. rewrite Hps. split; [reflexivity |].
    destruct (first_content_written "source" _ ps newContent Hps) as [H1 H2].
    by rewrite H1.
  - intros q i Hnone Hseg.
    destruct (getFirst_nodeAt _ _ _ Hseg) as (_ & sa & scs & Hsegment).
    destruct (nodeAt_snoc _ _ _ _ Hsegment) as (tg & a & cs & Hq & Hi).
    set (e0 := updateAt q (insertChild (length cs) (Element "source" [] [])) e).
    assert (Hfirst0 : getFirstElementByTagName "source" e0
                      = Some (q ++ [length cs])).
    { unfold getFirstElementByTagName, e0.
      by rewrite (getElements_insert_fresh "source" q (length cs) e
                    (Element "source" [] []) tg a cs
                    (getFirst_None _ _ Hnone) Hq (Nat.le_refl _) eq_refl). }
    destruct (first_content_written "source" e0 _ newContent Hfirst0)
      as [H1 H2].
    exists (updateAt (q ++ [length cs]) (withChildNodes (markup newContent)) e0),
      tg, a, cs.
    split_and!; [| by rewrite H1 | done | done |].
    + run. rewrite Hnone, Hseg. unfold Xliff2TransUnit.appendToParentOf.
      simpl. rewrite parentAndIndex_snoc. unfold appendChild. by rewrite Hq.
    + assert (Hq0 : nodeAt q e0
                    = Some (Element tg a (cs ++ [Element "source" [] []]))).
      { unfold e0. rewrite (nodeAt_updateAt_same _ _ _ _ Hq).
        unfold insertChild. simpl. by rewrite take_ge, drop_ge by lia. }
      rewrite updateAt_app, (nodeAt_updateAt_same _ _ _ _ Hq0).
      simpl. do 2 f_equal.
      replace (length cs) with (length cs + 0) by lia.
      by rewrite alter_app_r.
  - intros Hnone Hseg. run. by rewrite Hnone, Hseg.
Qed.

Lemma Xliff2_setSourceContent_sets_witness :
  (exists e',
     Xliff2TransUnit.setSourceContent "Bye" helloUnit2 = (e', Return tt)
     /\ Xliff2TransUnit.sourceContent e' = "Bye")
  /\ (exists e',
       Xliff2TransUnit.setSourceContent "Bye"
         (Element "unit" [] [Element "segment" [] []]) = (e', Return tt)
       /\ nodeAt [] e'
          = Some (Element "unit" []
                    [Element "segment" [] [];
                     Element "source" [] [TextNode "Bye"]]))
  /\ Xliff2TransUnit.setSourceContent "Bye" (Element "unit" [] [])
     = (Element "unit" [] [], Throw TypeError).
Proof.
  split_and!.
  - exact (proj1 (Xliff2_setSourceContent_sets helloUnit2 "Bye") [1; 0]
             eq_refl).
  - destruct (proj1 (proj2 (Xliff2_setSourceContent_sets
                              (Element "unit" [] [Element "segment" [] []])
                              "Bye")) [] 0 eq_refl eq_refl)
      as (e' & tg & a & cs & Hrun & _ & Hq & _ & Hq').
    simpl in Hq. injection Hq as <- <- <-.
    exists e'. split; [exact Hrun | exact Hq'].
  - exact (proj2 (proj2 (Xliff2_setSourceContent_sets (Element "unit" [] [])
                           "Bye")) eq_refl eq_refl).
Defined.

(** ** Source references of XLIFF 2.0 *)

Lemma lastIndexOf_append (c : ascii) (a b : string) :
  lastIndexOf c b = None ->
  lastIndexOf c (a +:+ String c b) = Some (String.length a).
Proof.
  intros Hb. induction a as [| x a IH].
  - simpl. by rewrite Hb, Ascii.eqb_refl.
  - rewrite append_cons. simpl. by rewrite IH.
Qed.

Lemma substring_prefix (a r : string) :
  String.substring 0 (String.length a) (a +:+ r) = a.
Proof.
  induction a as [| x a IH]; [by destruct r |].
  rewrite append_cons. simpl. by rewrite IH.
Qed.

Lemma substring_all (b : string) :
  String.substring 0 (String.length b) b = b.
Proof. induction b as [| x b IH]; [done |]. simpl. by rewrite IH. Qed.

Lemma substring_suffix (a r : string) (n m : nat) :
  String.substring (String.length a + n) m (a +:+ r) = String.substring n m r.
Proof.
  induction a as [| x a IH]; [done |]. rewrite append_cons. simpl. apply IH.
Qed.



Lemma parseSourceAndPos_append (parseInt : string -> number)
  (file line : string) :
  lastIndexOf ":" line = None ->
  Xliff2TransUnit.parseSourceAndPos parseInt (file +:+ ":" +:+ line)
  = {| sourcefile := file; linenumber := parseInt line |}.
Proof.
  intros Hline. unfold Xliff2TransUnit.parseSourceAndPos,
    Xliff2TransUnit.parseLineNumber.
  change (file +:+ ":" +:+ line) with (file +:+ String ":" line).
  rewrite (lastIndexOf_append ":" file line Hline), substring_prefix.
  rewrite substring_suffix, length_append. simpl String.length.
  replace (String.length file + S (String.length line)
           - (String.length file + 1)) with (String.length line) by lia.
  simpl. by rewrite substring_all.
Qed.

(** X6: [parseSourceAndPos] splits at the last colon.  The text before it,
    colons included, is the file, and the text after it is what
    [parseInt] reads as the line.  A text without a colon is the file, with
    line 0. *)
Theorem parseSourceAndPos_last_colon (parseInt : string -> number)
  (file line : string) :
  lastIndexOf ":" line = None ->
  Xliff2TransUnit.parseSourceAndPos parseInt (file +:+ ":" +:+ line)
  = {| sourcefile := file; linenumber := parseInt line |}
  /\ Xliff2TransUnit.parseSourceAndPos parseInt line
     = {| sourcefile := line; linenumber := Some 0%Z |}.
Proof.
  intros Hline. split; [by apply parseSourceAndPos_append |].
  unfold Xliff2TransUnit.parseSourceAndPos. by rewrite Hline.
Qed.

Lemma parseSourceAndPos_last_colon_witness :
  Xliff2TransUnit.parseSourceAndPos parseInt10 "C:/src/app.html:12"
  = driveReference
  /\ Xliff2TransUnit.parseSourceAndPos parseInt10 "12"
     = {| sourcefile := "12"; linenumber := Some 0%Z |}.
Proof.
  exact (parseSourceAndPos_last_colon parseInt10 "C:/src/app.html" "12"
           eq_refl).
Defined.

(** The fragment [setSourceReferences] leaves behind. *)
Lemma Xliff2_setSourceReferences_plain (tg : string)
  (a : list (string * string)) (cs : list Node)
  (refs : list SourceReference) :
  forallb plainNode cs = true ->
  Xliff2TransUnit.setSourceReferences refs (Element tg a cs)
  = (unitWithNotes tg a [] [] (map locationElement refs) cs, Return tt).
Proof.
  intros Hplain.
  unfold Xliff2TransUnit.setSourceReferences. unfold bind at 1.
  rewrite plain_removeAllSourceReferences by done.
  unfold bind at 1. unfold gets at 1.
  rewrite (proj2 (plain_unit_no_notes tg a cs Hplain)).
  unfold bind at 1. unfold gets at 1. simpl mbind.
  assert (Hrun :
    (notesElement <- (modify (insertChild 0 (Element "notes" [] [])) ;; ret [0]) ;;
     forEach refs (fun ref =>
       appendChild notesElement (locationElement ref) ;; ret tt))
      (Element tg a cs)
    = (unitWithNotes tg a [] [] (map locationElement refs) cs, Return tt)).
  { unfold bind at 1. unfold bind at 1. unfold modify, ret at 1.
    change (insertChild 0 (Element "notes" [] []) (Element tg a cs))
      with (unitWithNotes tg a [] [] [] cs).
    apply (shape_append_all tg a [] [] cs locationElement refs []). }
  by destruct refs.
Qed.

Lemma Xliff2_setSourceReferences_notes (tg : string)
  (a : list (string * string)) (pre : list Node)
  (na : list (string * string)) (ns post : list Node)
  (refs : list SourceReference) :
  forallb plainNode pre = true -> forallb plainNode post = true ->
  forallb plainNoteChild ns = true ->
  Xliff2TransUnit.setSourceReferences refs (unitWithNotes tg a pre na ns post)
  = (match refs, filter (fun c => isLocationElement c = false) ns with
     | [], [] => Element tg a (pre ++ post)
     | _, ns' =>
         unitWithNotes tg a pre na (ns' ++ map locationElement refs) post
     end, Return tt).
Proof.
  intros Hpre Hpost Hns.
  unfold Xliff2TransUnit.setSourceReferences. unfold bind at 1.
  rewrite shape_removeAllSourceReferences by done.
  remember (filter (fun c => isLocationElement c = false) ns) as ns' eqn:Heq.
  clear Heq.
  unfold bind at 1. unfold gets at 1. rewrite shape_first_notes by done.
  unfold bind at 1. unfold gets at 1.
  change (Some [length pre]
            ≫= (fun p => nodeAt p (unitWithNotes tg a pre na ns' post)))
    with (nodeAt [length pre] (unitWithNotes tg a pre na ns' post)).
  rewrite shape_nodeAt_notes. simpl childNodesOf.
  assert (Hloop :
    (notesElement <- ret [length pre] ;;
     forEach refs (fun ref =>
       appendChild notesElement (locationElement ref) ;; ret tt))
      (unitWithNotes tg a pre na ns' post)
    = (unitWithNotes tg a pre na (ns' ++ map locationElement refs) post,
       Return tt)).
  { unfold bind at 1. unfold ret at 1. by apply shape_append_all. }
  destruct refs as [| ref refs].
  - destruct ns' as [| c rest]; simpl length.
    + by apply shape_remove_notes_element.
    + exact Hloop.
  - destruct ns'; simpl length; exact Hloop.
Qed.




(** X8: [setSourceReferences] with no reference.  A unit without a notes
    element gets an empty one as its first child.  A unit with a notes
    element loses the location notes in it; when no child node is left in
    the notes element, the element is removed as well. *)
Theorem Xliff2_setSourceReferences_empty (tg : string)
  (a : list (string * string)) :
  (forall cs,
     forallb plainNode cs = true ->
     Xliff2TransUnit.setSourceReferences [] (Element tg a cs)
     = (Element tg a (Element "notes" [] [] :: cs), Return tt))
  /\ (forall pre na ns post,
        forallb plainNode pre = true -> forallb plainNode post = true ->
        forallb plainNoteChild ns = true ->
        Xliff2TransUnit.setSourceReferences []
          (unitWithNotes tg a pre na ns post)
        = (match filter (fun c => isLocationElement c = false) ns with
           | [] => Element tg a (pre ++ post)
           | c :: rest => unitWithNotes tg a pre na (c :: rest) post
           end, Return tt)).
Proof.
  split.
  - intros cs Hcs. by rewrite Xliff2_setSourceReferences_plain.
  - intros pre na ns post Hpre Hpost Hns.
    rewrite Xliff2_setSourceReferences_notes by done.
    destruct (filter _ ns); [done |]. by rewrite app_nil_r.
Qed.

Lemma Xliff2_setSourceReferences_empty_witness :
  Xliff2TransUnit.setSourceReferences [] bareUnit2
  = (Element "unit" [("id", "greeting")]
       [Element "notes" [] []; Element "source" [] [TextNode "Hello"]],
     Return tt)
  /\ Xliff2TransUnit.setSourceReferences []
       (unitWithNotes "unit" [] [] []
          [Element "note" [("category", "location")] [TextNode "app.html:7"]]
          [Element "segment" [] [Element "source" [] [TextNode "Hello"]]])
     = (Element "unit" []
          [Element "segment" [] [Element "source" [] [TextNode "Hello"]]],
        Return tt).
Proof.
  split.
  - exact (proj1 (Xliff2_setSourceReferences_empty "unit" [("id", "greeting")])
             [Element "source" [] [TextNode "Hello"]] eq_refl).
  - exact (proj2 (Xliff2_setSourceReferences_empty "unit" []) [] []
             [Element "note" [("category", "location")] [TextNode "app.html:7"]]
             [Element "segment" [] [Element "source" [] [TextNode "Hello"]]]
             eq_refl eq_refl eq_refl).
Defined.

(** ** Source references of XLIFF 1.2 *)

(** *** Elements of one tag that are children of the unit *)

Section TopLevel.
Variable t : string.

Lemma elementsFrom_top (c : Node) :
  noElementBelow t c = true ->
  elementsFrom t c = if hasTag t c then [[]] else [].
Proof.
  unfold noElementBelow. intros H%bool_decide_eq_true.
  rewrite elementsFrom_unfold, H, app_nil_r. by destruct c.
Qed.

Lemma childrenFrom_top_cons (i : nat) (c : Node) (cs : list Node) :
  noElementBelow t c = true ->
  childrenFrom (elementsFrom t) i (c :: cs)
  = (if hasTag t c then [[i]] else [])
      ++ childrenFrom (elementsFrom t) (S i) cs.
Proof.
  intros H. simpl. rewrite (elementsFrom_top c H). by destruct (hasTag t c).
Qed.

Lemma childrenFrom_top_snoc (cs : list Node) (c : Node) :
  noElementBelow t c = true ->
  childrenFrom (elementsFrom t) 0 (cs ++ [c])
  = childrenFrom (elementsFrom t) 0 cs
      ++ (if hasTag t c then [[length cs]] else []).
Proof.
  intros Hc. rewrite childrenFrom_app, (childrenFrom_top_cons _ c [] Hc).
  simpl. by rewrite app_nil_r.
Qed.

Lemma top_select {X : Type} (F : Path -> bool) (G : Path -> X)
  (f : Node -> bool) (g : Node -> X) (i : nat) (cs : list Node) :
  forallb (noElementBelow t) cs = true ->
  (forall j c, cs !! j = Some c -> F [i + j] = f c /\ G [i + j] = g c) ->
  map G (filter (fun p => F p = true) (childrenFrom (elementsFrom t) i cs))
  = map g (filter (fun c => hasTag t c && f c = true) cs).
Proof.
  revert i. induction cs as [| c cs IH]; intros i Hflat Hrel; [done |].
  simpl in Hflat. apply andb_true_iff in Hflat as [Hc Hcs].
  rewrite (childrenFrom_top_cons i c cs Hc), filter_app, map_app, filter_cons.
  destruct (Hrel 0 c eq_refl) as [HF HG]. rewrite Nat.add_0_r in HF, HG.
  rewrite (IH (S i) Hcs).
  2:{ intros j c' Hj. specialize (Hrel (S j) c' Hj).
      by replace (i + S j) with (S i + j) in Hrel by lia. }
  destruct (hasTag t c); simpl.
  - rewrite filter_cons, filter_nil, HF.
    destruct (decide (f c = true)); simpl; [by rewrite HG | done].
  - done.
Qed.

Lemma root_removeNode (tg : string) (a : list (string * string))
  (cs : list Node) (j : nat) :
  removeNode [j] (Element tg a cs) = (Element tg a (delete j cs), Return tt).
Proof. done. Qed.

(** Taking out the children with the tag that [F] selects. *)
Lemma top_removeEach (F : Path -> bool) (f : Node -> bool) (tg : string)
  (a : list (string * string)) (cs0 tail : list Node) :
  forallb (noElementBelow t) cs0 = true ->
  (forall j c, cs0 !! j = Some c -> F [j] = f c) ->
  forEach
    (reverse (filter (fun p => F p = true)
                (childrenFrom (elementsFrom t) 0 cs0)))
    removeNode (Element tg a (cs0 ++ tail))
  = (Element tg a
       (filter (fun c => hasTag t c && f c = false) cs0 ++ tail), Return tt).
Proof.
  revert tail.
  induction cs0 as [| c cs0 IH] using rev_ind; intros tail Hflat Hrel; [done |].
  apply forallb_Forall, Forall_app in Hflat as [Hcs Hc].
  rewrite Forall_singleton in Hc. apply forallb_Forall in Hcs.
  assert (Hrel0 : forall j c', cs0 !! j = Some c' -> F [j] = f c').
  { intros j c' Hj. apply Hrel. by apply lookup_app_l_Some. }
  assert (HF : F [length cs0] = f c).
  { apply Hrel. by rewrite list_lookup_middle. }
  rewrite (childrenFrom_top_snoc cs0 c Hc), filter_app, reverse_app.
  rewrite forEach_app, filter_app, <- app_assoc. simpl.
  destruct (hasTag t c && f c) eqn:HP.
  - apply andb_true_iff in HP as [Hn Hf]. rewrite Hn.
    rewrite filter_cons_True, filter_nil by congruence.
    rewrite (filter_cons_False _ c) by (rewrite Hn, Hf; done).
    rewrite filter_nil, reverse_singleton, app_nil_r. cbn [forEach].
    unfold bind. rewrite root_removeNode. unfold ret. cbv beta iota.
    rewrite delete_middle. by apply IH.
  - rewrite (filter_cons_True _ c) by done. rewrite filter_nil.
    assert (filter (fun p => F p = true)
              (if hasTag t c then [[length cs0]] else []) = []) as ->.
    { destruct (hasTag t c); [| done]. simpl in *.
      rewrite filter_cons_False, filter_nil; [done |]. congruence. }
    rewrite <- (app_assoc _ [c] tail). change (reverse []) with (@nil Path).
    cbn [forEach]. unfold bind at 1. unfold ret at 1. by apply IH.
Qed.
End TopLevel.

(** *** The groups of a unit *)

Lemma hasAttributeValue_child (name value : string) (tg : string)
  (a : list (string * string)) (cs : list Node) (j : nat) (c : Node)
  (p : Path) :
  cs !! j = Some c ->
  hasAttributeValue name value (Element tg a cs) (j :: p)
  = hasAttributeValue name value c p.
Proof.
  intros Hj. unfold hasAttributeValue, getAttribute. simpl. by rewrite Hj.
Qed.

Lemma getPCDATA_child (tg : string) (a : list (string * string))
  (cs : list Node) (j : nat) (c : Node) (p : Path) :
  cs !! j = Some c ->
  getPCDATA (j :: p) (Element tg a cs) = getPCDATA p c.
Proof. intros Hj. unfold getPCDATA. simpl. by rewrite Hj. Qed.

Lemma readContexts_child (parseInt : string -> number) (tg : string)
  (a : list (string * string)) (cs : list Node) (j : nat) (c : Node)
  (l : list Path) :
  cs !! j = Some c ->
  readContexts parseInt (Element tg a cs) (map (cons j) l)
  = readContexts parseInt c l.
Proof.
  intros Hj. unfold readContexts.
  generalize (@None string, Some 0%Z). induction l as [| p l IH]; [done |].
  intros found. simpl.
  rewrite !(hasAttributeValue_child _ _ tg a cs j c p Hj).
  rewrite (getPCDATA_child tg a cs j c p Hj). apply IH.
Qed.

Lemma Xliff_sourceReferences_flat (parseInt : string -> number) (tg : string)
  (a : list (string * string)) (cs : list Node) :
  forallb (noElementBelow "context-group") cs = true ->
  XliffTransUnit_sourceReferences parseInt (Element tg a cs)
  = map (fun c => readContexts parseInt c (getElementsByTagName "context" c))
      (filter (fun c => isLocationGroup c = true) cs).
Proof.
  intros Hflat. unfold XliffTransUnit_sourceReferences, getElementsByTagName.
  simpl childNodesOf. fold (getElementsByTagName "context").
  rewrite (top_select "context-group"
             (fun p => hasAttributeValue "purpose" "location"
                         (Element tg a cs) p)
             (fun elem => readContexts parseInt (Element tg a cs)
                            (elementsBelow "context" elem (Element tg a cs)))
             (fun c => match attributeOf "purpose" c with
                       | Some v => String.eqb v "location"
                       | None => false
                       end)
             (fun c => readContexts parseInt c
                         (getElementsByTagName "context" c)) 0 cs Hflat).
  - done.
  - intros j c Hj. simpl. split.
    + unfold hasAttributeValue, getAttribute. simpl. by rewrite Hj.
    + unfold elementsBelow. simpl. rewrite Hj.
      by apply readContexts_child.
Qed.

Lemma Xliff_removeAllSourceReferences_flat (tg : string)
  (a : list (string * string)) (cs : list Node) :
  forallb (noElementBelow "context-group") cs = true ->
  XliffTransUnit_removeAllSourceReferences (Element tg a cs)
  = (Element tg a (filter (fun c => isLocationGroup c = false) cs), Return tt).
Proof.
  intros Hflat. unfold XliffTransUnit_removeAllSourceReferences.
  unfold bind, gets. unfold getElementsByTagName. simpl childNodesOf.
  pose proof (top_removeEach "context-group"
                (fun p => hasAttributeValue "purpose" "location"
                            (Element tg a cs) p)
                (fun c => match attributeOf "purpose" c with
                          | Some v => String.eqb v "location"
                          | None => false
                          end) tg a cs [] Hflat) as H.
  rewrite !app_nil_r in H. apply H.
  intros j c Hj. unfold hasAttributeValue, getAttribute. simpl. by rewrite Hj.
Qed.

Lemma Xliff_append_groups (tg : string) (a : list (string * string))
  (cs : list Node) (refs : list SourceReference) :
  forEach refs (fun ref => appendChild [] (contextGroup ref) ;; ret tt)
    (Element tg a cs)
  = (Element tg a (cs ++ map contextGroup refs), Return tt).
Proof.
  revert cs. induction refs as [| ref refs IH]; intros cs.
  - simpl. by rewrite app_nil_r.
  - cbn [forEach]. unfold bind at 1. unfold bind at 1.
    rewrite root_appendChild. unfold ret at 1. cbv beta iota.
    rewrite IH. by rewrite <- app_assoc.
Qed.


Lemma noElementBelow_contextGroup (ref : SourceReference) :
  noElementBelow "context-group" (contextGroup ref) = true.
Proof. done. Qed.

(** The fragment [setSourceReferences] of XLIFF 1.2 leaves behind. *)
Lemma Xliff_setSourceReferences_flat (tg : string)
  (a : list (string * string)) (cs : list Node)
  (refs : list SourceReference) :
  forallb (noElementBelow "context-group") cs = true ->
  XliffTransUnit_setSourceReferences refs (Element tg a cs)
  = (Element tg a
       (filter (fun c => isLocationGroup c = false) cs
          ++ map contextGroup refs), Return tt).
Proof.
  intros Hflat. unfold XliffTransUnit_setSourceReferences. unfold bind at 1.
  rewrite Xliff_removeAllSourceReferences_flat by done.
  apply Xliff_append_groups.
Qed.



(** ** Description and meaning *)

Lemma reserved_methods :
  XliffTransUnit.description = Xliff_reserved "description"
  /\ XliffTransUnit.meaning = Xliff_reserved "meaning"
  /\ XliffTransUnit.setDescription = Xliff_setReserved "description"
  /\ XliffTransUnit.setMeaning = Xliff_setReserved "meaning"
  /\ Xliff2TransUnit.description = Xliff2_reserved "description"
  /\ Xliff2TransUnit.meaning = Xliff2_reserved "meaning"
  /\ Xliff2TransUnit.setDescription = Xliff2_setReserved "description"
  /\ Xliff2TransUnit.setMeaning = Xliff2_setReserved "meaning".
Proof. done. Qed.

(** *** The first element of a list that a test accepts *)

Lemma first_match_split {A : Type} (f : A -> bool) (l : list A) :
  filter (fun x => f x = true) l = []
  \/ exists l1 c l2,
       l = l1 ++ c :: l2 /\ f c = true
       /\ filter (fun x => f x = true) l1 = [].
Proof.
  induction l as [| x l IH]; [by left |].
  destruct (f x) eqn:Hx.
  - right. by exists [], x, l.
  - rewrite filter_cons_False by congruence.
    destruct IH as [IH | (l1 & c & l2 & -> & Hc & Hl1)]; [by left |].
    right. exists (x :: l1), c, l2. split_and!; [done | done |].
    by rewrite filter_cons_False by congruence.
Qed.

Lemma head_fmap {A B : Type} (g : A -> B) (l : list A) :
  head (map g l) = g <$> head l.
Proof. by destruct l. Qed.

(** *** Notes of XLIFF 1.2 by their origin *)

Section Reserved12.
Variable key : string.
Variable tg : string.
Variable a : list (string * string).

Lemma Xliff_origin_paths {X : Type} (G : Path -> X) (g : Node -> X)
  (K cs T : list Node) :
  forallb (noElementBelow "note") cs = true ->
  (forall j c, cs !! j = Some c -> G [length K + j] = g c) ->
  map G (filter (fun p => hasAttributeValue "from" key
                            (Element tg a (K ++ cs ++ T)) p = true)
           (childrenFrom (elementsFrom "note") (length K) cs))
  = map g (filter (fun c => isReservedNote "from" key c = true) cs).
Proof.
  intros Hflat HG.
  apply (flat_select
           (hasAttributeValue "from" key (Element tg a (K ++ cs ++ T)))
           G (hasValue "from" key) g (length K) cs Hflat).
  intros j c Hj. split; [| by apply HG].
  apply hasAttributeValue_node. simpl.
  rewrite lookup_app_r by lia.
  replace (length K + j - length K) with j by lia.
  by rewrite (lookup_app_l_Some _ _ _ _ Hj).
Qed.

Lemma Xliff_reserved_flat (cs : list Node) :
  forallb (noElementBelow "note") cs = true ->
  Xliff_reserved key (Element tg a cs)
  = pcdataOf <$> head (filter (fun c => isReservedNote "from" key c = true) cs).
Proof.
  intros Hflat. unfold Xliff_reserved,
    XliffTransUnit.findNoteElementWithFromAttribute, getElementsByTagName.
  simpl childNodesOf. rewrite <- head_fmap.
  pose proof (Xliff_origin_paths (fun p => getPCDATA p (Element tg a cs))
                pcdataOf [] cs [] Hflat) as H.
  rewrite app_nil_r in H. simpl in H. rewrite <- H.
  - by destruct (filter _ _).
  - intros j c Hj. unfold getPCDATA. simpl. by rewrite Hj.
Qed.

Lemma Xliff_no_origin_paths (K cs T : list Node) :
  forallb (noElementBelow "note") cs = true ->
  filter (fun c => isReservedNote "from" key c = true) cs = [] ->
  filter (fun p => hasAttributeValue "from" key
                     (Element tg a (K ++ cs ++ T)) p = true)
    (childrenFrom (elementsFrom "note") (length K) cs) = [].
Proof.
  intros Hflat Hnone.
  pose proof (Xliff_origin_paths (X:=unit) (fun _ => tt) (fun _ => tt) K
                cs T Hflat (fun _ _ _ => eq_refl)) as H.
  rewrite Hnone in H. by apply fmap_nil_inv in H.
Qed.

Lemma Xliff_find_none (cs : list Node) :
  forallb (noElementBelow "note") cs = true ->
  filter (fun c => isReservedNote "from" key c = true) cs = [] ->
  XliffTransUnit.findNoteElementWithFromAttribute key (Element tg a cs) = None.
Proof.
  intros Hflat Hnone.
  unfold XliffTransUnit.findNoteElementWithFromAttribute, getElementsByTagName.
  simpl childNodesOf.
  pose proof (Xliff_no_origin_paths [] cs [] Hflat Hnone) as H.
  rewrite app_nil_r in H. simpl in H. by rewrite H.
Qed.

Lemma Xliff_find_first (l1 l2 : list Node) (c : Node) :
  forallb (noElementBelow "note") (l1 ++ c :: l2) = true ->
  isReservedNote "from" key c = true ->
  filter (fun c => isReservedNote "from" key c = true) l1 = [] ->
  XliffTransUnit.findNoteElementWithFromAttribute key
    (Element tg a (l1 ++ c :: l2)) = Some [length l1].
Proof.
  intros Hflat Hc Hl1.
  apply forallb_Forall, Forall_app in Hflat as [H1 H2].
  apply Forall_cons in H2 as [Hfc H2]. apply forallb_Forall in H1.
  unfold XliffTransUnit.findNoteElementWithFromAttribute, getElementsByTagName.
  simpl childNodesOf. rewrite childrenFrom_app, filter_app.
  pose proof (Xliff_no_origin_paths [] l1 (c :: l2) H1 Hl1) as Hfirst.
  simpl in Hfirst. rewrite Hfirst. simpl.
  apply andb_true_iff in Hc as [Hn Hv].
  rewrite (elementsFrom_flat c Hfc), Hn. simpl.
  rewrite filter_cons_True; [done |].
  rewrite (hasAttributeValue_node "from" key _ [length l1] c); [done |].
  simpl. by rewrite list_lookup_middle.
Qed.
End Reserved12.

(** *** What the origin of a note element decides *)

Lemma isReservedNote_other (name key other : string) (c : Node) :
  isReservedNote name key c = true -> other <> key ->
  isReservedNote name other c = false.
Proof.
  unfold isReservedNote, hasValue. intros [_ H]%andb_true_iff Hne.
  destruct (attributeOf name c) as [v |]; [| done].
  apply String.eqb_eq in H as ->.
  apply andb_false_intro2. by apply String.eqb_neq.
Qed.

Lemma isReservedNote_not_additional (name key : string) (c : Node) :
  key = "description" \/ key = "meaning" ->
  isReservedNote name key c = true ->
  isNoteElement c && additionalNode name c = false.
Proof.
  unfold isReservedNote, additionalNode, hasValue.
  intros Hkey [Hn H]%andb_true_iff. rewrite Hn. simpl.
  destruct (attributeOf name c) as [v |]; [| done].
  apply String.eqb_eq in H as ->. by destruct Hkey as [-> | ->].
Qed.

Lemma pcdataOf_markup (t : string) (a : list (string * string))
  (content : string) :
  pcdataOf (Element t a (markup content)) = content.
Proof. by destruct content. Qed.

Lemma withChildNodes_markup_tests (name key content : string) (c : Node) :
  isNoteElement c = true ->
  isNoteElement (withChildNodes (markup content) c) = true
  /\ hasValue name key (withChildNodes (markup content) c) = hasValue name key c
  /\ additionalNode name (withChildNodes (markup content) c)
     = additionalNode name c
  /\ pcdataOf (withChildNodes (markup content) c) = content
  /\ noElementBelow "note" (withChildNodes (markup content) c) = true
  /\ plainNoteChild (withChildNodes (markup content) c) = true.
Proof.
  destruct c as [| t a cs]; [done |]. intros Ht. simpl.
  split_and!; try done; [apply pcdataOf_markup | by destruct content |].
  unfold plainNoteChild, noElementBelow, noElementAt. simpl in Ht.
  apply String.eqb_eq in Ht as ->. by destruct content.
Qed.

Lemma filter_replace_same {A : Type} (f : A -> bool) (l1 l2 : list A)
  (c c' : A) :
  f c = false -> f c' = false ->
  filter (fun x => f x = true) (l1 ++ c' :: l2)
  = filter (fun x => f x = true) (l1 ++ c :: l2).
Proof.
  intros Hc Hc'. rewrite !filter_app, !filter_cons_False by congruence. done.
Qed.

Lemma filter_delete_same {A : Type} (f : A -> bool) (l1 l2 : list A) (c : A) :
  f c = false ->
  filter (fun x => f x = true) (l1 ++ l2)
  = filter (fun x => f x = true) (l1 ++ c :: l2).
Proof.
  intros Hc. rewrite !filter_app, !filter_cons_False by congruence. done.
Qed.

Lemma filter_append_same {A : Type} (f : A -> bool) (l : list A) (c : A) :
  f c = false ->
  filter (fun x => f x = true) (l ++ [c]) = filter (fun x => f x = true) l.
Proof.
  intros Hc. by rewrite filter_app, filter_cons_False, app_nil_r by congruence.
Qed.

(** *** Setting description and meaning in XLIFF 1.2 *)

Section SetReserved12.
Variable key : string.
Hypothesis Hkey : key = "description" \/ key = "meaning".
Variable tg : string.
Variable a : list (string * string).

Lemma Xliff_setReserved_create (cs : list Node) (value : option string)
  (d : string) :
  forallb (noElementBelow "note") cs = true ->
  filter (fun c => isReservedNote "from" key c = true) cs = [] ->
  truthy value = Some d ->
  Xliff_setReserved key value (Element tg a cs)
  = (Element tg a (cs ++ [noteElement12 {| from := Some key; text := d |}]),
     Return tt).
Proof.
  intros Hflat Hnone Hd. unfold Xliff_setReserved. run.
  rewrite (Xliff_find_none key tg a cs Hflat Hnone), Hd.
  unfold XliffTransUnit.createNoteElementWithFromAttribute.
  by rewrite root_appendChild.
Qed.

Lemma Xliff_setReserved_replace (l1 l2 : list Node) (c : Node)
  (value : option string) (d : string) :
  forallb (noElementBelow "note") (l1 ++ c :: l2) = true ->
  isReservedNote "from" key c = true ->
  filter (fun c => isReservedNote "from" key c = true) l1 = [] ->
  truthy value = Some d ->
  Xliff_setReserved key value (Element tg a (l1 ++ c :: l2))
  = (Element tg a (l1 ++ withChildNodes (markup d) c :: l2), Return tt).
Proof.
  intros Hflat Hc Hl1 Hd. unfold Xliff_setReserved. run.
  rewrite (Xliff_find_first key tg a l1 l2 c Hflat Hc Hl1), Hd.
  simpl. do 2 f_equal.
  replace (length l1) with (length l1 + 0) by lia.
  by rewrite alter_app_r.
Qed.

Lemma Xliff_setReserved_remove (l1 l2 : list Node) (c : Node)
  (value : option string) :
  forallb (noElementBelow "note") (l1 ++ c :: l2) = true ->
  isReservedNote "from" key c = true ->
  filter (fun c => isReservedNote "from" key c = true) l1 = [] ->
  truthy value = None ->
  Xliff_setReserved key value (Element tg a (l1 ++ c :: l2))
  = (Element tg a (l1 ++ l2), Return tt).
Proof.
  intros Hflat Hc Hl1 Hd. unfold Xliff_setReserved. run.
  rewrite (Xliff_find_first key tg a l1 l2 c Hflat Hc Hl1), Hd.
  unfold XliffTransUnit.removeNoteElementWithFromAttribute. run.
  rewrite (Xliff_find_first key tg a l1 l2 c Hflat Hc Hl1).
  cbn [XliffTransUnit.removeChildren]. run. cbn [childNodesOf withChildNodes].
  by rewrite Nat.sub_0_r, delete_middle.
Qed.

Lemma Xliff_setReserved_absent (cs : list Node) (value : option string) :
  forallb (noElementBelow "note") cs = true ->
  filter (fun c => isReservedNote "from" key c = true) cs = [] ->
  truthy value = None ->
  Xliff_setReserved key value (Element tg a cs) = (Element tg a cs, Return tt).
Proof.
  intros Hflat Hnone Hd. unfold Xliff_setReserved. run.
  by rewrite (Xliff_find_none key tg a cs Hflat Hnone), Hd.
Qed.
End SetReserved12.

Lemma Xliff_reserved_head (key : string) (e : Node) :
  Xliff_reserved key e = head (Xliff_reservedTexts key e).
Proof.
  unfold Xliff_reserved, Xliff_reservedTexts,
    XliffTransUnit.findNoteElementWithFromAttribute.
  by destruct (filter _ _).
Qed.

Lemma Xliff_reservedTexts_flat (key tg : string) (a : list (string * string))
  (cs : list Node) :
  forallb (noElementBelow "note") cs = true ->
  Xliff_reservedTexts key (Element tg a cs)
  = map pcdataOf (filter (fun c => isReservedNote "from" key c = true) cs).
Proof.
  intros Hflat. unfold Xliff_reservedTexts, getElementsByTagName.
  simpl childNodesOf.
  pose proof (Xliff_origin_paths key tg a
                (fun p => getPCDATA p (Element tg a cs)) pcdataOf [] cs []
                Hflat) as H.
  rewrite app_nil_r in H. simpl in H. apply H.
  intros j c Hj. unfold getPCDATA. simpl. by rewrite Hj.
Qed.

Section Sets12.
Variable key other : string.
Hypothesis Hkey : key = "description" \/ key = "meaning".
Hypothesis Hother : other <> key.
Variable tg : string.
Variable a : list (string * string).

Lemma isReservedNote_new (d : string) :
  isReservedNote "from" key (noteElement12 {| from := Some key; text := d |})
  = true.
Proof.
  destruct Hkey as [-> | ->]; unfold isReservedNote, hasValue; simpl;
    by destruct d.
Qed.

Lemma Xliff_setReserved_sets (cs : list Node) (value : option string)
  (d : string) :
  forallb (noElementBelow "note") cs = true ->
  truthy value = Some d ->
  exists e',
    Xliff_setReserved key value (Element tg a cs) = (e', Return tt)
    /\ Xliff_reserved key e' = Some d
    /\ Xliff_reserved other e' = Xliff_reserved other (Element tg a cs)
    /\ XliffTransUnit.notes e' = XliffTransUnit.notes (Element tg a cs).
Proof.
  intros Hflat Hd.
  destruct (first_match_split (isReservedNote "from" key) cs)
    as [Hnone | (l1 & c & l2 & -> & Hc & Hl1)].
  - eexists. split; [by apply Xliff_setReserved_create |].
    set (n := noteElement12 {| from := Some key; text := d |}).
    assert (Hn : isReservedNote "from" key n = true) by apply isReservedNote_new.
    assert (Hflat' : forallb (noElementBelow "note") (cs ++ [n]) = true).
    { apply forallb_Forall, Forall_app. split; [by apply forallb_Forall |].
      apply Forall_singleton, noElementBelow_noteElement. }
    rewrite !Xliff_reserved_flat, !Xliff_notes_flat by done.
    split_and!.
    + rewrite filter_app, Hnone, filter_cons_True by done. simpl.
      f_equal. apply pcdataOf_markup.
    + by rewrite (filter_append_same (isReservedNote "from" other))
        by by apply (isReservedNote_other "from" key).
    + by rewrite (filter_append_same isAdditionalNote12)
        by by apply (isReservedNote_not_additional "from" key).
  - eexists. split; [by apply Xliff_setReserved_replace |].
    pose proof Hc as [Hnote _]%andb_true_iff.
    destruct (withChildNodes_markup_tests "from" key d c Hnote)
      as (Hn' & Hv' & _ & Hp' & Hf' & _).
    destruct (withChildNodes_markup_tests "from" other d c Hnote)
      as (_ & Hvo & Hadd & _).
    set (c' := withChildNodes (markup d) c) in *.
    assert (Hc' : isReservedNote "from" key c' = true).
    { unfold isReservedNote. rewrite Hn', Hv'.
      by apply andb_true_iff in Hc as [_ ->]. }
    assert (Hflat' : forallb (noElementBelow "note") (l1 ++ c' :: l2) = true).
    { apply forallb_Forall in Hflat. apply Forall_app in Hflat as [H1 H2].
      apply Forall_cons in H2 as [_ H2].
      apply forallb_Forall, Forall_app. split; [done |]. by constructor. }
    rewrite !Xliff_reserved_flat, !Xliff_notes_flat by done.
    split_and!.
    + rewrite filter_app, Hl1, filter_cons_True by done. simpl. by rewrite Hp'.
    + by rewrite (filter_replace_same (isReservedNote "from" other) l1 l2 c c')
        by by apply (isReservedNote_other "from" key).
    + by rewrite (filter_replace_same isAdditionalNote12 l1 l2 c c')
        by by apply (isReservedNote_not_additional "from" key).
Qed.

Lemma Xliff_setReserved_clears (cs : list Node) (value : option string) :
  forallb (noElementBelow "note") cs = true ->
  truthy value = None ->
  exists e',
    Xliff_setReserved key value (Element tg a cs) = (e', Return tt)
    /\ Xliff_reserved key e'
       = head (tail (Xliff_reservedTexts key (Element tg a cs)))
    /\ Xliff_reserved other e' = Xliff_reserved other (Element tg a cs)
    /\ XliffTransUnit.notes e' = XliffTransUnit.notes (Element tg a cs)
    /\ (Xliff_reserved key (Element tg a cs) = None -> e' = Element tg a cs).
Proof.
  intros Hflat Hd.
  destruct (first_match_split (isReservedNote "from" key) cs)
    as [Hnone | (l1 & c & l2 & -> & Hc & Hl1)].
  - eexists. split; [by apply Xliff_setReserved_absent |].
    rewrite Xliff_reserved_flat, Xliff_reservedTexts_flat, Hnone by done.
    done.
  - eexists. split; [by apply Xliff_setReserved_remove |].
    assert (Hflat' : forallb (noElementBelow "note") (l1 ++ l2) = true).
    { apply forallb_Forall in Hflat. apply Forall_app in Hflat as [H1 H2].
      apply Forall_cons in H2 as [_ H2].
      apply forallb_Forall, Forall_app. by split. }
    rewrite !Xliff_reserved_flat, !Xliff_notes_flat, Xliff_reservedTexts_flat
      by done.
    split_and!.
    + rewrite !filter_app, Hl1, filter_cons_True by done. simpl.
      by rewrite head_fmap.
    + by rewrite (filter_delete_same (isReservedNote "from" other) l1 l2 c)
        by by apply (isReservedNote_other "from" key).
    + by rewrite (filter_delete_same isAdditionalNote12 l1 l2 c)
        by by apply (isReservedNote_not_additional "from" key).
    + rewrite filter_app, Hl1, filter_cons_True by done. done.
Qed.
End Sets12.

(** X10: [setDescription] and [setMeaning] of XLIFF 1.2 with a text that is
    not empty, on a unit whose notes are children of the unit.  The call
    returns, [description] (or [meaning]) then gives the text that was set,
    and the other of the two and [notes] give what they gave before. *)
Theorem Xliff_setDescription_sets (e : Node) (value : option string)
  (d : string) :
  notesAreChildren e = true ->
  truthy value = Some d ->
  (exists e',
     XliffTransUnit.setDescription value e = (e', Return tt)
     /\ XliffTransUnit.description e' = Some d
     /\ XliffTransUnit.meaning e' = XliffTransUnit.meaning e
     /\ XliffTransUnit.notes e' = XliffTransUnit.notes e)
  /\ (exists e',
     XliffTransUnit.setMeaning value e = (e', Return tt)
     /\ XliffTransUnit.meaning e' = Some d
     /\ XliffTransUnit.description e' = XliffTransUnit.description e
     /\ XliffTransUnit.notes e' = XliffTransUnit.notes e).
Proof.
  intros He Hd. destruct e as [| tg a cs]; [done |]. simpl in He. split.
  - apply (Xliff_setReserved_sets "description" "meaning"); auto.
  - apply (Xliff_setReserved_sets "meaning" "description"); auto.
Qed.

Lemma Xliff_setDescription_sets_witness :
  (exists e',
     XliffTransUnit.setDescription (Some "a salutation") helloUnit
     = (e', Return tt)
     /\ XliffTransUnit.description e' = Some "a salutation"
     /\ XliffTransUnit.meaning e' = None
     /\ XliffTransUnit.notes e'
        = [{| from := Some "reviewer"; text := "keep it short" |}])
  /\ (exists e',
     XliffTransUnit.setMeaning (Some "hello") helloUnit = (e', Return tt)
     /\ XliffTransUnit.meaning e' = Some "hello"
     /\ XliffTransUnit.description e' = Some "a greeting"
     /\ XliffTransUnit.notes e'
        = [{| from := Some "reviewer"; text := "keep it short" |}]).
Proof.
  split.
  - exact (proj1 (Xliff_setDescription_sets helloUnit (Some "a salutation")
                    "a salutation" eq_refl eq_refl)).
  - exact (proj2 (Xliff_setDescription_sets helloUnit (Some "hello")
                    "hello" eq_refl eq_refl)).
Defined.

(** X11: [setDescription] and [setMeaning] of XLIFF 1.2 with [null] or the
    empty text, on a unit whose notes are children of the unit.  The first
    note of that origin is removed and no other: [description] (or
    [meaning]) then gives the text of the next such note, [null] when there
    was at most one; the other of the two and [notes] give what they gave
    before, and a unit that had no such note is left as it was. *)
Theorem Xliff_setDescription_clears (e : Node) (value : option string) :
  notesAreChildren e = true ->
  truthy value = None ->
  (exists e',
     XliffTransUnit.setDescription value e = (e', Return tt)
     /\ XliffTransUnit.description e'
        = head (tail (Xliff_reservedTexts "description" e))
     /\ XliffTransUnit.meaning e' = XliffTransUnit.meaning e
     /\ XliffTransUnit.notes e' = XliffTransUnit.notes e
     /\ (XliffTransUnit.description e = None -> e' = e))
  /\ (exists e',
     XliffTransUnit.setMeaning value e = (e', Return tt)
     /\ XliffTransUnit.meaning e'
        = head (tail (Xliff_reservedTexts "meaning" e))
     /\ XliffTransUnit.description e' = XliffTransUnit.description e
     /\ XliffTransUnit.notes e' = XliffTransUnit.notes e
     /\ (XliffTransUnit.meaning e = None -> e' = e)).
Proof.
  intros He Hd. destruct e as [| tg a cs]; [done |]. simpl in He. split.
  - apply (Xliff_setReserved_clears "description" "meaning"); auto.
  - apply (Xliff_setReserved_clears "meaning" "description"); auto.
Qed.

Lemma Xliff_setDescription_clears_witness :
  (exists e',
     XliffTransUnit.setDescription (Some EmptyString) helloUnit
     = (e', Return tt)
     /\ XliffTransUnit.description e' = None
     /\ XliffTransUnit.notes e'
        = [{| from := Some "reviewer"; text := "keep it short" |}])
  /\ XliffTransUnit.setMeaning None helloUnit = (helloUnit, Return tt).
Proof.
  split.
  - destruct (proj1 (Xliff_setDescription_clears helloUnit (Some EmptyString)
                       eq_refl eq_refl)) as (e' & Hrun & Hd & _ & Hn & _).
    exists e'. split_and!; [exact Hrun | exact Hd | exact Hn].
  - destruct (proj2 (Xliff_setDescription_clears helloUnit None
                       eq_refl eq_refl)) as (e' & Hrun & _ & _ & _ & Hsame).
    rewrite Hrun. by rewrite (Hsame eq_refl).
Defined.

(** *** Notes of XLIFF 2.0 by their category *)

Section Reserved20.
Variable key : string.
Variable tg : string.
Variable a : list (string * string).
Variable pre : list Node.
Variable na : list (string * string).
Variable post : list Node.
Hypothesis Hpre : forallb plainNode pre = true.
Hypothesis Hpost : forallb plainNode post = true.

Lemma shape_category_paths {X : Type} (G : Path -> X) (g : Node -> X)
  (K cs T : list Node) :
  forallb (noElementBelow "note") cs = true ->
  (forall j c, cs !! j = Some c -> G [length pre; length K + j] = g c) ->
  map G (filter (fun p => hasAttributeValue "category" key
                            (unitWithNotes tg a pre na (K ++ cs ++ T) post) p
                          = true)
           (map (cons (length pre))
              (childrenFrom (elementsFrom "note") (length K) cs)))
  = map g (filter (fun c => isReservedNote "category" key c = true) cs).
Proof.
  intros Hflat HG. rewrite filter_fmap, map_map.
  apply (flat_select
           (fun p => hasAttributeValue "category" key
                       (unitWithNotes tg a pre na (K ++ cs ++ T) post)
                       (length pre :: p))
           (fun p => G (length pre :: p)) (hasValue "category" key) g
           (length K) cs Hflat).
  intros j c Hj. split; [| by apply HG].
  apply hasAttributeValue_node. rewrite shape_nodeAt_note.
  rewrite lookup_app_r by lia.
  replace (length K + j - length K) with j by lia.
  by rewrite (lookup_app_l_Some _ _ _ _ Hj).
Qed.

Lemma Xliff2_reservedTexts_shape (ns : list Node) :
  forallb plainNoteChild ns = true ->
  Xliff2_reservedTexts key (unitWithNotes tg a pre na ns post)
  = map pcdataOf (filter (fun c => isReservedNote "category" key c = true) ns).
Proof.
  intros Hns%plainNoteChild_flat. unfold Xliff2_reservedTexts.
  rewrite shape_note_elements by done.
  pose proof (shape_category_paths
                (fun p => getPCDATA p (unitWithNotes tg a pre na ns post))
                pcdataOf [] ns [] Hns) as H.
  rewrite app_nil_r in H. simpl in H. apply H.
  intros j c Hj. unfold getPCDATA. by rewrite shape_nodeAt_note, Hj.
Qed.

Lemma Xliff2_reserved_head (e : Node) :
  Xliff2_reserved key e = head (Xliff2_reservedTexts key e).
Proof.
  unfold Xliff2_reserved, Xliff2_reservedTexts,
    Xliff2TransUnit.findNoteElementWithCategoryAttribute.
  by destruct (filter _ _).
Qed.

Lemma Xliff2_reserved_shape (ns : list Node) :
  forallb plainNoteChild ns = true ->
  Xliff2_reserved key (unitWithNotes tg a pre na ns post)
  = pcdataOf
      <$> head (filter (fun c => isReservedNote "category" key c = true) ns).
Proof.
  intros Hns. by rewrite Xliff2_reserved_head, Xliff2_reservedTexts_shape,
    head_fmap.
Qed.

Lemma shape_no_category_paths (K cs T : list Node) :
  forallb (noElementBelow "note") cs = true ->
  filter (fun c => isReservedNote "category" key c = true) cs = [] ->
  filter (fun p => hasAttributeValue "category" key
                     (unitWithNotes tg a pre na (K ++ cs ++ T) post) p = true)
    (map (cons (length pre))
       (childrenFrom (elementsFrom "note") (length K) cs)) = [].
Proof.
  intros Hflat Hnone.
  pose proof (shape_category_paths (X:=unit) (fun _ => tt) (fun _ => tt) K
                cs T Hflat (fun _ _ _ => eq_refl)) as H.
  rewrite Hnone in H. by apply fmap_nil_inv in H.
Qed.

Lemma Xliff2_find_none (ns : list Node) :
  forallb plainNoteChild ns = true ->
  filter (fun c => isReservedNote "category" key c = true) ns = [] ->
  Xliff2TransUnit.findNoteElementWithCategoryAttribute key
    (unitWithNotes tg a pre na ns post) = None.
Proof.
  intros Hns%plainNoteChild_flat Hnone.
  unfold Xliff2TransUnit.findNoteElementWithCategoryAttribute.
  rewrite shape_note_elements by done.
  pose proof (shape_no_category_paths [] ns [] Hns Hnone) as H.
  rewrite app_nil_r in H. simpl in H. by rewrite H.
Qed.

Lemma Xliff2_find_first (l1 l2 : list Node) (c : Node) :
  forallb plainNoteChild (l1 ++ c :: l2) = true ->
  isReservedNote "category" key c = true ->
  filter (fun c => isReservedNote "category" key c = true) l1 = [] ->
  Xliff2TransUnit.findNoteElementWithCategoryAttribute key
    (unitWithNotes tg a pre na (l1 ++ c :: l2) post)
  = Some [length pre; length l1].
Proof.
  intros Hflat%plainNoteChild_flat Hc Hl1.
  apply forallb_Forall, Forall_app in Hflat as [H1 H2].
  apply Forall_cons in H2 as [Hfc H2]. apply forallb_Forall in H1.
  unfold Xliff2TransUnit.findNoteElementWithCategoryAttribute.
  rewrite shape_note_elements by done.
  rewrite childrenFrom_app, map_app, filter_app.
  pose proof (shape_no_category_paths [] l1 (c :: l2) H1 Hl1) as Hfirst.
  simpl in Hfirst. rewrite Hfirst. simpl.
  apply andb_true_iff in Hc as [Hn Hv].
  rewrite (elementsFrom_flat c Hfc), Hn. simpl.
  rewrite filter_cons_True; [done |].
  rewrite (hasAttributeValue_node "category" key _ [length pre; length l1] c);
    [done |].
  rewrite shape_nodeAt_note. by rewrite list_lookup_middle.
Qed.
End Reserved20.

(** *** Setting description and meaning in XLIFF 2.0 *)

Lemma Xliff2_plain_reads (key tg : string) (a : list (string * string))
  (cs : list Node) :
  forallb plainNode cs = true ->
  Xliff2_reserved key (Element tg a cs) = None
  /\ Xliff2_reservedTexts key (Element tg a cs) = []
  /\ Xliff2TransUnit.notes (Element tg a cs) = []
  /\ Xliff2TransUnit.findNoteElementWithCategoryAttribute key (Element tg a cs)
     = None.
Proof.
  intros Hplain.
  unfold Xliff2_reserved, Xliff2_reservedTexts, Xliff2TransUnit.notes,
    Xliff2TransUnit.findAllAdditionalNoteElements,
    Xliff2TransUnit.findNoteElementWithCategoryAttribute.
  by rewrite (proj1 (plain_unit_no_notes tg a cs Hplain)).
Qed.

Section SetReserved20.
Variable key : string.
Variable tg : string.
Variable a : list (string * string).

Lemma Xliff2_setReserved_create_plain (cs : list Node)
  (value : option string) (d : string) :
  forallb plainNode cs = true ->
  truthy value = Some d ->
  Xliff2_setReserved key value (Element tg a cs)
  = (unitWithNotes tg a cs []
       [noteElement20 {| from := Some key; text := d |}] [], Return tt).
Proof.
  intros Hplain Hd. unfold Xliff2_setReserved. unfold bind at 1, gets at 1.
  destruct (Xliff2_plain_reads key tg a cs Hplain) as (_ & _ & _ & ->).
  rewrite Hd. unfold bind.
  pose proof (plain_create_one tg a cs {| from := Some key; text := d |}
                Hplain) as H.
  cbn [from text] in H. by rewrite H.
Qed.

Lemma Xliff2_setReserved_absent_plain (cs : list Node)
  (value : option string) :
  forallb plainNode cs = true ->
  truthy value = None ->
  Xliff2_setReserved key value (Element tg a cs) = (Element tg a cs, Return tt).
Proof.
  intros Hplain Hd. unfold Xliff2_setReserved. unfold bind at 1, gets at 1.
  destruct (Xliff2_plain_reads key tg a cs Hplain) as (_ & _ & _ & ->).
  by rewrite Hd.
Qed.

Variable pre : list Node.
Variable na : list (string * string).
Variable post : list Node.
Hypothesis Hpre : forallb plainNode pre = true.
Hypothesis Hpost : forallb plainNode post = true.

Lemma Xliff2_setReserved_create (ns : list Node) (value : option string)
  (d : string) :
  forallb plainNoteChild ns = true ->
  filter (fun c => isReservedNote "category" key c = true) ns = [] ->
  truthy value = Some d ->
  Xliff2_setReserved key value (unitWithNotes tg a pre na ns post)
  = (unitWithNotes tg a pre na
       (ns ++ [noteElement20 {| from := Some key; text := d |}]) post,
     Return tt).
Proof.
  intros Hns Hnone Hd. unfold Xliff2_setReserved. unfold bind at 1, gets at 1.
  rewrite (Xliff2_find_none key tg a pre na post Hpre Hpost ns Hns Hnone), Hd.
  unfold Xliff2TransUnit.createNoteElementWithCategoryAttribute.
  unfold bind at 1. unfold bind at 1. unfold gets at 1.
  rewrite shape_first_notes by done. unfold bind at 1, ret at 1.
  change (appendChild [length pre] ?n ?e)
    with (appendChild [length pre]
            (noteElement20 {| from := Some key; text := d |}) e).
  by rewrite shape_appendChild.
Qed.

Lemma shape_replace_note (l1 l2 : list Node) (c : Node) (d : string) :
  updateAt [length pre; length l1] (withChildNodes (markup d))
    (unitWithNotes tg a pre na (l1 ++ c :: l2) post)
  = unitWithNotes tg a pre na (l1 ++ withChildNodes (markup d) c :: l2) post.
Proof.
  change [length pre; length l1] with ([length pre] ++ [length l1]).
  rewrite updateAt_app, shape_update_notes. unfold unitWithNotes. simpl.
  do 4 f_equal. replace (length l1) with (length l1 + 0) by lia.
  by rewrite alter_app_r.
Qed.

Lemma Xliff2_setReserved_replace (l1 l2 : list Node) (c : Node)
  (value : option string) (d : string) :
  forallb plainNoteChild (l1 ++ c :: l2) = true ->
  isReservedNote "category" key c = true ->
  filter (fun c => isReservedNote "category" key c = true) l1 = [] ->
  truthy value = Some d ->
  Xliff2_setReserved key value (unitWithNotes tg a pre na (l1 ++ c :: l2) post)
  = (unitWithNotes tg a pre na (l1 ++ withChildNodes (markup d) c :: l2) post,
     Return tt).
Proof.
  intros Hns Hc Hl1 Hd. unfold Xliff2_setReserved. unfold bind at 1, gets at 1.
  rewrite (Xliff2_find_first key tg a pre na post Hpre Hpost l1 l2 c Hns Hc Hl1).
  rewrite Hd. unfold replaceContentWithXMLContent, modify.
  by rewrite shape_replace_note.
Qed.

Lemma Xliff2_setReserved_remove (l1 l2 : list Node) (c : Node)
  (value : option string) :
  forallb plainNoteChild (l1 ++ c :: l2) = true ->
  isReservedNote "category" key c = true ->
  filter (fun c => isReservedNote "category" key c = true) l1 = [] ->
  truthy value = None ->
  Xliff2_setReserved key value (unitWithNotes tg a pre na (l1 ++ c :: l2) post)
  = (if existsb isNoteElement (l1 ++ l2)
     then unitWithNotes tg a pre na (l1 ++ l2) post
     else Element tg a (pre ++ post), Return tt).
Proof.
  intros Hns Hc Hl1 Hd. unfold Xliff2_setReserved. unfold bind at 1, gets at 1.
  rewrite (Xliff2_find_first key tg a pre na post Hpre Hpost l1 l2 c Hns Hc Hl1).
  rewrite Hd. unfold Xliff2TransUnit.removeNoteElementWithCategoryAttribute.
  unfold bind at 1. unfold bind at 1. unfold gets at 1.
  rewrite (Xliff2_find_first key tg a pre na post Hpre Hpost l1 l2 c Hns Hc Hl1).
  rewrite shape_removeNode, delete_middle.
  apply shape_removeNotesElementIfEmpty; [done | done |].
  apply plainNoteChild_flat in Hns.
  apply forallb_Forall in Hns. apply Forall_app in Hns as [H1 H2].
  apply Forall_cons in H2 as [_ H2]. apply forallb_Forall, Forall_app. by split.
Qed.

Lemma Xliff2_setReserved_absent (ns : list Node) (value : option string) :
  forallb plainNoteChild ns = true ->
  filter (fun c => isReservedNote "category" key c = true) ns = [] ->
  truthy value = None ->
  Xliff2_setReserved key value (unitWithNotes tg a pre na ns post)
  = (unitWithNotes tg a pre na ns post, Return tt).
Proof.
  intros Hns Hnone Hd. unfold Xliff2_setReserved. unfold bind at 1, gets at 1.
  by rewrite (Xliff2_find_none key tg a pre na post Hpre Hpost ns Hns Hnone), Hd.
Qed.
End SetReserved20.

Lemma no_note_elements (f : Node -> bool) (l : list Node) :
  existsb isNoteElement l = false ->
  filter (fun c => isNoteElement c && f c = true) l = [].
Proof.
  intros H%existsb_false_Forall. apply filter_none.
  eapply Forall_impl; [exact H |]. intros c Hc. simpl. by rewrite Hc.
Qed.

Section Sets20.
Variable key other : string.
Hypothesis Hkey : key = "description" \/ key = "meaning".
Hypothesis Hother : other <> key.

Lemma isReservedNote_new20 (d : string) :
  isReservedNote "category" key
    (noteElement20 {| from := Some key; text := d |}) = true.
Proof.
  destruct Hkey as [-> | ->]; unfold isReservedNote, hasValue; simpl;
    by destruct d.
Qed.

Lemma Xliff2_setReserved_sets (e : Node) (value : option string) (d : string) :
  notesAreInNotesElement e = true ->
  truthy value = Some d ->
  exists e',
    Xliff2_setReserved key value e = (e', Return tt)
    /\ Xliff2_reserved key e' = Some d
    /\ Xliff2_reserved other e' = Xliff2_reserved other e
    /\ Xliff2TransUnit.notes e' = Xliff2TransUnit.notes e.
Proof.
  intros He Hd. destruct e as [| tg a cs]; [done |]. simpl in He.
  set (n := noteElement20 {| from := Some key; text := d |}).
  assert (Hn : isReservedNote "category" key n = true)
    by apply isReservedNote_new20.
  assert (Hpn : plainNoteChild n = true) by apply plainNoteChild_noteElement.
  destruct (notesInContainer_shape cs He)
    as [Hplain | (pre & na & ns & post & -> & Hpre & Hns & Hpost)].
  - eexists. split; [by apply Xliff2_setReserved_create_plain |].
    destruct (Xliff2_plain_reads other tg a cs Hplain) as (-> & _ & -> & _).
    assert (Hns1 : forallb plainNoteChild [n] = true)
      by (cbn [forallb]; by rewrite Hpn).
    fold n.
    rewrite (Xliff2_reserved_shape key tg a cs [] [] Hplain eq_refl [n] Hns1).
    rewrite (Xliff2_reserved_shape other tg a cs [] [] Hplain eq_refl [n] Hns1).
    rewrite (shape_notes tg a cs [] [] Hplain eq_refl [n] Hns1).
    split_and!.
    + rewrite filter_cons_True by done. simpl. f_equal. apply pcdataOf_markup.
    + by rewrite filter_cons_False
        by (rewrite (isReservedNote_other "category" key other n Hn Hother);
            done).
    + by rewrite filter_cons_False
        by (change (isAdditionalNote20 n)
              with (isNoteElement n && additionalNode "category" n);
            rewrite (isReservedNote_not_additional "category" key n Hkey Hn);
            done).
  - fold (unitWithNotes tg a pre na ns post).
    destruct (first_match_split (isReservedNote "category" key) ns)
      as [Hnone | (l1 & c & l2 & -> & Hc & Hl1)].
    + eexists. split; [by apply Xliff2_setReserved_create |]. fold n.
      assert (Hns' : forallb plainNoteChild (ns ++ [n]) = true).
      { apply forallb_Forall, Forall_app. split; [by apply forallb_Forall |].
        by apply Forall_singleton. }
      rewrite !Xliff2_reserved_shape, !shape_notes by done.
      split_and!.
      * rewrite filter_app, Hnone, filter_cons_True by done. simpl.
        f_equal. apply pcdataOf_markup.
      * by rewrite (filter_append_same (isReservedNote "category" other))
          by by apply (isReservedNote_other "category" key).
      * by rewrite (filter_append_same isAdditionalNote20)
          by by apply (isReservedNote_not_additional "category" key).
    + eexists. split; [by apply Xliff2_setReserved_replace |].
      pose proof Hc as [Hnote _]%andb_true_iff.
      destruct (withChildNodes_markup_tests "category" key d c Hnote)
        as (Hn' & Hv' & _ & Hp' & _ & Hf').
      set (c' := withChildNodes (markup d) c) in *.
      assert (Hc' : isReservedNote "category" key c' = true).
      { unfold isReservedNote. rewrite Hn', Hv'.
        by apply andb_true_iff in Hc as [_ ->]. }
      assert (Hns' : forallb plainNoteChild (l1 ++ c' :: l2) = true).
      { apply forallb_Forall in Hns. apply Forall_app in Hns as [H1 H2].
        apply Forall_cons in H2 as [_ H2].
        apply forallb_Forall, Forall_app. split; [done |]. by constructor. }
      rewrite !Xliff2_reserved_shape, !shape_notes by done.
      split_and!.
      * rewrite filter_app, Hl1, filter_cons_True by done. simpl.
        by rewrite Hp'.
      * by rewrite (filter_replace_same (isReservedNote "category" other)
                      l1 l2 c c')
          by by apply (isReservedNote_other "category" key).
      * by rewrite (filter_replace_same isAdditionalNote20 l1 l2 c c')
          by by apply (isReservedNote_not_additional "category" key).
Qed.

Lemma Xliff2_setReserved_clears (e : Node) (value : option string) :
  notesAreInNotesElement e = true ->
  truthy value = None ->
  exists e',
    Xliff2_setReserved key value e = (e', Return tt)
    /\ Xliff2_reserved key e' = head (tail (Xliff2_reservedTexts key e))
    /\ Xliff2_reserved other e' = Xliff2_reserved other e
    /\ Xliff2TransUnit.notes e' = Xliff2TransUnit.notes e
    /\ (Xliff2_reserved key e = None -> e' = e)
    /\ (Xliff2_reserved key e <> None ->
        getFirstElementByTagName "note" e' = None ->
        getFirstElementByTagName "notes" e' = None).
Proof.
  intros He Hd. destruct e as [| tg a cs]; [done |]. simpl in He.
  destruct (notesInContainer_shape cs He)
    as [Hplain | (pre & na & ns & post & -> & Hpre & Hns & Hpost)].
  - eexists. split; [by apply Xliff2_setReserved_absent_plain |].
    destruct (Xliff2_plain_reads key tg a cs Hplain) as (-> & -> & _ & _).
    done.
  - fold (unitWithNotes tg a pre na ns post).
    destruct (first_match_split (isReservedNote "category" key) ns)
      as [Hnone | (l1 & c & l2 & -> & Hc & Hl1)].
    + eexists. split; [by apply Xliff2_setReserved_absent |].
      rewrite Xliff2_reserved_shape, Xliff2_reservedTexts_shape, Hnone by done.
      done.
    + eexists. split; [by apply Xliff2_setReserved_remove |].
      assert (Hns' : forallb plainNoteChild (l1 ++ l2) = true).
      { apply forallb_Forall in Hns. apply Forall_app in Hns as [H1 H2].
        apply Forall_cons in H2 as [_ H2].
        apply forallb_Forall, Forall_app. by split. }
      rewrite (Xliff2_reserved_shape key tg a pre na post Hpre Hpost _ Hns).
      rewrite (Xliff2_reserved_shape other tg a pre na post Hpre Hpost _ Hns).
      rewrite (Xliff2_reservedTexts_shape key tg a pre na post Hpre Hpost _ Hns).
      rewrite (shape_notes tg a pre na post Hpre Hpost _ Hns).
      rewrite <- (filter_delete_same (isReservedNote "category" other) l1 l2 c)
        by by apply (isReservedNote_other "category" key).
      rewrite <- (filter_delete_same isAdditionalNote20 l1 l2 c)
        by by apply (isReservedNote_not_additional "category" key).
      rewrite (filter_app _ l1 (c :: l2)), Hl1, filter_cons_True by done.
      simpl. rewrite head_fmap.
      destruct (existsb isNoteElement (l1 ++ l2)) eqn:Hany.
      * rewrite !Xliff2_reserved_shape, shape_notes by done.
        rewrite filter_app, Hl1. simpl.
        split_and!; [done | done | done | done |].
        intros _ Hno. exfalso.
        unfold getFirstElementByTagName in Hno.
        rewrite shape_note_elements in Hno by done.
        apply (flat_some_note_path 0 (l1 ++ l2)
                 (plainNoteChild_flat _ Hns') Hany).
        by destruct (childrenFrom _ 0 (l1 ++ l2)).
      * assert (Hplain : forallb plainNode (pre ++ post) = true).
        { apply forallb_Forall, Forall_app. by rewrite <- !forallb_Forall. }
        destruct (Xliff2_plain_reads key tg a (pre ++ post) Hplain)
          as (-> & _ & -> & _).
        destruct (Xliff2_plain_reads other tg a (pre ++ post) Hplain)
          as (-> & _ & _ & _).
        pose proof (no_note_elements (hasValue "category" other) _ Hany) as Ho.
        pose proof (no_note_elements (additionalNode "category") _ Hany) as Ha.
        pose proof (no_note_elements (hasValue "category" key) _ Hany) as Hk.
        change (filter (fun c => isReservedNote "category" other c = true)
                  (l1 ++ l2) = []) in Ho.
        change (filter (fun c => isAdditionalNote20 c = true) (l1 ++ l2) = [])
          in Ha.
        change (filter (fun c => isReservedNote "category" key c = true)
                  (l1 ++ l2) = []) in Hk.
        rewrite filter_app, Hl1 in Hk. simpl in Hk.
        rewrite Ho, Ha, Hk.
        split_and!; [done | done | done | done |].
        intros _ _. apply (plain_unit_no_notes tg a (pre ++ post) Hplain).
Qed.
End Sets20.

(** X12: [setDescription] and [setMeaning] of XLIFF 2.0 with a text that is
    not empty, on a unit whose notes are in its notes element (or that has
    none).  The call returns, [description] (or [meaning]) then gives the
    text that was set, and the other of the two and [notes] give what they
    gave before. *)
Theorem Xliff2_setDescription_sets (e : Node) (value : option string)
  (d : string) :
  notesAreInNotesElement e = true ->
  truthy value = Some d ->
  (exists e',
     Xliff2TransUnit.setDescription value e = (e', Return tt)
     /\ Xliff2TransUnit.description e' = Some d
     /\ Xliff2TransUnit.meaning e' = Xliff2TransUnit.meaning e
     /\ Xliff2TransUnit.notes e' = Xliff2TransUnit.notes e)
  /\ (exists e',
     Xliff2TransUnit.setMeaning value e = (e', Return tt)
     /\ Xliff2TransUnit.meaning e' = Some d
     /\ Xliff2TransUnit.description e' = Xliff2TransUnit.description e
     /\ Xliff2TransUnit.notes e' = Xliff2TransUnit.notes e).
Proof.
  intros He Hd. split.
  - apply (Xliff2_setReserved_sets "description" "meaning"); auto.
  - apply (Xliff2_setReserved_sets "meaning" "description"); auto.
Qed.

Lemma Xliff2_setDescription_sets_witness :
  (exists e',
     Xliff2TransUnit.setDescription (Some "a salutation") helloUnit2
     = (e', Return tt)
     /\ Xliff2TransUnit.description e' = Some "a salutation"
     /\ Xliff2TransUnit.meaning e' = None)
  /\ (exists e',
     Xliff2TransUnit.setMeaning (Some "hello") bareUnit2 = (e', Return tt)
     /\ Xliff2TransUnit.meaning e' = Some "hello"
     /\ Xliff2TransUnit.notes e' = []).
Proof.
  split.
  - destruct (proj1 (Xliff2_setDescription_sets helloUnit2
                       (Some "a salutation") "a salutation" eq_refl eq_refl))
      as (e' & Hrun & Hd & Hm & _).
    exists e'. split_and!; [exact Hrun | exact Hd | exact Hm].
  - destruct (proj2 (Xliff2_setDescription_sets bareUnit2 (Some "hello")
                       "hello" eq_refl eq_refl))
      as (e' & Hrun & Hm & _ & Hn).
    exists e'. split_and!; [exact Hrun | exact Hm | exact Hn].
Defined.

(** X13: [setDescription] and [setMeaning] of XLIFF 2.0 with [null] or the
    empty text, on a unit whose notes are in its notes element.  The first
    note of that category is removed and no other note: [description] (or
    [meaning]) then gives the text of the next such note, [null] when there
    was at most one; the other of the two and [notes] give what they gave
    before.  A unit that had no such note is left as it was; when the note
    removed was the last note of the unit, the notes element goes with
    it. *)
Theorem Xliff2_setDescription_clears (e : Node) (value : option string) :
  notesAreInNotesElement e = true ->
  truthy value = None ->
  (exists e',
     Xliff2TransUnit.setDescription value e = (e', Return tt)
     /\ Xliff2TransUnit.description e'
        = head (tail (Xliff2_reservedTexts "description" e))
     /\ Xliff2TransUnit.meaning e' = Xliff2TransUnit.meaning e
     /\ Xliff2TransUnit.notes e' = Xliff2TransUnit.notes e
     /\ (Xliff2TransUnit.description e = None -> e' = e)
     /\ (Xliff2TransUnit.description e <> None ->
         getFirstElementByTagName "note" e' = None ->
         getFirstElementByTagName "notes" e' = None))
  /\ (exists e',
     Xliff2TransUnit.setMeaning value e = (e', Return tt)
     /\ Xliff2TransUnit.meaning e'
        = head (tail (Xliff2_reservedTexts "meaning" e))
     /\ Xliff2TransUnit.description e' = Xliff2TransUnit.description e
     /\ Xliff2TransUnit.notes e' = Xliff2TransUnit.notes e
     /\ (Xliff2TransUnit.meaning e = None -> e' = e)
     /\ (Xliff2TransUnit.meaning e <> None ->
         getFirstElementByTagName "note" e' = None ->
         getFirstElementByTagName "notes" e' = None)).
Proof.
  intros He Hd. split.
  - apply (Xliff2_setReserved_clears "description" "meaning"); auto.
  - apply (Xliff2_setReserved_clears "meaning" "description"); auto.
Qed.

Lemma Xliff2_setDescription_clears_witness :
  (exists e',
     Xliff2TransUnit.setDescription None helloUnit2 = (e', Return tt)
     /\ Xliff2TransUnit.description e' = None
     /\ Xliff2TransUnit.notes e' = Xliff2TransUnit.notes helloUnit2)
  /\ Xliff2TransUnit.setMeaning (Some EmptyString) helloUnit2
     = (helloUnit2, Return tt).
Proof.
  split.
  - destruct (proj1 (Xliff2_setDescription_clears helloUnit2 None
                       eq_refl eq_refl)) as (e' & Hrun & Hd & _ & Hn & _).
    exists e'. split_and!; [exact Hrun | exact Hd | exact Hn].
  - destruct (proj2 (Xliff2_setDescription_clears helloUnit2
                       (Some EmptyString) eq_refl eq_refl))
      as (e' & Hrun & _ & _ & _ & Hsame & _).
    rewrite Hrun. by rewrite (Hsame eq_refl).
Defined.

(** ** What [setNotes] leaves alone *)

Lemma filter_filter_implied {A : Type} (f g : A -> bool) (l : list A) :
  (forall x, f x = true -> g x = false) ->
  filter (fun x => f x = true) (filter (fun x => g x = false) l)
  = filter (fun x => f x = true) l.
Proof.
  intros Himp. induction l as [| x l IH]; [done |].
  destruct (g x) eqn:Hg.
  - rewrite (filter_cons_False (fun x => g x = false)) by congruence.
    rewrite IH. rewrite filter_cons_False; [done |].
    intros Hf. apply Himp in Hf. congruence.
  - rewrite (filter_cons_True (fun x => g x = false)) by done.
    rewrite !filter_cons. by rewrite IH.
Qed.




(** *** XLIFF 1.2 *)

Lemma Xliff_setNotes_fragment (tg : string) (a : list (string * string))
  (cs : list Node) (newNotes : option (list INote)) :
  forallb (noElementBelow "note") cs = true ->
  acceptedNotes newNotes = true ->
  XliffTransUnit.setNotes newNotes (Element tg a cs)
  = (Element tg a
       (filter (fun c => isAdditionalNote12 c = false) cs
          ++ map noteElement12 (default [] newNotes)), Return tt).
Proof.
  intros Hflat Hok. unfold XliffTransUnit.setNotes.
  destruct newNotes as [l |]; simpl in Hok.
  - apply negb_true_iff in Hok. unfold checkNotes. rewrite Hok.
    unfold bind at 1. unfold ret at 1. unfold bind at 1.
    rewrite (Xliff_remove_flat tg a cs Hflat). apply Xliff_create_all.
  - unfold bind at 1. unfold ret at 1. unfold bind at 1.
    rewrite (Xliff_remove_flat tg a cs Hflat). simpl. by rewrite app_nil_r.
Qed.




(** *** XLIFF 2.0 *)

Section Keeps20.
Variable key : string.
Hypothesis Hkey : key = "description" \/ key = "meaning".
Variable tg : string.
Variable a : list (string * string).





End Keeps20.





(** ** What writing the target leaves alone *)

Lemma nodeAt_updateAt_apart (p q : Path) (f : Node -> Node) (n : Node) :
  ~ p `prefix_of` q -> ~ q `prefix_of` p ->
  nodeAt p (updateAt q f n) = nodeAt p n.
Proof.
  revert q n. induction p as [| i p IH]; intros q n Hpq Hqp.
  - destruct Hpq. apply prefix_nil.
  - destruct q as [| j q]; [destruct Hqp; apply prefix_nil |].
    destruct n as [d | t a cs]; [reflexivity |]. simpl.
    destruct (decide (i = j)) as [-> |].
    + rewrite list_lookup_alter_eq. destruct (cs !! j) as [c |]; [| reflexivity].
      simpl. apply IH.
      * intros H. apply Hpq. by apply prefix_cons.
      * intros H. apply Hqp. by apply prefix_cons.
    + by rewrite list_lookup_alter_ne.
Qed.

Lemma nodeAt_elementsFrom (t : string) (x : Path) :
  forall (m : Node) (a : list (string * string)) (cs : list Node),
    nodeAt x m = Some (Element t a cs) -> x ∈ elementsFrom t m.
Proof.
  induction x as [| i x IH]; intros m a cs Hx.
  - simpl in Hx. injection Hx as ->. rewrite elementsFrom_unfold. simpl.
    rewrite String.eqb_refl. apply list_elem_of_here.
  - destruct m as [d | tg a' cs']; [done |]. simpl in Hx.
    destruct (cs' !! i) as [c |] eqn:Hi; [| done].
    rewrite elementsFrom_unfold. apply elem_of_app. right.
    fold (getElementsByTagName t (Element tg a' cs')).
    unfold getElementsByTagName. simpl childNodesOf.
    rewrite (childrenFrom_split (elementsFrom t) 0 i cs' c Hi).
    apply elem_of_app. right. apply elem_of_app. left.
    apply list_elem_of_fmap. exists x. split; [done |]. by apply (IH c a cs).
Qed.

Lemma head_children_take (B : Node -> list Path) (cs : list Node) (k i : nat)
  (r : Path) (rest : list Path) :
  head (childrenFrom B 0 cs) = Some (i :: r) -> i < k -> k <= length cs ->
  head (childrenFrom B 0 (take k cs) ++ rest) = Some (i :: r).
Proof.
  intros Hhead Hik Hk.
  rewrite <- (take_drop k cs), childrenFrom_app in Hhead.
  destruct (childrenFrom B 0 (take k cs)) as [| x l] eqn:Hfirst.
  - rewrite app_nil_l in Hhead.
    destruct (childrenFrom B (0 + length (take k cs)) (drop k cs))
      as [| y l'] eqn:Hsecond; [done |].
    simpl in Hhead. injection Hhead as ->.
    destruct (childrenFrom_drop_index B (0 + length (take k cs)) (drop k cs)
                (i :: r)) as (j & p' & Hj & Hle).
    { rewrite Hsecond. apply list_elem_of_here. }
    injection Hj as <- <-. rewrite length_take in Hle. lia.
  - simpl in *. done.
Qed.

Lemma head_elementsFrom_insert (t tg : string) (a : list (string * string))
  (cs : list Node) (i k : nat) (new : Node) :
  head (elementsFrom t (Element tg a cs)) = Some [i] ->
  i < k -> k <= length cs ->
  head (elementsFrom t (insertChild k new (Element tg a cs))) = Some [i].
Proof.
  unfold insertChild. cbn [withChildNodes childNodesOf].
  rewrite !elementsFrom_unfold. cbn [selfMatch childNodesOf].
  unfold getElementsByTagName. cbn [childNodesOf].
  destruct (String.eqb tg t); [done |]. rewrite !app_nil_l.
  intros Hhead Hik Hk. rewrite childrenFrom_app.
  by apply head_children_take.
Qed.

Lemma getFirst_insert_after (t : string) (e : Node) (q : Path) (i k : nat)
  (new : Node) (tg : string) (a : list (string * string)) (cs : list Node) :
  getFirstElementByTagName t e = Some (q ++ [i]) ->
  nodeAt q e = Some (Element tg a cs) -> i < k -> k <= length cs ->
  getFirstElementByTagName t (updateAt q (insertChild k new) e)
  = Some (q ++ [i]).
Proof.
  intros Hfirst Hq Hik Hk. unfold getFirstElementByTagName in *.
  destruct (decide (q = [])) as [-> | Hne].
  - simpl in Hq. injection Hq as ->. simpl.
    unfold getElementsByTagName in *. simpl childNodesOf in *.
    rewrite childrenFrom_app. by apply head_children_take.
  - destruct (getElements_updateAt t q e _ Hne Hq) as (l1 & l2 & Hout & Hlist).
    pose proof (Hlist (Element tg a cs)) as H0.
    rewrite (updateAt_id q e _ Hq) in H0. rewrite H0 in Hfirst.
    rewrite (updateAt_const q _ e _ Hq), Hlist.
    destruct l1 as [| x l1].
    2:{ simpl in Hfirst. injection Hfirst as ->. exfalso.
        apply (Hout (q ++ [i])); [apply list_elem_of_here |].
        by apply prefix_app_r. }
    rewrite app_nil_l in Hfirst |- *.
    pose proof (head_elementsFrom_insert t tg a cs i k new) as Hins.
    destruct (elementsFrom t (Element tg a cs)) as [| x E].
    { simpl in Hfirst. destruct l2 as [| y l2]; [done |].
      simpl in Hfirst. injection Hfirst as ->. exfalso.
      apply (Hout (q ++ [i])); [apply elem_of_app; right; apply list_elem_of_here |].
      by apply prefix_app_r. }
    simpl in Hfirst. injection Hfirst as Hx. apply app_inv_head in Hx as ->.
    specialize (Hins eq_refl Hik Hk).
    destruct (elementsFrom t (insertChild k new (Element tg a cs))); [done |].
    simpl in Hins. injection Hins as ->. done.
Qed.

Lemma siblings_apart (q : Path) (i j : nat) :
  i <> j -> ~ (q ++ [i]) `prefix_of` (q ++ [j]).
Proof.
  intros Hij [k Hk]. rewrite <- app_assoc in Hk.
  apply app_inv_head in Hk. simpl in Hk. by injection Hk.
Qed.

Lemma written_keeps_source (e0 : Node) (ps pt : Path) (content : string) :
  getFirstElementByTagName "source" e0 = Some ps ->
  getFirstElementByTagName "target" e0 = Some pt ->
  ~ ps `prefix_of` pt -> ~ pt `prefix_of` ps ->
  let e1 := updateAt pt (withChildNodes (markup content)) e0 in
  getFirstElementByTagName "source" e1 = Some ps
  /\ getFirstElementByTagName "target" e1 = Some pt
  /\ nodeAt ps e1 = nodeAt ps e0.
Proof.
  intros Hps Hpt H1 H2 e1.
  destruct (getFirst_nodeAt _ _ _ Hpt) as (Hne & a & cs & Hm).
  split_and!.
  - unfold e1. rewrite (updateAt_const _ _ _ _ Hm).
    apply (getFirst_updateAt_outside "source" pt ps e0 _ _ Hps Hm Hne H2).
    by apply elementsFrom_markup.
  - by apply first_content_written.
  - by apply nodeAt_updateAt_apart.
Qed.

Lemma sourceApart_paths (e : Node) (ps pt : Path) :
  sourceApartFromTarget e = true ->
  getFirstElementByTagName "source" e = Some ps ->
  getFirstElementByTagName "target" e = Some pt ->
  ~ ps `prefix_of` pt /\ ~ pt `prefix_of` ps.
Proof.
  unfold sourceApartFromTarget. intros H Hs Ht. rewrite Hs, Ht in H.
  apply andb_true_iff in H as [H1 H2].
  apply negb_true_iff, bool_decide_eq_false in H1, H2. done.
Qed.

(** *** XLIFF 1.2 *)

Lemma Xliff_locate_target (e : Node) (ps : Path) :
  getFirstElementByTagName "source" e = Some ps ->
  sourceApartFromTarget e = true ->
  exists e0 pt,
    match getFirstElementByTagName "target" e with
    | Some t => ret t
    | None => createFollowingSibling "target" (Some ps)
    end e = (e0, Return pt)
    /\ getFirstElementByTagName "target" e0 = Some pt
    /\ getFirstElementByTagName "source" e0 = Some ps
    /\ nodeAt ps e0 = nodeAt ps e
    /\ ~ ps `prefix_of` pt /\ ~ pt `prefix_of` ps.
Proof.
  intros Hps Hapart.
  destruct (getFirstElementByTagName "target" e) as [pt |] eqn:Hpt.
  - exists e, pt. destruct (sourceApart_paths e ps pt Hapart Hps Hpt).
    by split_and!.
  - destruct (getFirst_nodeAt _ _ _ Hps) as (Hne & a & cs & Hsrc).
    destruct (path_snoc ps Hne) as (q & i & ->).
    destruct (nodeAt_snoc _ _ _ _ Hsrc) as (tg & a' & cs' & Hq & Hi).
    pose proof (lookup_lt_Some _ _ _ Hi) as Hlt.
    eexists _, _. unfold createFollowingSibling. simpl.
    rewrite parentAndIndex_snoc. split; [reflexivity |]. split_and!.
    + unfold getFirstElementByTagName.
      by rewrite (getElements_insert_fresh "target" q (S i) e
                    (Element "target" [] []) tg a' cs'
                    (getFirst_None _ _ Hpt) Hq ltac:(lia) eq_refl).
    + apply (getFirst_insert_after "source" e q i (S i) _ tg a' cs' Hps Hq);
        lia.
    + by rewrite (nodeAt_insert_before q [] i (S i) e _ tg a' cs' Hq) by lia.
    + apply siblings_apart. lia.
    + apply siblings_apart. lia.
Qed.

Lemma Xliff_written_source (e e0 : Node) (ps pt : Path)
  (content token : string) :
  getFirstElementByTagName "source" e = Some ps ->
  getFirstElementByTagName "target" e0 = Some pt ->
  getFirstElementByTagName "source" e0 = Some ps ->
  nodeAt ps e0 = nodeAt ps e ->
  ~ ps `prefix_of` pt -> ~ pt `prefix_of` ps ->
  XliffTransUnit.sourceContent
    (updateAt pt (withAttribute "state" token)
       (updateAt pt (withChildNodes (markup content)) e0))
  = XliffTransUnit.sourceContent e.
Proof.
  intros Hps Hpt Hps0 Hnode H1 H2.
  destruct (written_keeps_source e0 ps pt content Hps0 Hpt H1 H2)
    as (Hs1 & Ht1 & Hn1).
  unfold XliffTransUnit.sourceContent.
  rewrite getFirst_setAttribute, Hs1, Hps.
  rewrite getXMLContent_setAttribute by by right.
  unfold getXMLContent. simpl. by rewrite Hn1, Hnode.
Qed.

Lemma Xliff_translateNative_source (translation : string) (e : Node) :
  sourceApartFromTarget e = true ->
  XliffTransUnit.sourceContent
    (fragmentAfter (XliffTransUnit.translateNative translation) e)
  = XliffTransUnit.sourceContent e.
Proof.
  intros Hapart.
  destruct (getFirstElementByTagName "source" e) as [ps |] eqn:Hps.
  2:{ unfold sourceApartFromTarget in Hapart. by rewrite Hps in Hapart. }
  destruct (Xliff_locate_target e ps Hps Hapart)
    as (e0 & pt & Hloc & Hpt & Hps0 & Hnode & H1 & H2).
  destruct (written_keeps_source e0 ps pt translation Hps0 Hpt H1 H2)
    as (Hs1 & Ht1 & Hn1).
  assert (Hrun : XliffTransUnit.translateNative translation e
                 = (updateAt pt (withAttribute "state" "translated")
                      (updateAt pt (withChildNodes (markup translation)) e0),
                    Return tt)).
  { unfold XliffTransUnit.translateNative, XliffTransUnit.setTargetState,
      XliffTransUnit.setNativeTargetState. run.
    destruct (getFirstElementByTagName "target" e) as [t |] eqn:Ht.
    - injection Hloc as <- <-. simpl. by rewrite Ht1.
    - rewrite Hps, Hloc. simpl. by rewrite Ht1. }
  unfold fragmentAfter. rewrite Hrun. simpl.
  by apply (Xliff_written_source e e0 ps pt).
Qed.

Lemma Xliff_useSourceAsTarget_source (isICUMessage : string -> bool)
  (file : ITranslationMessagesFile) (isDefaultLang copyContent : bool)
  (e : Node) :
  sourceApartFromTarget e = true ->
  XliffTransUnit.sourceContent
    (fragmentAfter
       (XliffTransUnit.useSourceAsTarget isICUMessage file isDefaultLang
          copyContent) e)
  = XliffTransUnit.sourceContent e.
Proof.
  intros Hapart.
  destruct (getFirstElementByTagName "source" e) as [ps |] eqn:Hps.
  2:{ unfold sourceApartFromTarget in Hapart. by rewrite Hps in Hapart. }
  destruct (Xliff_locate_target e ps Hps Hapart)
    as (e0 & pt & Hloc & Hpt & Hps0 & Hnode & H1 & H2).
  assert (Hrun : exists content token,
    XliffTransUnit.useSourceAsTarget isICUMessage file isDefaultLang
      copyContent e
    = (updateAt pt (withAttribute "state" token)
         (updateAt pt (withChildNodes (markup content)) e0), Return tt)).
  { exists (synthesized isICUMessage file isDefaultLang copyContent
              (getXMLContent (Some ps) e0)),
      (if isDefaultLang then "final" else "new").
    unfold XliffTransUnit.useSourceAsTarget, synthesized. run. rewrite Hps.
    destruct (getFirstElementByTagName "target" e) as [t |] eqn:Ht.
    - injection Hloc as <- <-.
      destruct isDefaultLang, copyContent; simpl;
        try destruct (isICUMessage _); reflexivity.
    - rewrite Hloc.
      destruct isDefaultLang, copyContent; simpl;
        try destruct (isICUMessage _); reflexivity. }
  destruct Hrun as (content & token & Hrun).
  unfold fragmentAfter. rewrite Hrun. simpl.
  by apply (Xliff_written_source e e0 ps pt).
Qed.

(** *** XLIFF 2.0 *)

Lemma Xliff2_locate_target (e : Node) (ps : Path) :
  getFirstElementByTagName "source" e = Some ps ->
  sourceApartFromTarget e = true ->
  exists e0 pt,
    match getFirstElementByTagName "target" e with
    | Some t => ret t
    | None =>
        Xliff2TransUnit.appendToParentOf (Some ps) (Element "target" [] [])
    end e = (e0, Return pt)
    /\ getFirstElementByTagName "target" e0 = Some pt
    /\ getFirstElementByTagName "source" e0 = Some ps
    /\ nodeAt ps e0 = nodeAt ps e
    /\ ~ ps `prefix_of` pt /\ ~ pt `prefix_of` ps.
Proof.
  intros Hps Hapart.
  destruct (getFirstElementByTagName "target" e) as [pt |] eqn:Hpt.
  - exists e, pt. destruct (sourceApart_paths e ps pt Hapart Hps Hpt).
    by split_and!.
  - destruct (getFirst_nodeAt _ _ _ Hps) as (Hne & a & cs & Hsrc).
    destruct (path_snoc ps Hne) as (q & i & ->).
    destruct (nodeAt_snoc _ _ _ _ Hsrc) as (tg & a' & cs' & Hq & Hi).
    pose proof (lookup_lt_Some _ _ _ Hi) as Hlt.
    eexists _, _. unfold Xliff2TransUnit.appendToParentOf. simpl.
    rewrite parentAndIndex_snoc. unfold appendChild. rewrite Hq.
    split; [reflexivity |]. split_and!.
    + unfold getFirstElementByTagName.
      by rewrite (getElements_insert_fresh "target" q (length cs') e
                    (Element "target" [] []) tg a' cs'
                    (getFirst_None _ _ Hpt) Hq ltac:(lia) eq_refl).
    + unfold getFirstElementByTagName in *.
      by rewrite (getElements_append_other "source" q e _ tg a' cs' Hq).
    + by rewrite (nodeAt_insert_before q [] i (length cs') e _ tg a' cs' Hq)
        by lia.
    + apply siblings_apart. lia.
    + apply siblings_apart. lia.
Qed.

Lemma Xliff2_written_source (e e0 : Node) (ps pt : Path)
  (content token : string) :
  getFirstElementByTagName "source" e = Some ps ->
  noSegmentInSource e = true ->
  getFirstElementByTagName "target" e0 = Some pt ->
  getFirstElementByTagName "source" e0 = Some ps ->
  nodeAt ps e0 = nodeAt ps e ->
  ~ ps `prefix_of` pt -> ~ pt `prefix_of` ps ->
  Xliff2TransUnit.sourceContent (Xliff2_written e0 pt content token)
  = Xliff2TransUnit.sourceContent e.
Proof.
  intros Hps Hseg Hpt Hps0 Hnode H1 H2.
  destruct (written_keeps_source e0 ps pt content Hps0 Hpt H1 H2)
    as (Hs1 & Ht1 & Hn1).
  unfold Xliff2TransUnit.sourceContent, Xliff2_written.
  set (e1 := updateAt pt (withChildNodes (markup content)) e0) in *.
  assert (Hsame : getXMLContent (Some ps) e1 = getXMLContent (Some ps) e).
  { unfold getXMLContent. simpl. by rewrite Hn1, Hnode. }
  destruct (getFirstElementByTagName "segment" e1) as [s |] eqn:Hs.
  - rewrite getFirst_setAttribute, Hs1, Hps.
    rewrite getXMLContent_setAttribute; [done |]. right.
    intros [x ->].
    destruct (getFirst_nodeAt _ _ _ Hs) as (_ & sa & scs & Hsn).
    rewrite nodeAt_app, Hn1, Hnode in Hsn.
    unfold noSegmentInSource in Hseg. rewrite Hps in Hseg. simpl in Hseg.
    destruct (nodeAt ps e) as [n |]; [| done]. simpl in Hsn.
    apply bool_decide_eq_true in Hseg.
    pose proof (nodeAt_elementsFrom "segment" x n sa scs Hsn) as Hin.
    rewrite Hseg in Hin. by apply elem_of_nil in Hin.
  - by rewrite Hs1, Hps.
Qed.

Lemma Xliff2_translateNative_source (translation : string) (e : Node) :
  sourceApartFromTarget e = true ->
  noSegmentInSource e = true ->
  Xliff2TransUnit.sourceContent
    (fragmentAfter (Xliff2TransUnit.translateNative translation) e)
  = Xliff2TransUnit.sourceContent e.
Proof.
  intros Hapart Hseg.
  destruct (getFirstElementByTagName "source" e) as [ps |] eqn:Hps.
  2:{ unfold sourceApartFromTarget in Hapart. by rewrite Hps in Hapart. }
  destruct (Xliff2_locate_target e ps Hps Hapart)
    as (e0 & pt & Hloc & Hpt & Hps0 & Hnode & H1 & H2).
  assert (Hrun : Xliff2TransUnit.translateNative translation e
                 = (Xliff2_written e0 pt translation "translated", Return tt)).
  { unfold Xliff2TransUnit.translateNative, Xliff2TransUnit.setTargetState,
      Xliff2TransUnit.setNativeTargetState, Xliff2_written. run.
    destruct (getFirstElementByTagName "target" e) as [t |] eqn:Ht.
    - injection Hloc as <- <-. simpl.
      by destruct (getFirstElementByTagName "segment" _).
    - rewrite Hps, Hloc. simpl.
      by destruct (getFirstElementByTagName "segment" _). }
  unfold fragmentAfter. rewrite Hrun. simpl.
  by apply (Xliff2_written_source e e0 ps pt).
Qed.

Lemma Xliff2_useSourceAsTarget_source (isICUMessage : string -> bool)
  (file : ITranslationMessagesFile) (isDefaultLang copyContent : bool)
  (e : Node) :
  sourceApartFromTarget e = true ->
  noSegmentInSource e = true ->
  Xliff2TransUnit.sourceContent
    (fragmentAfter
       (Xliff2TransUnit.useSourceAsTarget isICUMessage file isDefaultLang
          copyContent) e)
  = Xliff2TransUnit.sourceContent e.
Proof.
  intros Hapart Hseg.
  destruct (getFirstElementByTagName "source" e) as [ps |] eqn:Hps.
  2:{ unfold sourceApartFromTarget in Hapart. by rewrite Hps in Hapart. }
  destruct (Xliff2_locate_target e ps Hps Hapart)
    as (e0 & pt & Hloc & Hpt & Hps0 & Hnode & H1 & H2).
  assert (Hrun :
    Xliff2TransUnit.useSourceAsTarget isICUMessage file isDefaultLang
      copyContent e
    = (Xliff2_written e0 pt
         (synthesized isICUMessage file isDefaultLang copyContent
            (getXMLContent (Some ps) e0))
         (if isDefaultLang then "final" else "initial"), Return tt)).
  { unfold Xliff2TransUnit.useSourceAsTarget, synthesized, Xliff2_written.
    run. rewrite Hps.
    destruct (getFirstElementByTagName "target" e) as [t |] eqn:Ht.
    - injection Hloc as <- <-.
      destruct isDefaultLang, copyContent; simpl;
        try destruct (isICUMessage _); simpl;
        repeat match goal with
        | |- context [getFirstElementByTagName "segment" ?x] =>
            destruct (getFirstElementByTagName "segment" x)
        end; reflexivity.
    - rewrite Hloc.
      destruct isDefaultLang, copyContent; simpl;
        try destruct (isICUMessage _); simpl;
        repeat match goal with
        | |- context [getFirstElementByTagName "segment" ?x] =>
            destruct (getFirstElementByTagName "segment" x)
        end; reflexivity. }
  unfold fragmentAfter. rewrite Hrun. simpl.
  by apply (Xliff2_written_source e e0 ps pt).
Qed.

(** X16: translating a unit does not touch its source.  On a unit that
    has a source, with source and target apart where there is a target (and,
    in XLIFF 2.0, no segment inside the source), [sourceContent] after
    [translateNative] is what it was before. *)
Theorem translateNative_keeps_source (translation : string) :
  (forall e,
     sourceApartFromTarget e = true ->
     XliffTransUnit.sourceContent
       (fragmentAfter (XliffTransUnit.translateNative translation) e)
     = XliffTransUnit.sourceContent e)
  /\ (forall e,
        sourceApartFromTarget e = true -> noSegmentInSource e = true ->
        Xliff2TransUnit.sourceContent
          (fragmentAfter (Xliff2TransUnit.translateNative translation) e)
        = Xliff2TransUnit.sourceContent e).
Proof.
  split.
  - intros e. apply Xliff_translateNative_source.
  - intros e. apply Xliff2_translateNative_source.
Qed.

Lemma translateNative_keeps_source_witness :
  XliffTransUnit.sourceContent
    (fragmentAfter (XliffTransUnit.translateNative "Hallo") helloUnit)
  = "Hello"
  /\ Xliff2TransUnit.sourceContent
       (fragmentAfter (Xliff2TransUnit.translateNative "Hallo") helloUnit2)
     = "Hello".
Proof.
  split.
  - exact (proj1 (translateNative_keeps_source "Hallo") helloUnit eq_refl).
  - exact (proj2 (translateNative_keeps_source "Hallo") helloUnit2 eq_refl
             eq_refl).
Defined.

(** X17: synthesizing a target does not touch the source.  Under the same
    conditions, [sourceContent] after [useSourceAsTarget] is what it was
    before, whatever the flags and the file's prefix and suffix. *)
Theorem useSourceAsTarget_keeps_source (isICUMessage : string -> bool)
  (file : ITranslationMessagesFile) (isDefaultLang copyContent : bool) :
  (forall e,
     sourceApartFromTarget e = true ->
     XliffTransUnit.sourceContent
       (fragmentAfter
          (XliffTransUnit.useSourceAsTarget isICUMessage file isDefaultLang
             copyContent) e)
     = XliffTransUnit.sourceContent e)
  /\ (forall e,
        sourceApartFromTarget e = true -> noSegmentInSource e = true ->
        Xliff2TransUnit.sourceContent
          (fragmentAfter
             (Xliff2TransUnit.useSourceAsTarget isICUMessage file
                isDefaultLang copyContent) e)
        = Xliff2TransUnit.sourceContent e).
Proof.
  split.
  - intros e. apply Xliff_useSourceAsTarget_source.
  - intros e. apply Xliff2_useSourceAsTarget_source.
Qed.

Lemma useSourceAsTarget_keeps_source_witness :
  XliffTransUnit.sourceContent
    (fragmentAfter
       (XliffTransUnit.useSourceAsTarget startsPlural sampleFile true false)
       helloUnit)
  = "Hello"
  /\ Xliff2TransUnit.sourceContent
       (fragmentAfter
          (Xliff2TransUnit.useSourceAsTarget startsPlural sampleFile false true)
          pluralUnit2)
     = pluralMessage.
Proof.
  split.
  - exact (proj1 (useSourceAsTarget_keeps_source startsPlural sampleFile
                    true false) helloUnit eq_refl).
  - exact (proj2 (useSourceAsTarget_keeps_source startsPlural sampleFile
                    false true) pluralUnit2 eq_refl eq_refl).
Defined.

(** ** Calls that throw *)




(** X19: [translateNative] and [useSourceAsTarget] of XLIFF 2.0 make a
    missing target at [source.parentNode].  On a unit with neither target
    nor source they throw a [TypeError] and write nothing. *)
Theorem Xliff2_no_source_no_target (isICUMessage : string -> bool)
  (file : ITranslationMessagesFile) (e : Node) :
  getFirstElementByTagName "source" e = None ->
  getFirstElementByTagName "target" e = None ->
  (forall translation,
     Xliff2TransUnit.translateNative translation e = (e, Throw TypeError))
  /\ (forall isDefaultLang copyContent,
        Xliff2TransUnit.useSourceAsTarget isICUMessage file isDefaultLang
          copyContent e = (e, Throw TypeError)).
Proof.
  intros Hs Ht. split.
  - intros translation. unfold Xliff2TransUnit.translateNative. run.
    by rewrite Ht, Hs.
  - intros isDefaultLang copyContent.
    unfold Xliff2TransUnit.useSourceAsTarget. run. by rewrite Hs, Ht.
Qed.

Lemma Xliff2_no_source_no_target_witness :
  Xliff2TransUnit.translateNative "Hallo" (Element "unit" [] [])
  = (Element "unit" [] [], Throw TypeError)
  /\ Xliff2TransUnit.useSourceAsTarget startsPlural sampleFile true true
       (Element "unit" [] [])
     = (Element "unit" [] [], Throw TypeError).
Proof.
  destruct (Xliff2_no_source_no_target startsPlural sampleFile
              (Element "unit" [] []) eq_refl eq_refl) as [H1 H2].
  split; [apply H1 | apply H2].
Defined.

(** ** Notes and source references side by side *)

Lemma isLocationGroup_not_note (c : Node) :
  isLocationGroup c = true -> isNoteElement c = false.
Proof.
  destruct c as [| t a cs]; [done |]. unfold isLocationGroup. simpl.
  intros [Ht _]%andb_true_iff. apply String.eqb_eq in Ht as ->. done.
Qed.

Lemma note_test_not_group (f : Node -> bool) (c : Node) :
  isNoteElement c && f c = true -> isLocationGroup c = false.
Proof.
  intros [Hn _]%andb_true_iff. destruct (isLocationGroup c) eqn:Hg; [| done].
  apply isLocationGroup_not_note in Hg. congruence.
Qed.

Lemma note_filter_groups (f : Node -> bool) (cs : list Node)
  (refs : list SourceReference) :
  filter (fun c => isNoteElement c && f c = true)
    (filter (fun c => isLocationGroup c = false) cs ++ map contextGroup refs)
  = filter (fun c => isNoteElement c && f c = true) cs.
Proof.
  rewrite filter_app.
  rewrite (filter_filter_implied (fun c => isNoteElement c && f c)
             isLocationGroup) by apply note_test_not_group.
  rewrite (filter_none _ (map contextGroup refs)); [by rewrite app_nil_r |].
  apply Forall_fmap, Forall_forall. by intros ref _.
Qed.

Lemma notes_flat_after_groups (cs : list Node) (refs : list SourceReference) :
  forallb (noElementBelow "note") cs = true ->
  forallb (noElementBelow "note")
    (filter (fun c => isLocationGroup c = false) cs ++ map contextGroup refs)
  = true.
Proof.
  intros Hflat. apply forallb_Forall, Forall_app. split.
  - apply forallb_Forall. by apply forallb_filter.
  - apply Forall_fmap, Forall_forall. by intros ref _.
Qed.

(** X20: in XLIFF 1.2 the source references are kept apart from the notes.
    On a unit whose notes and context groups are children of the unit,
    [setSourceReferences] returns and leaves [notes], [description] and
    [meaning] as they were. *)
Theorem Xliff_setSourceReferences_keeps_notes (e : Node)
  (refs : list SourceReference) :
  groupsAreChildren e = true ->
  notesAreChildren e = true ->
  exists e',
    XliffTransUnit_setSourceReferences refs e = (e', Return tt)
    /\ XliffTransUnit.notes e' = XliffTransUnit.notes e
    /\ XliffTransUnit.description e' = XliffTransUnit.description e
    /\ XliffTransUnit.meaning e' = XliffTransUnit.meaning e.
Proof.
  intros Hg Hn. destruct e as [| tg a cs]; [done |]. simpl in Hg, Hn.
  eexists. split; [by apply Xliff_setSourceReferences_flat |].
  pose proof (notes_flat_after_groups cs refs Hn) as Hn'.
  change XliffTransUnit.description with (Xliff_reserved "description").
  change XliffTransUnit.meaning with (Xliff_reserved "meaning").
  rewrite !Xliff_notes_flat, !Xliff_reserved_flat by done.
  split_and!.
  - f_equal. apply (note_filter_groups (additionalNode "from")).
  - do 2 f_equal. apply (note_filter_groups (hasValue "from" "description")).
  - do 2 f_equal. apply (note_filter_groups (hasValue "from" "meaning")).
Qed.

Lemma Xliff_setSourceReferences_keeps_notes_witness :
  exists e',
    XliffTransUnit_setSourceReferences [helloReference] locatedUnit
    = (e', Return tt)
    /\ XliffTransUnit.notes e' = []
    /\ XliffTransUnit.description e' = Some "a greeting"
    /\ XliffTransUnit.meaning e' = None.
Proof.
  exact (Xliff_setSourceReferences_keeps_notes locatedUnit [helloReference]
           eq_refl eq_refl).
Defined.

Lemma groups_flat_after_notes (cs : list Node) (l : list INote) :
  forallb (noElementBelow "context-group") cs = true ->
  forallb (noElementBelow "context-group")
    (filter (fun c => isAdditionalNote12 c = false) cs ++ map noteElement12 l)
  = true.
Proof.
  intros Hflat. apply forallb_Forall, Forall_app. split.
  - apply forallb_Forall. by apply forallb_filter.
  - apply Forall_fmap, Forall_forall. intros n _.
    unfold noteElement12, noteElement, noElementBelow.
    apply bool_decide_eq_true. by destruct (text n).
Qed.

(** X21: and [setNotes] of XLIFF 1.2 leaves the source references alone.
    On such a unit, and with an argument that [setNotes] accepts, the call
    returns and [sourceReferences] gives what it gave before. *)
Theorem Xliff_setNotes_keeps_sourceReferences (parseInt : string -> number)
  (e : Node) (newNotes : option (list INote)) :
  groupsAreChildren e = true ->
  notesAreChildren e = true ->
  acceptedNotes newNotes = true ->
  exists e',
    XliffTransUnit.setNotes newNotes e = (e', Return tt)
    /\ XliffTransUnit_sourceReferences parseInt e'
       = XliffTransUnit_sourceReferences parseInt e.
Proof.
  intros Hg Hn Hok. destruct e as [| tg a cs]; [done |]. simpl in Hg, Hn.
  eexists. split; [by apply Xliff_setNotes_fragment |].
  rewrite !Xliff_sourceReferences_flat by (done || by apply groups_flat_after_notes).
  f_equal. rewrite filter_app.
  rewrite (filter_filter_implied isLocationGroup isAdditionalNote12).
  2:{ intros c Hc. unfold isAdditionalNote12.
      by rewrite (isLocationGroup_not_note c Hc). }
  rewrite (filter_none _ (map noteElement12 _)); [by rewrite app_nil_r |].
  apply Forall_fmap, Forall_forall. by intros n _.
Qed.

Lemma Xliff_setNotes_keeps_sourceReferences_witness :
  exists e',
    XliffTransUnit.setNotes (Some [translatorNote]) locatedUnit
    = (e', Return tt)
    /\ XliffTransUnit_sourceReferences parseInt10 e'
       = [(Some "old.html", Some 3%Z)].
Proof.
  exact (Xliff_setNotes_keeps_sourceReferences parseInt10 locatedUnit
           (Some [translatorNote]) eq_refl eq_refl eq_refl).
Defined.

(** X22: in XLIFF 2.0 a source reference is a note, and [setNotes] replaces
    it with the others.  On a unit whose notes are in its notes element,
    after [setNotes] with notes it accepts [sourceReferences] gives the
    references of the new notes of origin [location] and nothing of what it
    gave before; with no such note among the new ones it gives none. *)
Theorem Xliff2_setNotes_replaces_sourceReferences
  (parseInt : string -> number) (e : Node) (newNotes : list INote) :
  notesAreInNotesElement e = true ->
  existsb isReservedOrigin newNotes = false ->
  exists e',
    Xliff2TransUnit.setNotes (Some newNotes) e = (e', Return tt)
    /\ Xliff2TransUnit.sourceReferences parseInt e'
       = map (fun note =>
                Xliff2TransUnit.parseSourceAndPos parseInt (text note))
           (filter (fun note => isLocationNote note = true) newNotes)
    /\ (existsb isLocationNote newNotes = false ->
        Xliff2TransUnit.sourceReferences parseInt e' = []).
Proof.
  intros He Hok.
  destruct (Xliff2_setNotes_shape e newNotes He Hok) as (e' & Hrun & Hnotes).
  exists e'. split; [done |].
  rewrite sourceReferences_are_notes, Hnotes.
  assert (Hmap :
    map (fun note => Xliff2TransUnit.parseSourceAndPos parseInt (text note))
      (filter (fun note => isLocationNote note = true)
         (map storedNote newNotes))
    = map (fun note => Xliff2TransUnit.parseSourceAndPos parseInt (text note))
        (filter (fun note => isLocationNote note = true) newNotes)).
  { clear. induction newNotes as [| n l IH]; [done |].
    simpl. rewrite !filter_cons.
    assert (Hs : isLocationNote (storedNote n) = isLocationNote n).
    { unfold isLocationNote, storedNote. simpl.
      destruct (from n) as [[| c s] |]; done. }
    rewrite Hs. destruct (decide (isLocationNote n = true)); simpl;
      by rewrite IH. }
  rewrite Hmap. split; [done |].
  intros Hnone%existsb_false_Forall. rewrite filter_none; [done |].
  eapply Forall_impl; [exact Hnone |]. intros n Hn. simpl in Hn. congruence.
Qed.

Lemma Xliff2_setNotes_replaces_sourceReferences_witness :
  Xliff2TransUnit.sourceReferences parseInt10 helloUnit2 = [helloReference]
  /\ exists e',
       Xliff2TransUnit.setNotes (Some [translatorNote]) helloUnit2
       = (e', Return tt)
       /\ Xliff2TransUnit.sourceReferences parseInt10 e' = [].
Proof.
  split; [reflexivity |].
  destruct (Xliff2_setNotes_replaces_sourceReferences parseInt10 helloUnit2
              [translatorNote] eq_refl eq_refl) as (e' & Hrun & _ & Hnone).
  exists e'. split; [exact Hrun | apply Hnone; reflexivity].
Defined.
